(** * pycrystem/diffraction_signal.py: a shallow embedding

    The module processes stacks of electron-diffraction frames with numpy.
    Arrays are modelled as row-major nested lists, numbers as exact
    rationals ([Q]) standing for the reals that numpy approximates with
    float64, and the outcome of a call as a value, a raised exception,
    non-termination (fuel exhausted) or a run on which nan or inf values
    reach library code whose behaviour on them is not specified. numpy is
    modelled as it behaves from version 1.13 on, where comparing an array
    with [None] is done item by item.

    The functions and methods are embedded as they are written, one
    definition per function, under the source's names. The method stub
    [set_experimental_parameters] (lines 161-162), which has no body, and
    [decomposition], which only delegates to HyperSpy, are left out. *)

From Stdlib Require Import String Bool Arith ZArith QArith Qround Lia Lqa List.
Import ListNotations.

Local Open Scope Q_scope.

(** ** Outcomes of Python calls *)

Inductive exn : Type :=
| IndexError
| ValueError (msg : string)
| TypeError
| LinAlgError
| NameError (name : string)
| UnboundLocalError (name : string).

Inductive outcome (A : Type) : Type :=
| Ret (a : A)
| Raise (e : exn)
| Diverge
| Unmodelled.

Arguments Ret {A} a.
Arguments Raise {A} e.
Arguments Diverge {A}.
Arguments Unmodelled {A}.

Definition bind {A B : Type} (m : outcome A) (k : A -> outcome B) : outcome B :=
  match m with
  | Ret a => k a
  | Raise e => Raise e
  | Diverge => Diverge
  | Unmodelled => Unmodelled
  end.

Declare Scope py_scope.
Delimit Scope py_scope with py.
Notation "x <- m ;; k" := (bind m (fun x => k))
  (at level 100, m at next level, right associativity) : py_scope.

(** ** Numbers *)

Definition ZtoQ (i : Z) : Q := inject_Z i.
Definition NtoQ (n : nat) : Q := inject_Z (Z.of_nat n).

Definition Qlt_bool (a b : Q) : bool := negb (Qle_bool b a).

Definition qmax (a b : Q) : Q := if Qle_bool a b then b else a.

(** numpy float64 results that may leave the rationals: [x / 0]. *)
Inductive npfloat : Type :=
| Num (q : Q)
| Nan
| Inf (negative : bool).

(** True division of numpy floats: a zero divisor gives nan for 0/0 and a
    signed infinity otherwise (a RuntimeWarning, not an exception). *)
Definition np_divide (a b : Q) : npfloat :=
  if Qeq_bool b 0 then
    if Qeq_bool a 0 then Nan else Inf (Qlt_bool a 0)
  else Num (a / b).

(** [np.rint]: round to the nearest integer, halves to the even one. *)
Definition rint (q : Q) : Z :=
  let f := Qfloor q in
  match Qcompare (q - inject_Z f) (1 # 2) with
  | Lt => f
  | Gt => (f + 1)%Z
  | Eq => if Z.even f then f else (f + 1)%Z
  end.

(** [astype(int)] on a float: truncation toward zero; nan and the
    infinities become the "integer indefinite" value of the conversion
    instruction. *)
Definition Qtrunc (q : Q) : Z := Z.quot (Qnum q) (Zpos (Qden q)).

Definition astype_int (x : npfloat) : Z :=
  match x with
  | Num q => Qtrunc q
  | Nan | Inf _ => (- 2 ^ 63)%Z
  end.

(** ** Two-dimensional arrays *)

Definition array2 (A : Type) : Type := list (list A).
Definition frame : Type := array2 Q.
Definition bmask : Type := array2 bool.

Definition shape {A : Type} (z : array2 A) : nat * nat :=
  (length z, length (hd [] z)).

Definition item {A : Type} (d : A) (z : array2 A) (i j : nat) : A :=
  nth j (nth i z []) d.

Definition tabulate {A : Type} (h w : nat) (f : nat -> nat -> A) : array2 A :=
  map (fun i => map (fun j => f i j) (seq 0 w)) (seq 0 h).

Definition ravel {A : Type} (z : array2 A) : list A := concat z.

(** Python indexing of one axis: negative indices count from the end. *)
Definition py_index (n : nat) (i : Z) : option nat :=
  if ((0 <=? i) && (i <? Z.of_nat n))%Z then Some (Z.to_nat i)
  else if ((- Z.of_nat n <=? i) && (i <? 0))%Z then Some (Z.to_nat (Z.of_nat n + i))
  else None.

(** [z[i, j]] *)
Definition getitem (z : frame) (i j : Z) : outcome Q :=
  let '(h, w) := shape z in
  match py_index h i, py_index w j with
  | Some i', Some j' => Ret (item 0 z i' j')
  | _, _ => Raise IndexError
  end.

(** numpy broadcasting of one axis of two operands. *)
Definition broadcast_dim (m n : nat) : option nat :=
  if (m =? n)%nat then Some m
  else if (m =? 1)%nat then Some n
  else if (n =? 1)%nat then Some m
  else None.

Definition broadcast_idx (m i : nat) : nat := if (m =? 1)%nat then 0%nat else i.

Definition b2q (b : bool) : Q := if b then 1 else 0.

(** [z * mask] for a float array and a boolean array. *)
Definition mul_mask (z : frame) (mask : bmask) : outcome frame :=
  let '(h1, w1) := shape z in
  let '(h2, w2) := shape mask in
  match broadcast_dim h1 h2, broadcast_dim w1 w2 with
  | Some h, Some w =>
      Ret (tabulate h w (fun i j =>
             item 0 z (broadcast_idx h1 i) (broadcast_idx w1 j)
             * b2q (item false mask (broadcast_idx h2 i) (broadcast_idx w2 j))))
  | _, _ => Raise (ValueError "operands could not be broadcast together")
  end.

(** [.max()] over all items: the reduction of an empty array raises. *)
Definition max_of (items : list Q) : outcome Q :=
  match items with
  | [] => Raise (ValueError "zero-size array to reduction operation maximum")
  | v :: vs => Ret (fold_left qmax vs v)
  end.

Definition amax (z : frame) : outcome Q := max_of (ravel z).

(** [np.where(z == m)]: the (row, column) positions holding [m], in
    row-major order. *)
Definition where_eq (z : frame) (m : Q) : list (nat * nat) :=
  let '(h, w) := shape z in
  flat_map (fun i =>
    flat_map (fun j => if Qeq_bool (item 0 z i j) m then [(i, j)] else [])
             (seq 0 w))
    (seq 0 h).

(** [np.average] of a list of indices; the lists it is applied to hold
    the positions of a maximum, so they are never empty. *)
Definition average (l : list nat) : Q :=
  NtoQ (fold_left Nat.add l 0%nat) / NtoQ (length l).

(** ** Geometry: [circular_mask] *)

(** One axis of [np.ogrid[start:stop]]: [ceil((stop - start) / step)]
    values [i * step + start], with the default step 1. *)
Definition ogrid_axis (start stop : Q) : list Q :=
  let step := 1 in
  let size := Z.to_nat (Qceiling ((stop - start) / (step * 1))) in
  map (fun i => NtoQ i * step + start) (seq 0 size).

Definition circular_mask (shp : nat * nat) (radius : Q) (center : Q * Q) : bmask :=
  let r := radius in
  let '(nx, ny) := (fst shp, snd shp) in
  let '(a, b) := center in
  let y := ogrid_axis (- b) (NtoQ ny - b) in
  let x := ogrid_axis (- a) (NtoQ nx - a) in
  map (fun yv => map (fun xv => Qle_bool (xv * xv + yv * yv) (r * r)) x) y.

(** ** CenterFinder: [refine_beam_position] *)

Definition asum (z : frame) : Q := fold_left Qplus (ravel z) 0.

(** [scipy.ndimage.measurements.center_of_mass(input)]: for each axis the
    sum of [input * grid] over the sum of [input]. *)
Definition center_of_mass (input : frame) : npfloat * npfloat :=
  let '(h, w) := shape input in
  let normalizer := asum input in
  (np_divide (asum (tabulate h w (fun i j => item 0 input i j * NtoQ i))) normalizer,
   np_divide (asum (tabulate h w (fun i j => item 0 input i j * NtoQ j))) normalizer).

(** The centre of a pair of integer indices, as [circular_mask] receives it. *)
Definition center_of (c : Z * Z) : Q * Q := (ZtoQ (fst c), ZtoQ (snd c)).

Local Open Scope py_scope.

(** The statements shared by the [if] branch (lines 128-133) and the body
    of the [while] loop (lines 135-141): both read [z_tmp] and assign
    [c], [c_int], [mask] and [ztmp]; neither assigns [z_tmp]. *)
Definition relocate (z z_tmp : frame) (radius : Q) : outcome (Q * frame) :=
  m <- amax z_tmp ;;
  let maxes := where_eq z_tmp m in
  let c := (rint (average (map fst maxes)), rint (average (map snd maxes))) in
  c_int <- getitem z (fst c) (snd c) ;;
  let mask := circular_mask (shape z) radius (center_of c) in
  ztmp <- mul_mask z mask ;;
  Ret (c_int, ztmp).

(** The local variables the loop carries: [c_int] and [ztmp], the latter
    unbound until one of the two blocks has run. *)
Definition locals : Type := (Q * option frame)%type.

(** [while c_int < z_tmp.max(): ...] *)
Fixpoint while_loop (fuel : nat) (z z_tmp : frame) (radius : Q) (st : locals)
  : outcome locals :=
  match fuel with
  | O => Diverge
  | S fuel' =>
      m <- amax z_tmp ;;
      if Qlt_bool (fst st) m then
        r <- relocate z z_tmp radius ;;
        while_loop fuel' z z_tmp radius (fst r, Some (snd r))
      else Ret st
  end.

Definition refine_beam_position (fuel : nat) (z : frame) (start : Z * Z) (radius : Q)
  : outcome (npfloat * npfloat) :=
  c_int <- getitem z (fst start) (snd start) ;;
  let mask := circular_mask (shape z) radius (center_of start) in
  z_tmp <- mul_mask z mask ;;
  m <- amax z_tmp ;;
  st <- (if Qeq_bool c_int m then
           r <- relocate z z_tmp radius ;; Ret (fst r, Some (snd r))
         else Ret (c_int, None)) ;;
  st <- while_loop fuel z z_tmp radius st ;;
  match snd st with
  | None => Raise (UnboundLocalError "ztmp")
  | Some ztmp => Ret (center_of_mass ztmp)
  end.

(** ** The signal class *)

(** An [ElectronDiffraction] signal: the frames in navigation order and
    [axes_manager.signal_shape], which lists the signal axes x first:
    (width, height). *)
Record Signal (A : Type) : Type := mkSignal {
  data : list (array2 A);
  signal_shape : nat * nat
}.

Arguments mkSignal {A} data signal_shape.
Arguments data {A} s.
Arguments signal_shape {A} s.

Definition ElectronDiffraction : Type := Signal Q.

Definition navigation_size {A : Type} (s : Signal A) : nat := length (data s).

(** Every frame of the stack has [height] rows of [width] pixels. *)
Definition rectangular {A : Type} (h w : nat) (z : array2 A) : Prop :=
  length z = h /\ Forall (fun row => length row = w) z.

Definition well_shaped {A : Type} (s : Signal A) : Prop :=
  Forall (rectangular (snd (signal_shape s)) (fst (signal_shape s))) (data s).

(** An n-dimensional array as numpy stores it: a shape and the items in
    row-major order. *)
Record ndarray : Type := mkArray {
  nd_shape : list nat;
  nd_data : list Q
}.

(** [c[index] = value] for a row of a two-column array [c]. *)
Fixpoint set_nth {A : Type} (l : list A) (k : nat) (v : A) : list A :=
  match l, k with
  | [], _ => []
  | _ :: t, O => v :: t
  | x :: t, S k' => x :: set_nth t k' v
  end.

Definition set_row (c : ndarray) (index : nat) (v : Z * Z) : ndarray :=
  mkArray (nd_shape c)
          (set_nth (set_nth (nd_data c) (2 * index) (ZtoQ (fst v)))
                   (2 * index + 1) (ZtoQ (snd v))).

Definition get_row (c : ndarray) (index : nat) : Q * Q :=
  (nth (2 * index) (nd_data c) 0, nth (2 * index + 1) (nd_data c) 0).

(** Modelled from the spec: [Signal2D.sum] belongs to the stack
    collaborator; it sums all frames elementwise into one aggregate frame. *)
Definition signal_sum (s : ElectronDiffraction) : frame :=
  tabulate (snd (signal_shape s)) (fst (signal_shape s))
           (fun i j => fold_left Qplus (map (fun z => item 0 z i j) (data s)) 0).

(** The seed of the per-frame refinement (lines 219-222). *)
Definition estimate_global_center (s : ElectronDiffraction) : outcome (Z * Z) :=
  let dp_sum := signal_sum s in
  m <- amax dp_sum ;;
  let maxes := where_eq dp_sum m in
  Ret (rint (average (map fst maxes)), rint (average (map snd maxes))).

(** The [for] loop of lines 227-229 over the frames and their indices:
    the float pair is stored into the integer array [c]. *)
Fixpoint store_centers (fuel : nat) (zs : list (frame * nat)) (mref : Z * Z)
         (radius : Q) (c : ndarray) : outcome ndarray :=
  match zs with
  | [] => Ret c
  | (z, index) :: rest =>
      v <- refine_beam_position fuel z mref radius ;;
      store_centers fuel rest mref radius
                    (set_row c index (astype_int (fst v), astype_int (snd v)))
  end.

Definition get_direct_beam_position (fuel : nat) (s : ElectronDiffraction) (radius : Q)
  : outcome ndarray :=
  mref <- estimate_global_center s ;;
  let arr_shape := [navigation_size s; 2%nat] in
  let c := mkArray arr_shape (repeat 0 (navigation_size s * 2)) in
  store_centers fuel (combine (data s) (seq 0 (navigation_size s))) mref radius c.

Definition list_eqb (a b : list nat) : bool :=
  if list_eq_dec Nat.eq_dec a b then true else false.

(** [centers - [gx, gy]]: the two-item list is broadcast along the last
    axis of [centers]. *)
Definition subtract_pair (centers : ndarray) (g : Q * Q) : outcome ndarray :=
  match last (nd_shape centers) 1%nat with
  | 2%nat =>
      Ret (mkArray (nd_shape centers)
             (map (fun kv => snd kv - (if Nat.even (fst kv) then fst g else snd g))
                  (combine (seq 0 (length (nd_data centers))) (nd_data centers))))
  | 1%nat =>
      Ret (mkArray (removelast (nd_shape centers) ++ [2%nat])
             (flat_map (fun v => [v - fst g; v - snd g]) (nd_data centers)))
  | _ => Raise (ValueError "operands could not be broadcast together")
  end.

(** The number of items of an array. *)
Definition nd_size (c : ndarray) : nat := fold_right Nat.mul 1%nat (nd_shape c).

Definition ambiguous_truth : exn :=
  ValueError "The truth value of an array with more than one element is ambiguous. Use a.any() or a.all()".

(** [if a:] for a boolean array of [size] items that all equal [item]: an
    array of one item has the truth value of the item, an array of more
    items has none. What an empty array gives depends on the version of
    numpy (False with a DeprecationWarning, an error from 2.2 on) and is
    not modelled. *)
Definition array_truth (size : nat) (item : bool) : outcome bool :=
  match size with
  | 0%nat => Unmodelled
  | 1%nat => Ret item
  | _ => Raise ambiguous_truth
  end.

(** [if centers == None:] and [if centers != None:] for [centers] that is
    [None] or an array of numbers. An array is compared with [None] item by
    item, and no number equals [None]: [centers == None] is an array of
    [False] and [centers != None] an array of [True], of the shape of
    [centers]. *)
Definition eq_None (centers : option ndarray) : outcome bool :=
  match centers with
  | None => Ret true
  | Some c => array_truth (nd_size c) false
  end.

Definition ne_None (centers : option ndarray) : outcome bool :=
  match centers with
  | None => Ret false
  | Some c => array_truth (nd_size c) true
  end.

(** Lines 261-272. After line 262 [centers] is an array: the [None]
    branches below are not reached. *)
Definition get_direct_beam_shifts (fuel : nat) (s : ElectronDiffraction)
           (centers : option ndarray) (radius : Q) : outcome ndarray :=
  absent <- eq_None centers ;;
  centers <- (if absent
              then c <- get_direct_beam_position fuel s radius ;; Ret (Some c)
              else Ret centers) ;;
  present <- ne_None centers ;;
  checked <- (if present then
                match centers with
                | Some c =>
                    if negb (list_eqb (nd_shape c) [navigation_size s; 2%nat]) then
                      Raise (ValueError "The number of center positions provided must match the navigation_size")
                    else Ret tt
                | None => Ret tt
                end
              else Ret tt) ;;
  match centers with
  | Some c => subtract_pair c ((NtoQ (fst (signal_shape s)) - 1) / 2,
                               (NtoQ (snd (signal_shape s)) - 1) / 2)
  | None => Raise TypeError
  end.

(** ** RadialProfiler: [radial_average] *)

(** [np.sqrt(v).astype(np.int)] for [v >= 0]: the integer part of the
    square root, which is the integer square root of the integer part. *)
Definition sqrt_int (v : Q) : nat := Z.to_nat (Z.sqrt (Qfloor v)).

(** [out[k] += v] *)
Fixpoint add_at {A : Type} (add : A -> A -> A) (out : list A) (k : nat) (v : A) : list A :=
  match out, k with
  | [], _ => []
  | x :: t, O => add x v :: t
  | x :: t, S k' => x :: add_at add t k' v
  end.

(** [np.bincount(x, weights)]: one bin per value up to the largest, each
    holding the sum of the weights of the items with that value. *)
Definition bincount_weights (x : list nat) (weights : list Q) : list Q :=
  match x with
  | [] => []
  | _ => fold_left (fun out kv => add_at Qplus out (fst kv) (snd kv))
                   (combine x weights)
                   (repeat 0 (S (list_max x)))
  end.

(** [np.bincount(x)]: the number of items with each value. *)
Definition bincount (x : list nat) : list nat :=
  match x with
  | [] => []
  | _ => fold_left (fun out k => add_at Nat.add out k 1%nat) x
                   (repeat 0%nat (S (list_max x)))
  end.

Definition radial_average (z : frame) (center : Q * Q) : list npfloat :=
  let '(h, w) := shape z in
  let r := tabulate h w (fun y x =>
             sqrt_int ((NtoQ x - snd center) ^ 2 + (NtoQ y - fst center) ^ 2)) in
  let tbin := bincount_weights (ravel r) (ravel z) in
  let nr := bincount (ravel r) in
  map (fun tn => np_divide (fst tn) (NtoQ (snd tn))) (combine tbin nr).

(** ** Name resolution in the module *)

Inductive pyobj : Type :=
| Py_module (name : string)
| Py_class (name : string)
| Py_function (name : string).

(** The names bound at module level: the imports of lines 20-30 and the
    [def] and [class] statements. *)
Definition module_globals : list (string * pyobj) :=
  [ ("t", Py_module "traits.api");
    ("math", Py_module "math");
    ("np", Py_module "numpy");
    ("ndi", Py_module "scipy.ndimage");
    ("tf", Py_module "skimage.transform");
    ("morphology", Py_module "skimage.morphology");
    ("filters", Py_module "skimage.filters");
    ("square", Py_function "skimage.morphology.square");
    ("Signal2D", Py_class "hyperspy.signals.Signal2D");
    ("Signal1D", Py_class "hyperspy.signals.Signal1D");
    ("preferences", Py_module "hyperspy.defaults_parser.preferences");
    ("messagesui", Py_module "hyperspy.gui.messages");
    ("radial_average", Py_function "radial_average");
    ("affine_transformation", Py_function "affine_transformation");
    ("circular_mask", Py_function "circular_mask");
    ("refine_beam_position", Py_function "refine_beam_position");
    ("ElectronDiffraction", Py_class "ElectronDiffraction") ]%string.

(** Reading a global name inside a function body; a name bound neither
    here nor among the builtins raises NameError. *)
Definition lookup_global (name : string) : outcome pyobj :=
  match find (fun kv => String.eqb (fst kv) name) module_globals with
  | Some kv => Ret (snd kv)
  | None => Raise (NameError name)
  end.

(** ** Methods that change the stack *)

(** Modelled from the spec: [Signal2D.map] belongs to the stack
    collaborator; it applies a function to every frame in navigation
    order and stores each result in the frame's place. A frame whose call
    raises stops the iteration, the frames before it already replaced. *)
Fixpoint map_frames (f : frame -> outcome frame) (zs : list frame)
  : outcome unit * list frame :=
  match zs with
  | [] => (Ret tt, [])
  | z :: rest =>
      match f z with
      | Ret z' => let '(o, rest') := map_frames f rest in (o, z' :: rest')
      | Raise e => (Raise e, z :: rest)
      | Diverge => (Diverge, z :: rest)
      | Unmodelled => (Unmodelled, z :: rest)
      end
  end.

Definition signal_map (f : frame -> outcome frame) (s : ElectronDiffraction)
  : outcome unit * ElectronDiffraction :=
  let '(o, d) := map_frames f (data s) in (o, mkSignal d (signal_shape s)).

(** ** GeometricTransformer *)

Definition mat3 : Type := array2 Q.

Definition matmul (a b : mat3) : mat3 :=
  tabulate 3 3 (fun i j =>
    item 0 a i 0 * item 0 b 0 j + item 0 a i 1 * item 0 b 1 j + item 0 a i 2 * item 0 b 2 j).

(** [tf.SimilarityTransform(translation=[tx, ty])] *)
Definition translation (tx ty : Q) : mat3 := [[1; 0; tx]; [0; 1; ty]; [0; 0; 1]].

(** [a + b] on skimage transforms: [a] first, then [b]. *)
Definition tf_add (a b : mat3) : mat3 := matmul b a.

Definition entry (m : mat3) (i j : nat) : Q := item 0 m i j.

Definition det3 (m : mat3) : Q :=
  entry m 0 0 * (entry m 1 1 * entry m 2 2 - entry m 1 2 * entry m 2 1)
  - entry m 0 1 * (entry m 1 0 * entry m 2 2 - entry m 1 2 * entry m 2 0)
  + entry m 0 2 * (entry m 1 0 * entry m 2 1 - entry m 1 1 * entry m 2 0).

(** [.inverse]: the transform of the inverted matrix. *)
Definition tf_inverse (m : mat3) : outcome mat3 :=
  let d := det3 m in
  if Qeq_bool d 0 then Raise LinAlgError
  else Ret [[(entry m 1 1 * entry m 2 2 - entry m 1 2 * entry m 2 1) / d;
             (entry m 0 2 * entry m 2 1 - entry m 0 1 * entry m 2 2) / d;
             (entry m 0 1 * entry m 1 2 - entry m 0 2 * entry m 1 1) / d];
            [(entry m 1 2 * entry m 2 0 - entry m 1 0 * entry m 2 2) / d;
             (entry m 0 0 * entry m 2 2 - entry m 0 2 * entry m 2 0) / d;
             (entry m 0 2 * entry m 1 0 - entry m 0 0 * entry m 1 2) / d];
            [(entry m 1 0 * entry m 2 1 - entry m 1 1 * entry m 2 0) / d;
             (entry m 0 1 * entry m 2 0 - entry m 0 0 * entry m 2 1) / d;
             (entry m 0 0 * entry m 1 1 - entry m 0 1 * entry m 1 0) / d]].

Section GeometricTransformer.

(** [skimage.transform.warp(z, inverse_map, order)]: the resampling of
    [z] under the coordinate map of a matrix, by spline interpolation
    of the given order. *)
Variable tf_warp : frame -> mat3 -> nat -> frame.

(** [math.cos], [math.sin] and [np.pi]. *)
Variables math_cos math_sin : Q -> Q.
Variable np_pi : Q.

Definition affine_transformation (z : frame) (order : nat) (matrix : mat3)
  : outcome frame :=
  let '(shift_y, shift_x) := (NtoQ (fst (shape z)) / 2, NtoQ (snd (shape z)) / 2) in
  let tf_shift := translation (- shift_x) (- shift_y) in
  let tf_shift_inv := translation shift_x shift_y in
  let transformation := matrix in
  inverse_map <- tf_inverse (tf_add tf_shift (tf_add transformation tf_shift_inv)) ;;
  Ret (tf_warp z inverse_map order).

(** Calling a module-level object as [f(z, matrix=m)]. *)
Definition call_with_matrix (f : pyobj) (m : mat3) (z : frame) : outcome frame :=
  match f with
  | Py_function name =>
      if String.eqb name "affine_transformation" then affine_transformation z 3 m
      else Raise TypeError
  | _ => Raise TypeError
  end.

Definition correct_geometric_distortion (D : mat3) (s : ElectronDiffraction)
  : outcome unit * ElectronDiffraction :=
  match lookup_global "affine_transformation" with
  | Ret f => signal_map (call_with_matrix f D) s
  | Raise e => (Raise e, s)
  | Diverge => (Diverge, s)
  | Unmodelled => (Unmodelled, s)
  end.

Definition rotate_patterns (angle : Q) (s : ElectronDiffraction)
  : outcome unit * ElectronDiffraction :=
  let a := angle * np_pi / 180 in
  let t := [[math_cos a; math_sin a; 0];
            [- math_sin a; math_cos a; 0];
            [0; 0; 1]] in
  match lookup_global "_affine_transformation" with
  | Ret f => signal_map (call_with_matrix f t) s
  | Raise e => (Raise e, s)
  | Diverge => (Diverge, s)
  | Unmodelled => (Unmodelled, s)
  end.

End GeometricTransformer.

(** ** BackgroundSubtractor *)

(** [skimage.morphology.square(n)]: an n x n neighbourhood of ones. *)
Definition square (n : nat) : array2 bool := tabulate n n (fun _ _ => true).

(** The values of [z] under a neighbourhood centred on pixel (i, j);
    positions outside the image are left out. *)
Definition window (z : frame) (selem : array2 bool) (i j : nat) : list Q :=
  let '(h, w) := shape z in
  let '(sh, sw) := shape selem in
  flat_map (fun a =>
    flat_map (fun b =>
      let i' := (Z.of_nat i + Z.of_nat a - Z.of_nat (sh / 2))%Z in
      let j' := (Z.of_nat j + Z.of_nat b - Z.of_nat (sw / 2))%Z in
      if item false selem a b
         && ((0 <=? i')%Z && (i' <? Z.of_nat h)%Z)
         && ((0 <=? j')%Z && (j' <? Z.of_nat w)%Z)
      then [item 0 z (Z.to_nat i') (Z.to_nat j')] else [])
      (seq 0 sw))
    (seq 0 sh).

Definition qmin (a b : Q) : Q := if Qle_bool a b then a else b.

(** Grayscale dilation: every pixel becomes the largest value under the
    neighbourhood. *)
Definition dilation (z : frame) (selem : array2 bool) : frame :=
  let '(h, w) := shape z in
  tabulate h w (fun i j => fold_left qmax (window z selem i j) (item 0 z i j)).

(** Pointwise minimum with the mask image. *)
Definition clip (z mask : frame) : frame :=
  let '(h, w) := shape z in
  tabulate h w (fun i j => qmin (item 0 z i j) (item 0 mask i j)).

Definition all_pixels {A : Type} (z : array2 A) (p : nat -> nat -> bool) : bool :=
  let '(h, w) := shape z in
  forallb (fun i => forallb (fun j => p i j) (seq 0 w)) (seq 0 h).

Definition shape_eqb (a b : nat * nat) : bool :=
  ((fst a =? fst b)%nat && (snd a =? snd b)%nat).

Definition frame_eqb (a b : frame) : bool :=
  shape_eqb (shape a) (shape b)
  && all_pixels a (fun i j => Qeq_bool (item 0 a i j) (item 0 b i j)).

(** Apply [step] until the image no longer changes, at most [n] times. *)
Fixpoint iterate_fix (n : nat) (step : frame -> frame) (x : frame) : frame :=
  match n with
  | O => x
  | S n' => let y := step x in
            if frame_eqb y x then x else iterate_fix n' step y
  end.

(** One round of reconstruction by dilation. *)
Definition reconstruction_step (mask x : frame) : frame :=
  clip (dilation x (square 3)) mask.

(** Modelled from the spec: [skimage.morphology.reconstruction(seed, mask,
    method='dilation')] is library code; the spec describes it as the
    repeated dilation of the seed with a 3 x 3 neighbourhood, clipped
    pointwise to the mask, until no pixel changes. The library rejects a
    seed that exceeds the mask. Every round that changes the image raises
    a pixel to a larger seed or mask value, so the rounds allowed here
    suffice (see [reconstruction_fixed_point]). *)
Definition reconstruction (seed mask : frame) : outcome frame :=
  if negb (shape_eqb (shape seed) (shape mask)) then
    Raise (ValueError "seed and mask differ in shape")
  else if negb (all_pixels seed (fun i j => Qle_bool (item 0 seed i j) (item 0 mask i j))) then
    Raise (ValueError "Intensity of seed image must be less than that of the mask image for reconstruction by dilation.")
  else
    let n := (fst (shape seed) * snd (shape seed))%nat in
    Ret (iterate_fix (S (n * (n + n))) (reconstruction_step mask) seed).

(** Modelled from the spec: [skimage.filters.rank.mean(z, selem)] is
    library code; the spec describes it as the local mean over the
    neighbourhood. The library accepts a float image only with all values
    between -1 and 1 and raises ValueError otherwise; what it does with an
    image without pixels is not modelled. The mean is kept exact here; the
    library computes it on 8-bit integer images. *)
Definition rank_mean (selem : array2 bool) (z : frame) : outcome frame :=
  let '(h, w) := shape z in
  match ravel z with
  | [] => Unmodelled
  | _ =>
      if all_pixels z (fun i j => Qle_bool (- (1)) (item 0 z i j)
                                  && Qle_bool (item 0 z i j) 1)
      then Ret (tabulate h w (fun i j =>
                  let vals := window z selem i j in
                  fold_left Qplus vals 0 / NtoQ (length vals)))
      else Raise (ValueError "Images of type float must be between -1 and 1.")
  end.

(** [z - dilated] *)
Definition subtract (a b : frame) : frame :=
  let '(h, w) := shape a in
  tabulate h w (fun i j => item 0 a i j - item 0 b i j).

Definition _regional_filter (h : Q) (z : frame) : outcome frame :=
  let seed := map (map (fun v => v - h)) z in
  let mask := z in
  dilated <- reconstruction seed mask ;;
  Ret (subtract z dilated).

(** [self.data.max()] over the whole stack. *)
Definition stack_max (d : list frame) : outcome Q := max_of (flat_map ravel d).

(** [self.data / m] *)
Definition divide (d : list frame) (m : Q) : list (array2 npfloat) :=
  map (map (map (fun v => np_divide v m))) d.

Definition lift (d : list frame) : list (array2 npfloat) := map (map (map Num)) d.

Definition remove_background (h : Q) (s : ElectronDiffraction)
  : outcome unit * Signal npfloat :=
  let sig := signal_shape s in
  match stack_max (data s) with
  | Ret m =>
      if Qeq_bool m 0 then
        (* the stack now holds nan and inf, which line 307 hands to skimage *)
        (Unmodelled, mkSignal (divide (data s) m) sig)
      else
        let d := map (map (map (fun v => v / m))) (data s) in
        match map_frames (_regional_filter h) d with
        | (Ret _, d) =>
            match map_frames (rank_mean (square 3)) d with
            | (Ret _, d) =>
                match stack_max d with
                | Ret m' => (Ret tt, mkSignal (divide d m') sig)
                | Raise e => (Raise e, mkSignal (lift d) sig)
                | Diverge => (Diverge, mkSignal (lift d) sig)
                | Unmodelled => (Unmodelled, mkSignal (lift d) sig)
                end
            | (Raise e, d) => (Raise e, mkSignal (lift d) sig)
            | (Diverge, d) => (Diverge, mkSignal (lift d) sig)
            | (Unmodelled, d) => (Unmodelled, mkSignal (lift d) sig)
            end
        | (Raise e, d) => (Raise e, mkSignal (lift d) sig)
        | (Diverge, d) => (Diverge, mkSignal (lift d) sig)
        | (Unmodelled, d) => (Unmodelled, mkSignal (lift d) sig)
        end
  | Raise e => (Raise e, mkSignal (lift (data s)) sig)
  | Diverge => (Diverge, mkSignal (lift (data s)) sig)
  | Unmodelled => (Unmodelled, mkSignal (lift (data s)) sig)
  end.

(** ** VacuumMaskBuilder *)

Definition get_direct_beam_mask (s : ElectronDiffraction) (radius : Q)
           (center : option (Q * Q)) : bmask :=
  let shp := signal_shape s in
  let center := match center with
                | None => ((NtoQ (snd shp) - 1) / 2, (NtoQ (fst shp) - 1) / 2)
                | Some c => c
                end in
  circular_mask shp radius center.

(** [np.invert] on a boolean array. *)
Definition invert (m : bmask) : bmask := map (map negb) m.

(** The navigation mask [mask.data] is an array of the navigation shape
    of the stack ([nav], in numpy's order of the axes), one flag per frame;
    it is held as the list of its items in row-major order, the order of
    the frames in [data]. Each axis of [nav] has an extent and a stride:
    the distance in the list between neighbours along the axis. *)
Fixpoint axes (nav : list nat) : list (nat * nat) :=
  match nav with
  | [] => []
  | d :: rest => (d, fold_right Nat.mul 1%nat rest) :: axes rest
  end.

(** The index along an axis of the item at position [k] of the list. *)
Definition coordinate (ax : nat * nat) (k : nat) : nat := ((k / snd ax) mod fst ax)%nat.

(** Modelled from the spec: [scipy.ndimage.binary_dilation] and
    [binary_erosion] are library code, called with the default
    neighbourhood: an item and, along every axis, the item before and the
    item after it (three items on a linear mask, a cross of five on a
    grid); positions outside the mask read as [border_value]. *)
Definition neighbours (m : list bool) (nav : list nat) (border_value : bool) (k : nat)
  : list bool :=
  nth k m border_value
  :: flat_map (fun ax =>
       [ if (coordinate ax k =? 0)%nat then border_value
         else nth (k - snd ax) m border_value;
         if (S (coordinate ax k) <? fst ax)%nat then nth (k + snd ax) m border_value
         else border_value ])
       (axes nav).

Definition binary_dilation (m : list bool) (nav : list nat) (border_value : bool)
  : list bool :=
  map (fun k => existsb (fun b => b) (neighbours m nav border_value k)) (seq 0 (length m)).

Definition binary_erosion (m : list bool) (nav : list nat) (border_value : bool)
  : list bool :=
  map (fun k => forallb (fun b => b) (neighbours m nav border_value k)) (seq 0 (length m)).

(** The monadic map over the frames of a stack. *)
Fixpoint for_each {A B : Type} (f : A -> outcome B) (l : list A) : outcome (list B) :=
  match l with
  | [] => Ret []
  | x :: t => y <- f x ;; ys <- for_each f t ;; Ret (y :: ys)
  end.

(** [nav] is the navigation shape of the stack [s], an attribute of the
    stack ([mask.data.shape] on lines 386-394). *)
Definition get_vacuum_mask (s : ElectronDiffraction) (nav : list nat) (radius : Q)
           (center : option (Q * Q)) (threshold : Q) (closing opening : bool)
  : outcome (list bool) :=
  let db := invert (get_direct_beam_mask s radius center) in
  diff_only <- for_each (fun z => mul_mask z db) (data s) ;;
  maxima <- for_each amax diff_only ;;
  let mask := map (fun m => Qle_bool m threshold) maxima in
  let mask := if closing
              then binary_erosion (binary_dilation mask nav false) nav true
              else mask in
  let mask := if opening
              then binary_dilation (binary_erosion mask nav true) nav false
              else mask in
  Ret mask.

(** ** Vocabulary of the statements *)

Definition Qsum (l : list Q) : Q := fold_left Qplus l 0.

(** The pixel positions (row, column) of an array, in row-major order. *)
Definition pixels {A : Type} (z : array2 A) : list (nat * nat) :=
  list_prod (seq 0 (fst (shape z))) (seq 0 (snd (shape z))).

Definition intensity (z : frame) (p : nat * nat) : Q := item 0 z (fst p) (snd p).

(** The radial bin of a pixel: its distance from [center] = (row, column),
    truncated to an integer. *)
Definition distance_bin (center : Q * Q) (p : nat * nat) : nat :=
  sqrt_int ((NtoQ (snd p) - snd center) ^ 2 + (NtoQ (fst p) - fst center) ^ 2).

Definition bin_members (z : frame) (center : Q * Q) (r : nat) : list (nat * nat) :=
  filter (fun p => (distance_bin center p =? r)%nat) (pixels z).



(** What an integer array keeps of a float pair stored into it. *)
Definition stored (v : npfloat * npfloat) : Q * Q :=
  (ZtoQ (astype_int (fst v)), ZtoQ (astype_int (snd v))).

(** A frame multiplied elementwise by a boolean array of its shape. *)
Definition masked (h w : nat) (z : frame) (keep : bmask) : frame :=
  tabulate h w (fun y x => item 0 z y x * b2q (item false keep y x)).

Definition peak (z : frame) : Q :=
  match amax z with Ret m => m | _ => 0 end.

(** Closing, then opening, of the navigation mask. *)
Definition morphology_cleanup (nav : list nat) (closing opening : bool)
           (vacuum : list bool) : list bool :=
  let closed := if closing
                then binary_erosion (binary_dilation vacuum nav false) nav true
                else vacuum in
  if opening
  then binary_dilation (binary_erosion closed nav true) nav false
  else closed.

(** The frame the modelled mean filter returns on a frame it accepts. *)
Definition local_mean (z : frame) : frame :=
  tabulate (fst (shape z)) (snd (shape z))
           (fun i j => Qsum (window z (square 3) i j)
                       / NtoQ (length (window z (square 3) i j))).

(** The frame [_regional_filter] returns, where it returns. *)
Definition regional (h : Q) (z : frame) : frame :=
  match _regional_filter h z with Ret r => r | _ => z end.

(** The measure that bounds the rounds of a reconstruction: the number of
    candidate values below a pixel's value, summed over the pixels. *)
Definition rank (vs : list Q) (v : Q) : nat :=
  length (filter (fun u => Qlt_bool u v) vs).

Definition potential (vs : list Q) (ps : list (nat * nat)) (x : frame) : nat :=
  list_sum (map (fun p => rank vs (intensity x p)) ps).

(** What every round of the reconstruction of [seed] under [mask] keeps:
    the shape, values taken from the two images, and the mask as a bound. *)
Definition reconstruction_inv (seed mask x : frame) : Prop :=
  shape x = shape seed
  /\ forall p, In p (pixels seed) ->
       In (intensity x p)
          (map (intensity seed) (pixels seed) ++ map (intensity mask) (pixels seed))
       /\ intensity x p <= intensity mask p.

(** The composite transform of [affine_transformation] before inversion. *)
Definition composite (z : frame) (matrix : mat3) : mat3 :=
  let shift_y := NtoQ (fst (shape z)) / 2 in
  let shift_x := NtoQ (snd (shape z)) / 2 in
  tf_add (translation (- shift_x) (- shift_y))
         (tf_add matrix (translation shift_x shift_y)).

(** The frame [correct_geometric_distortion] stores in place of [z]. *)
Definition warped_frame (tf_warp : frame -> mat3 -> nat -> frame) (D : mat3) (z : frame)
  : frame :=
  match tf_inverse (composite z D) with
  | Ret inverse_map => tf_warp z inverse_map 3%nat
  | _ => z
  end.

(** The steps of [remove_background] in the words of the spec, stated on
    the pixels and independent of the definitions above.

    The indices next to [i] on an axis of [n] items: [i - 1], [i] and
    [i + 1], as far as they exist. *)
Definition around (i n : nat) : list nat :=
  filter (fun k => (k <? n)%nat)
         (match i with O => [i; S i] | S k => [k; i; S i] end).

(** The 3 x 3 neighbourhood of pixel (i, j) in a frame of [h] rows and [w]
    columns: the pixels at most one row and one column away, (i, j)
    included. *)
Definition neighbourhood (h w i j : nat) : list (nat * nat) :=
  list_prod (around i h) (around j w).

(** The indices the modelled filters run through on one axis (for the
    proof that they are the ones next to [i]). *)
Definition offsets (i n : nat) : list nat :=
  flat_map (fun a =>
    let i' := (Z.of_nat i + Z.of_nat a - Z.of_nat (3 / 2))%Z in
    if ((0 <=? i') && (i' <? Z.of_nat n))%Z then [Z.to_nat i'] else [])
    (seq 0 3).

(** [v] is the greatest, or the least, of the values [l]. *)
Definition is_greatest (v : Q) (l : list Q) : Prop := In v l /\ forall u, In u l -> u <= v.

Definition is_least (v : Q) (l : list Q) : Prop := In v l /\ forall u, In u l -> v <= u.


(** [y] has [h] rows of [w] items and its item (i, j) is [f i j]. *)
Definition pixelwise {A : Type} (d : A) (h w : nat) (y : array2 A) (f : nat -> nat -> A)
  : Prop :=
  rectangular h w y /\ forall i j, (i < h)%nat -> (j < w)%nat -> item d y i j = f i j.

(** One round of the reconstruction: [y] is [x] dilated with the 3 x 3
    neighbourhood and clipped to [mask], that is, every pixel of [y] is the
    smaller of the pixel of the mask and the greatest value of [x] in the
    neighbourhood of the pixel. *)
Definition dilated_and_clipped (h w : nat) (mask x y : frame) : Prop :=
  rectangular h w y
  /\ forall i j, (i < h)%nat -> (j < w)%nat ->
       exists top, is_greatest top (map (intensity x) (neighbourhood h w i j))
                   /\ is_least (item 0 y i j) [top; item 0 mask i j].

Inductive rounds (h w : nat) (mask : frame) (x : frame) : frame -> Prop :=
| rounds_none : rounds h w mask x x
| rounds_more (y r : frame) :
    rounds h w mask x y -> dilated_and_clipped h w mask y r -> rounds h w mask x r.

(** [r] is the reconstruction by dilation of [seed] under [mask]: it is
    reached from the seed by rounds of dilation and clipping, and one more
    round changes no pixel. *)
Definition reconstructed (h w : nat) (seed mask r : frame) : Prop :=
  rounds h w mask seed r
  /\ exists y, dilated_and_clipped h w mask r y
               /\ forall i j, (i < h)%nat -> (j < w)%nat -> item 0 y i j == item 0 r i j.

(** ** Sample inputs *)

(** Two equal maxima on either side of a dark centre. *)
Definition twin_peaks : frame := [[0; 5; 0]; [0; 0; 0]; [0; 5; 0]].

(** A two-pixel plateau: its centre of mass lies between the pixels. *)
Definition flat_top : frame := [[1; 1]; [0; 0]].

Definition one_frame : ElectronDiffraction := mkSignal [flat_top] (2, 2)%nat.

Definition two_frames : ElectronDiffraction := mkSignal [flat_top; flat_top] (2, 2)%nat.

(** A single row of three pixels. *)
Definition ramp : frame := [[1; 2; 3]].

(** A centre outside the frames above. *)
Definition far_corner : Q * Q := (5, 5).

Definition spot : frame := [[1; 2; 1]; [2; 8; 2]; [1; 2; 4]].

Definition spot_stack : ElectronDiffraction :=
  mkSignal [spot; [[0; 0; 0]; [0; 9; 0]; [0; 0; 0]]] (3, 3)%nat.

(** ** RadialProfiler: [get_radial_profile] *)

(** [c[index]] on the first axis, then [center[1]] and [center[0]] as
    [radial_average] reads them. A row needs two items; an array of one
    dimension gives a scalar, which cannot be indexed. With more than two
    dimensions [center[1]] is an array again: that it exists is modelled,
    the arithmetic on it is not. *)
Definition center_at (c : ndarray) (index : nat) : outcome (Q * Q) :=
  match nd_shape c with
  | [k; m] =>
      if (index <? k)%nat then
        if (2 <=? m)%nat then
          Ret (nth (index * m) (nd_data c) 0, nth (index * m + 1) (nd_data c) 0)
        else Raise IndexError
      else Raise IndexError
  | [] | [_] => Raise IndexError
  | k :: m :: _ =>
      if (index <? k)%nat then
        if (2 <=? m)%nat then Unmodelled else Raise IndexError
      else Raise IndexError
  end.

(** The list [rp] of lines 337-341, one profile per frame, before it is
    wrapped into an array and a [Signal1D]. *)
Definition get_radial_profile (fuel : nat) (s : ElectronDiffraction)
           (centers : option ndarray) : outcome (list (list npfloat)) :=
  absent <- eq_None centers ;;
  c <- match centers with
       | Some c => if absent then get_direct_beam_position fuel s 10 else Ret c
       | None => get_direct_beam_position fuel s 10
       end ;;
  for_each (fun zi => center <- center_at c (snd zi) ;;
                      Ret (radial_average (fst zi) center))
           (combine (data s) (seq 0 (navigation_size s))).

(** ** Vocabulary of the further properties *)

(** The profiles of a stack about the rows of [c]. *)
Definition profiles_about (s : ElectronDiffraction) (c : ndarray) : list (list npfloat) :=
  map (fun zi => radial_average (fst zi) (get_row c (snd zi)))
      (combine (data s) (seq 0 (navigation_size s))).

(** The number of positions of a navigation shape. *)
Definition grid_size (nav : list nat) : nat := fold_right Nat.mul 1%nat nav.

(** One mask is contained in another. *)
Definition mask_le (a b : list bool) : Prop :=
  length a = length b /\ forall i, nth i a false = true -> nth i b false = true.

(** The navigation mask before the morphological clean-up. *)
Definition raw_vacuum (s : ElectronDiffraction) (radius : Q) (center : option (Q * Q))
           (threshold : Q) : list bool :=
  map (fun z => Qle_bool
                  (peak (masked (snd (signal_shape s)) (fst (signal_shape s)) z
                                (invert (get_direct_beam_mask s radius center))))
                  threshold)
      (data s).

(** An affine matrix: a linear part and a translation. *)
Definition affine_matrix (a b c d tx ty : Q) : mat3 :=
  [[a; b; tx]; [c; d; ty]; [0; 0; 1]].

(** ** Further sample inputs *)

(** A frame of two rows and three columns. *)
Definition wide : frame := [[1; 2; 3]; [4; 5; 6]].

Definition wide_stack : ElectronDiffraction := mkSignal [wide] (3, 2)%nat.

(** The only bright pixel lies off the diagonal. *)
Definition corner_peak : frame := [[0; 0; 5]; [0; 0; 0]; [0; 0; 0]].

Definition single_peak : frame := [[0; 0; 0]; [0; 9; 0]; [0; 0; 0]].

(** Intensities that depend only on the distance from the middle pixel. *)
Definition ring : frame := [[1; 1; 1]; [1; 0; 1]; [1; 1; 1]].

Definition middle : Q * Q := (1, 1).

(** Centres for a stack of two frames, and an array of a single item. *)
Definition two_centers : ndarray := mkArray [2; 2]%nat [1; 1; 1; 1].

Definition lone_item : ndarray := mkArray [1; 1]%nat [1].


(** A resampling that returns the frame as it is. *)
Definition no_warp (z : frame) (inverse_map : mat3) (order : nat) : frame := z.

(** Four frames on a navigation grid of two rows and two columns: the
    frames of the first row show no intensity outside the beam. *)
Definition grid_stack : ElectronDiffraction :=
  mkSignal [single_peak; single_peak; spot; spot] (3, 3)%nat.

(** * Properties *)

(** ** Lists and arrays *)

Lemma nth_map_lt {A B : Type} (d : A) (f : A -> B) (l : list A) (k : nat) (d' : B) :
  (k < length l)%nat -> nth k (map f l) d' = f (nth k l d).
Proof.
  intros Hk. rewrite (nth_indep _ d' (f d)) by (rewrite length_map; exact Hk).
  apply map_nth.
Qed.

Lemma Qlt_bool_iff (a b : Q) : Qlt_bool a b = true <-> a < b.
Proof.
  unfold Qlt_bool. rewrite negb_true_iff. split.
  - intros H. apply Qnot_le_lt. intros L. apply Qle_bool_iff in L. congruence.
  - intros H. destruct (Qle_bool b a) eqn:E; [|reflexivity].
    apply Qle_bool_iff in E. exfalso. exact (Qlt_not_le _ _ H E).
Qed.

Lemma ravel_tabulate {A : Type} (h w : nat) (f : nat -> nat -> A) :
  ravel (tabulate h w f)
  = map (fun p => f (fst p) (snd p)) (list_prod (seq 0 h) (seq 0 w)).
Proof.
  unfold ravel, tabulate. generalize (seq 0 h) as rows.
  induction rows as [|i rows IH]; simpl; [reflexivity|].
  rewrite map_app, map_map, IH. reflexivity.
Qed.

Lemma tabulate_ext {A : Type} (h w : nat) (f g : nat -> nat -> A) :
  (forall i j, (i < h)%nat -> (j < w)%nat -> f i j = g i j) ->
  tabulate h w f = tabulate h w g.
Proof.
  intros H. unfold tabulate. apply map_ext_in. intros i Hi. apply in_seq in Hi.
  apply map_ext_in. intros j Hj. apply in_seq in Hj. apply H; lia.
Qed.

Lemma shape_tabulate {A B : Type} (x : array2 A) (f : nat -> nat -> B) :
  shape (tabulate (fst (shape x)) (snd (shape x)) f) = shape x.
Proof.
  unfold shape, tabulate. simpl fst; simpl snd. rewrite length_map, length_seq.
  destruct x as [|row rows]; simpl; [reflexivity|].
  rewrite length_map, length_seq. reflexivity.
Qed.

Lemma item_tabulate {A : Type} (d : A) (h w : nat) (f : nat -> nat -> A) (i j : nat) :
  (i < h)%nat -> (j < w)%nat -> item d (tabulate h w f) i j = f i j.
Proof.
  intros Hi Hj. unfold item, tabulate.
  rewrite (nth_map_lt 0%nat) by (rewrite length_seq; exact Hi).
  rewrite (nth_map_lt 0%nat) by (rewrite length_seq; exact Hj).
  rewrite !seq_nth by assumption. reflexivity.
Qed.

Lemma rectangular_tabulate {A : Type} (h w : nat) (f : nat -> nat -> A) :
  rectangular h w (tabulate h w f).
Proof.
  split; unfold tabulate.
  - rewrite length_map, length_seq. reflexivity.
  - apply Forall_forall. intros row Hrow. apply in_map_iff in Hrow.
    destruct Hrow as (i & <- & _). rewrite length_map, length_seq. reflexivity.
Qed.

Lemma rectangular_shape {A : Type} (h w : nat) (z : array2 A) :
  rectangular h w z -> (0 < h)%nat -> shape z = (h, w).
Proof.
  intros [Hh Hw] Hpos. unfold shape. rewrite Hh. f_equal.
  destruct z as [|row rows]; simpl in *; [lia|]. inversion Hw; auto.
Qed.

Lemma rectangular_row {A : Type} (h w : nat) (z : array2 A) (i : nat) :
  rectangular h w z -> (i < h)%nat -> length (nth i z []) = w.
Proof.
  intros [Hh Hw] Hi. rewrite Forall_forall in Hw. apply Hw. apply nth_In. lia.
Qed.

Lemma rectangular_map {A B : Type} (f : A -> B) (h w : nat) (z : array2 A) :
  rectangular h w z -> rectangular h w (map (map f) z).
Proof.
  intros [Hh Hw]. split.
  - rewrite length_map. exact Hh.
  - apply Forall_forall. intros row Hrow. apply in_map_iff in Hrow.
    destruct Hrow as (r0 & <- & Hin). rewrite length_map.
    rewrite Forall_forall in Hw. auto.
Qed.

Lemma shape_map {A B : Type} (f : A -> B) (z : array2 A) :
  shape (map (map f) z) = shape z.
Proof.
  unfold shape. rewrite length_map. f_equal. destruct z; simpl; [reflexivity|].
  apply length_map.
Qed.

Lemma item_map {A B : Type} (f : A -> B) (d : A) (d' : B) (h w : nat) (z : array2 A)
      (i j : nat) :
  rectangular h w z -> (i < h)%nat -> (j < w)%nat ->
  item d' (map (map f) z) i j = f (item d z i j).
Proof.
  intros R Hi Hj. unfold item.
  rewrite (nth_map_lt []) by (destruct R; lia).
  apply nth_map_lt. rewrite (rectangular_row h w z i R Hi). exact Hj.
Qed.

Lemma tabulate_item {A : Type} (d : A) (h w : nat) (z : array2 A) :
  rectangular h w z -> tabulate h w (item d z) = z.
Proof.
  intros R. pose proof R as [Hh Hw]. unfold tabulate.
  apply (nth_ext _ _ [] []).
  - rewrite length_map, length_seq. auto.
  - intros i Hi. rewrite length_map, length_seq in Hi.
    rewrite (nth_map_lt 0%nat) by (rewrite length_seq; exact Hi).
    rewrite seq_nth by exact Hi. simpl.
    pose proof (rectangular_row h w z i R Hi) as Hrow.
    apply (nth_ext _ _ d d).
    + rewrite length_map, length_seq. auto.
    + intros j Hj. rewrite length_map, length_seq in Hj.
      rewrite (nth_map_lt 0%nat) by (rewrite length_seq; exact Hj).
      rewrite seq_nth by exact Hj. reflexivity.
Qed.

Lemma length_ravel {A : Type} (h w : nat) (z : array2 A) :
  rectangular h w z -> length (ravel z) = (h * w)%nat.
Proof.
  intros [Hh Hw]. subst h. unfold ravel. induction z as [|row rows IH]; simpl; [reflexivity|].
  inversion Hw; subst. rewrite length_app, IH by assumption. reflexivity.
Qed.

Lemma in_pixels {A : Type} (z : array2 A) (p : nat * nat) :
  In p (pixels z) <-> (fst p < fst (shape z))%nat /\ (snd p < snd (shape z))%nat.
Proof.
  destruct p as [i j]. unfold pixels. rewrite in_prod_iff, !in_seq. simpl. lia.
Qed.

Lemma length_pixels {A : Type} (z : array2 A) :
  length (pixels z) = (fst (shape z) * snd (shape z))%nat.
Proof. unfold pixels. rewrite length_prod, !length_seq. reflexivity. Qed.

Lemma rectangular_pixels {A : Type} (h w : nat) (z : array2 A) :
  rectangular h w z -> pixels z = list_prod (seq 0 h) (seq 0 w).
Proof.
  intros [Hh Hw]. unfold pixels, shape. simpl fst; simpl snd. rewrite Hh.
  destruct z as [|row rows]; simpl in *.
  - subst h. reflexivity.
  - inversion Hw; subst. reflexivity.
Qed.

Lemma rectangular_ravel (h w : nat) (z : frame) :
  rectangular h w z -> ravel z = map (intensity z) (pixels z).
Proof.
  intros R. rewrite (rectangular_pixels h w z R).
  rewrite <- (tabulate_item 0 h w z R) at 1. apply ravel_tabulate.
Qed.

(** ** Geometry *)

Lemma ogrid_axis_length (n : nat) (c : Q) :
  length (ogrid_axis (- c) (NtoQ n - c)) = n.
Proof.
  unfold ogrid_axis. rewrite length_map, length_seq.
  assert (E : (NtoQ n - c - - c) / (1 * 1) == inject_Z (Z.of_nat n)).
  { unfold NtoQ. field. }
  rewrite (Qceiling_comp _ _ E), Qceiling_Z. apply Nat2Z.id.
Qed.

Lemma ogrid_axis_nth (n k : nat) (c d : Q) :
  (k < n)%nat -> nth k (ogrid_axis (- c) (NtoQ n - c)) d = NtoQ k * 1 + - c.
Proof.
  intros Hk. pose proof (ogrid_axis_length n c) as L.
  unfold ogrid_axis in *. rewrite length_map, length_seq in L. cbv zeta in *.
  rewrite L.
  rewrite (nth_map_lt 0%nat) by (rewrite length_seq; exact Hk).
  rewrite seq_nth by exact Hk. reflexivity.
Qed.

(** The mask has [shape[1]] rows of [shape[0]] items. *)
Lemma circular_mask_rectangular (nx ny : nat) (radius : Q) (center : Q * Q) :
  rectangular ny nx (circular_mask (nx, ny) radius center).
Proof.
  destruct center as [a b]. unfold rectangular, circular_mask. simpl fst; simpl snd. split.
  - rewrite length_map. apply ogrid_axis_length.
  - apply Forall_forall. intros row Hrow. apply in_map_iff in Hrow.
    destruct Hrow as (yv & <- & _). rewrite length_map. apply ogrid_axis_length.
Qed.

Lemma circular_mask_shape (nx ny : nat) (radius : Q) (center : Q * Q) :
  (0 < ny)%nat -> shape (circular_mask (nx, ny) radius center) = (ny, nx).
Proof.
  intros Hny. apply rectangular_shape; [apply circular_mask_rectangular|exact Hny].
Qed.

(** The test a mask item records, on the offsets [np.ogrid] produces. *)
Lemma circular_mask_item (shp : nat * nat) (radius : Q) (center : Q * Q) (y x : nat) :
  (y < snd shp)%nat -> (x < fst shp)%nat ->
  item false (circular_mask shp radius center) y x
  = Qle_bool ((NtoQ x * 1 + - fst center) * (NtoQ x * 1 + - fst center)
              + (NtoQ y * 1 + - snd center) * (NtoQ y * 1 + - snd center))
             (radius * radius).
Proof.
  intros Hy Hx. destruct shp as [nx ny], center as [a b]. cbn [fst snd] in *.
  unfold item, circular_mask. cbn [fst snd].
  rewrite (nth_map_lt 0) by (rewrite ogrid_axis_length; exact Hy).
  rewrite (nth_map_lt 0) by (rewrite ogrid_axis_length; exact Hx).
  rewrite !ogrid_axis_nth by assumption. reflexivity.
Qed.

Lemma Qle_bool_ext (a b c d : Q) : a == c -> b == d -> Qle_bool a b = Qle_bool c d.
Proof.
  intros E1 E2. destruct (Qle_bool c d) eqn:E.
  - apply Qle_bool_iff. apply Qle_bool_iff in E. rewrite E1, E2. exact E.
  - apply not_true_iff_false. apply not_true_iff_false in E. intros H. apply E.
    apply Qle_bool_iff. apply Qle_bool_iff in H. rewrite <- E1, <- E2. exact H.
Qed.

(** C3: for every shape, radius and centre (integer or not), the mask is
    true at row [y], column [x] if and only if
    (x - center.x)^2 + (y - center.y)^2 <= radius^2, compared exactly on
    the unrounded centre; [center] is the pair (x, y). *)
Theorem circular_mask_pixel (shp : nat * nat) (radius : Q) (center : Q * Q) (y x : nat) :
  (y < snd shp)%nat -> (x < fst shp)%nat ->
  item false (circular_mask shp radius center) y x = true <->
  (NtoQ x - fst center) ^ 2 + (NtoQ y - snd center) ^ 2 <= radius ^ 2.
Proof.
  intros Hy Hx. destruct shp as [nx ny], center as [a b]. simpl in *.
  unfold item, circular_mask. simpl fst; simpl snd.
  rewrite (nth_map_lt 0) by (rewrite ogrid_axis_length; exact Hy).
  rewrite (nth_map_lt 0) by (rewrite ogrid_axis_length; exact Hx).
  rewrite !ogrid_axis_nth by assumption.
  rewrite Qle_bool_iff.
  assert (E1 : (NtoQ x * 1 + - a) * (NtoQ x * 1 + - a)
               + (NtoQ y * 1 + - b) * (NtoQ y * 1 + - b)
               == (NtoQ x - a) ^ 2 + (NtoQ y - b) ^ 2) by ring.
  assert (E2 : radius * radius == radius ^ 2) by ring.
  rewrite E1, E2. reflexivity.
Qed.

Lemma circular_mask_pixel_witness :
  ((1 < 3)%nat /\ (2 < 4)%nat)
  /\ (item false (circular_mask (4, 3)%nat (3 # 2) (3 # 2, 1 # 2)) 1 2 = true <->
      (NtoQ 2 - (3 # 2)) ^ 2 + (NtoQ 1 - (1 # 2)) ^ 2 <= (3 # 2) ^ 2).
Proof.
  split; [split; lia|].
  apply (circular_mask_pixel (4, 3)%nat (3 # 2) (3 # 2, 1 # 2) 1 2); simpl; lia.
Defined.

(** C4 (defect): the mask of a frame of shape (2, 3) has shape (3, 2), so
    it differs from the frame shape, and the product [z * mask] of
    [refine_beam_position] raises on such a frame. *)
Theorem circular_mask_shape_transposed :
  shape (circular_mask (2, 3)%nat 1 (0, 0)) = (3, 2)%nat
  /\ shape (circular_mask (2, 3)%nat 1 (0, 0)) <> (2, 3)%nat
  /\ forall fuel : nat,
       refine_beam_position fuel [[1; 2; 3]; [4; 5; 6]] (0, 0)%Z 1
       = Raise (ValueError "operands could not be broadcast together").
Proof.
  split; [reflexivity|]. split; [discriminate|]. intros fuel. reflexivity.
Qed.

(** ** CenterFinder *)

(** The loop never assigns [z_tmp]: when the pixel it moves to is dimmer
    than the maximum of [z_tmp], every further round finds the same pixel
    and the loop does not end. *)
Lemma while_loop_stuck (z z_tmp : frame) (radius m ci : Q) (zt : frame) :
  amax z_tmp = Ret m ->
  relocate z z_tmp radius = Ret (ci, zt) ->
  Qlt_bool ci m = true ->
  forall (fuel : nat) (st : locals),
    Qlt_bool (fst st) m = true -> while_loop fuel z z_tmp radius st = Diverge.
Proof.
  intros Hm Hr Hci fuel. induction fuel as [|fuel IH]; intros st Hst.
  - reflexivity.
  - simpl. rewrite Hm. simpl. rewrite Hst, Hr. simpl. apply IH. exact Hci.
Qed.

Lemma refine_beam_position_diverges (z : frame) (start : Z * Z) (radius : Q)
      (c_int m ci : Q) (z_tmp zt : frame) :
  getitem z (fst start) (snd start) = Ret c_int ->
  mul_mask z (circular_mask (shape z) radius (center_of start)) = Ret z_tmp ->
  amax z_tmp = Ret m ->
  relocate z z_tmp radius = Ret (ci, zt) ->
  c_int <= m ->
  ci < m ->
  forall fuel : nat, refine_beam_position fuel z start radius = Diverge.
Proof.
  intros Hc Hz Hm Hr Hle Hlt fuel. apply Qlt_bool_iff in Hlt.
  unfold refine_beam_position. rewrite Hc. simpl. rewrite Hz. simpl. rewrite Hm. simpl.
  destruct (Qeq_bool c_int m) eqn:E.
  - rewrite Hr. simpl.
    rewrite (while_loop_stuck z z_tmp radius _ _ _ Hm Hr Hlt); [reflexivity|exact Hlt].
  - simpl. rewrite (while_loop_stuck z z_tmp radius _ _ _ Hm Hr Hlt); [reflexivity|].
    simpl. apply Qlt_bool_iff. apply Qle_lt_or_eq in Hle. destruct Hle as [L|Q0]; [exact L|].
    apply Qeq_bool_iff in Q0. congruence.
Qed.

(** C1 (defect): on the frame with two equal maxima around a dark pixel,
    started at that pixel with radius 1, the search never stops: no
    amount of fuel lets [refine_beam_position] return. *)
Theorem refine_beam_position_loops_forever :
  forall fuel : nat, refine_beam_position fuel twin_peaks (1, 1)%Z 1 = Diverge.
Proof.
  eapply refine_beam_position_diverges.
  - vm_compute. reflexivity.
  - vm_compute. reflexivity.
  - vm_compute. reflexivity.
  - vm_compute. reflexivity.
  - vm_compute. discriminate.
  - vm_compute. reflexivity.
Qed.

Lemma length_set_nth {A : Type} (l : list A) (k : nat) (v : A) :
  length (set_nth l k v) = length l.
Proof.
  revert k; induction l as [|x t IH]; intros [|k]; simpl; auto.
Qed.

Lemma nth_set_nth_same {A : Type} (l : list A) (k : nat) (v d : A) :
  (k < length l)%nat -> nth k (set_nth l k v) d = v.
Proof.
  revert k; induction l as [|x t IH]; intros [|k] H; simpl in *; try lia; auto.
  apply IH; lia.
Qed.

Lemma nth_set_nth_other {A : Type} (l : list A) (j k : nat) (v d : A) :
  j <> k -> nth k (set_nth l j v) d = nth k l d.
Proof.
  revert j k; induction l as [|x t IH]; intros [|j] [|k] H; simpl; auto; try lia.
Qed.

Lemma get_row_set_row_same (c : ndarray) (i : nat) (v : Z * Z) :
  (2 * i + 1 < length (nd_data c))%nat ->
  get_row (set_row c i v) i = (ZtoQ (fst v), ZtoQ (snd v)).
Proof.
  intros H. unfold get_row, set_row. simpl nd_data. f_equal.
  - rewrite nth_set_nth_other by lia. apply nth_set_nth_same. lia.
  - apply nth_set_nth_same. rewrite length_set_nth. lia.
Qed.

Lemma get_row_set_row_other (c : ndarray) (i j : nat) (v : Z * Z) :
  i <> j -> get_row (set_row c i v) j = get_row c j.
Proof.
  intros H. unfold get_row, set_row. simpl nd_data.
  rewrite !nth_set_nth_other by lia. reflexivity.
Qed.

Lemma store_centers_rows (fuel : nat) (mref : Z * Z) (radius : Q) :
  forall (zs : list frame) (k : nat) (c c' : ndarray),
    store_centers fuel (combine zs (seq k (length zs))) mref radius c = Ret c' ->
    (2 * (k + length zs) <= length (nd_data c))%nat ->
    nd_shape c' = nd_shape c
    /\ length (nd_data c') = length (nd_data c)
    /\ (forall j, (j < k)%nat -> get_row c' j = get_row c j)
    /\ (forall i z, nth_error zs i = Some z ->
          exists v, refine_beam_position fuel z mref radius = Ret v
                    /\ get_row c' (k + i) = stored v).
Proof.
  induction zs as [|z zs IH]; intros k c c' Hrun Hlen.
  - simpl in Hrun. injection Hrun as <-. repeat split; auto.
    intros [|i] z0 H; discriminate.
  - simpl in Hrun, Hlen.
    destruct (refine_beam_position fuel z mref radius) as [v| | |] eqn:Ev;
      simpl in Hrun; try discriminate.
    apply IH in Hrun; [|cbn [nd_data set_row]; rewrite !length_set_nth; lia].
    destruct Hrun as (Hs & Hl & Hold & Hnew).
    simpl in Hs, Hl. rewrite !length_set_nth in Hl.
    repeat split; auto.
    + intros j Hj. rewrite Hold by lia. apply get_row_set_row_other. lia.
    + intros [|i] z0 Hz; simpl in Hz.
      * injection Hz as <-. exists v. split; [exact Ev|].
        rewrite Nat.add_0_r, Hold by lia.
        apply get_row_set_row_same. lia.
      * destruct (Hnew i z0 Hz) as (v0 & Hv0 & Hrow). exists v0. split; [exact Hv0|].
        rewrite <- Hrow. f_equal. lia.
Qed.

(** Each row of the result holds the refined centre of its frame, from the
    shared seed, with both coordinates truncated to integers. *)
Lemma get_direct_beam_position_rows (fuel : nat) (s : ElectronDiffraction)
      (radius : Q) (c : ndarray) :
  get_direct_beam_position fuel s radius = Ret c ->
  nd_shape c = [navigation_size s; 2%nat]
  /\ length (nd_data c) = (navigation_size s * 2)%nat
  /\ exists mref, estimate_global_center s = Ret mref
     /\ forall i z, nth_error (data s) i = Some z ->
          exists v, refine_beam_position fuel z mref radius = Ret v
                    /\ get_row c i = stored v.
Proof.
  unfold get_direct_beam_position. intros H.
  destruct (estimate_global_center s) as [mref| | |]; simpl in H; try discriminate.
  unfold navigation_size in *.
  apply store_centers_rows in H; [|cbn [nd_data]; rewrite repeat_length; unfold frame, array2 in *; lia].
  destruct H as (Hs & Hl & _ & Hrows). simpl in Hs, Hl. rewrite repeat_length in Hl.
  repeat split; auto. exists mref. split; [reflexivity|]. exact Hrows.
Qed.

Lemma list_eqb_true (a b : list nat) : list_eqb a b = true <-> a = b.
Proof.
  unfold list_eqb. destruct (list_eq_dec Nat.eq_dec a b); split; auto; discriminate.
Qed.

Lemma nth_indexed {A B : Type} (d : A) (f : nat * A -> B) (l : list A) (k : nat) (d' : B) :
  (k < length l)%nat ->
  nth k (map f (combine (seq 0 (length l)) l)) d' = f (k, nth k l d).
Proof.
  intros Hk.
  rewrite (nth_map_lt (0%nat, d)) by (rewrite length_combine, length_seq; lia).
  rewrite combine_nth by (apply length_seq). rewrite seq_nth by exact Hk. reflexivity.
Qed.

(** C5 (defect): for the stack of the single frame [flat_top] the seed is
    (0, 0) and [refine_beam_position] returns the sub-pixel centre
    (0, 1/2), but [get_direct_beam_position] returns the integer row
    (0, 0): the fractional part is lost. *)
Theorem get_direct_beam_position_truncates :
  exists (a b : Q),
    refine_beam_position 1 flat_top (0, 0)%Z 1 = Ret (Num a, Num b)
    /\ a == 0 /\ b == 1 # 2
    /\ estimate_global_center one_frame = Ret (0, 0)%Z
    /\ get_direct_beam_position 1 one_frame 1 = Ret (mkArray [1; 2]%nat [0; 0]).
Proof.
  eexists. eexists. split; [vm_compute; reflexivity|].
  repeat split.
Qed.

Lemma subtract_pair_rows (centers : ndarray) (n : nat) (g : Q * Q) :
  nd_shape centers = [n; 2%nat] ->
  length (nd_data centers) = (n * 2)%nat ->
  exists shifts, subtract_pair centers g = Ret shifts
    /\ nd_shape shifts = [n; 2%nat]
    /\ forall i, (i < n)%nat ->
         get_row shifts i = (fst (get_row centers i) - fst g, snd (get_row centers i) - snd g).
Proof.
  intros Hs Hl. unfold subtract_pair. rewrite Hs. simpl last. eexists. split; [reflexivity|].
  split; [reflexivity|]. intros i Hi. unfold get_row. cbn [nd_data fst snd].
  rewrite !(nth_indexed 0) by lia. cbn [fst snd].
  replace (Nat.even (2 * i)) with true.
  2:{ symmetry. apply Nat.even_spec. exists i. lia. }
  replace (Nat.even (2 * i + 1)) with false.
  2:{ symmetry. rewrite <- Nat.negb_odd. apply negb_false_iff. apply Nat.odd_spec. exists i. lia. }
  reflexivity.
Qed.

Lemma array_truth_many (n : nat) (item : bool) :
  (1 < n)%nat -> array_truth n item = Raise ambiguous_truth.
Proof. intros Hn. destruct n as [|[|n]]; [lia|lia|reflexivity]. Qed.

(** A supplied array of more than one item stops the call at line 261:
    its comparison with [None] has no truth value. *)
Lemma get_direct_beam_shifts_supplied (fuel : nat) (s : ElectronDiffraction)
      (c : ndarray) (radius : Q) :
  (1 < nd_size c)%nat ->
  get_direct_beam_shifts fuel s (Some c) radius = Raise ambiguous_truth.
Proof.
  intros Hc. unfold get_direct_beam_shifts, eq_None.
  rewrite array_truth_many by exact Hc. reflexivity.
Qed.

(** An array of one item passes both comparisons and fails the check of
    its shape. *)
Lemma get_direct_beam_shifts_one_item (fuel : nat) (s : ElectronDiffraction)
      (c : ndarray) (radius : Q) :
  nd_size c = 1%nat ->
  get_direct_beam_shifts fuel s (Some c) radius
  = Raise (ValueError "The number of center positions provided must match the navigation_size").
Proof.
  intros Hc. unfold get_direct_beam_shifts, eq_None, ne_None. rewrite Hc. cbn [array_truth bind].
  rewrite Hc. cbn [array_truth bind].
  destruct (list_eqb (nd_shape c) [navigation_size s; 2%nat]) eqn:E; [|reflexivity].
  exfalso. apply list_eqb_true in E. unfold nd_size in Hc. rewrite E in Hc.
  cbn [fold_right] in Hc. lia.
Qed.

(** Without centers the array computed on line 262 meets the comparison of
    line 263, which has no truth value when the stack holds a frame. *)
Lemma get_direct_beam_shifts_computed (fuel : nat) (s : ElectronDiffraction) (radius : Q) :
  data s <> [] ->
  get_direct_beam_shifts fuel s None radius
  = bind (get_direct_beam_position fuel s radius) (fun _ => Raise ambiguous_truth).
Proof.
  intros Hne. unfold get_direct_beam_shifts, eq_None. cbn [bind].
  destruct (get_direct_beam_position fuel s radius) as [c| | |] eqn:Hc; try reflexivity.
  cbn [bind]. apply get_direct_beam_position_rows in Hc. destruct Hc as (Hs & _).
  unfold ne_None, nd_size. rewrite Hs. cbn [fold_right].
  rewrite array_truth_many; [reflexivity|].
  unfold navigation_size. destruct (data s); [contradiction|]. cbn [length]. lia.
Qed.

(** C6 (defect): the comparisons [centers == None] and [centers != None]
    are made item by item on an array, and an array of more than one item
    has no truth value. A supplied array of shape (k + 1, 2), the right
    shape included, raises ValueError on line 261 with the message of the
    ambiguous truth value, not the one of the check of the shape, and no
    shift is returned; without centers the array that
    [get_direct_beam_position] returns raises the same error on line 263
    whenever the stack holds a frame. On the stack of two frames
    [two_frames] both calls raise. *)
Theorem get_direct_beam_shifts_ambiguous (fuel : nat) (z : frame) (rest : list frame)
        (sig : nat * nat) (radius : Q) (k : nat) (items : list Q) :
  get_direct_beam_shifts fuel (mkSignal (z :: rest) sig)
                         (Some (mkArray [S k; 2%nat] items)) radius
  = Raise ambiguous_truth
  /\ get_direct_beam_shifts fuel (mkSignal (z :: rest) sig) None radius
     = bind (get_direct_beam_position fuel (mkSignal (z :: rest) sig) radius)
            (fun _ => Raise ambiguous_truth)
  /\ get_direct_beam_shifts 1 two_frames (Some (mkArray [2; 2]%nat [1; 2; 3; 4])) 1
     = Raise ambiguous_truth
  /\ (exists c, get_direct_beam_position 1 two_frames 1 = Ret c)
  /\ get_direct_beam_shifts 1 two_frames None 1 = Raise ambiguous_truth.
Proof.
  split; [|split; [|split; [|split]]].
  - apply get_direct_beam_shifts_supplied. unfold nd_size. cbn [nd_shape fold_right]. lia.
  - apply get_direct_beam_shifts_computed. discriminate.
  - reflexivity.
  - eexists. vm_compute. reflexivity.
  - vm_compute. reflexivity.
Qed.

(** ** RadialProfiler *)

Lemma length_add_at {A : Type} (add : A -> A -> A) (out : list A) (k : nat) (v : A) :
  length (add_at add out k v) = length out.
Proof. revert k; induction out as [|x t IH]; intros [|k]; simpl; auto. Qed.

Lemma nth_add_at {A : Type} (add : A -> A -> A) (out : list A) (j k : nat) (v d : A) :
  (k < length out)%nat ->
  nth k (add_at add out j v) d = if (j =? k)%nat then add (nth k out d) v else nth k out d.
Proof.
  revert j k; induction out as [|x t IH]; intros [|j] [|k] H; simpl in *; try lia; auto.
  apply IH. lia.
Qed.

Section Accumulate.
Context {X A : Type} (add : A -> A -> A) (key : X -> nat) (val : X -> A).

Let acc (out : list A) (x : X) : list A := add_at add out (key x) (val x).

Lemma length_accumulate (l : list X) (out : list A) :
  length (fold_left acc l out) = length out.
Proof.
  revert out; induction l as [|x l IH]; intros out; simpl; [reflexivity|].
  rewrite IH. apply length_add_at.
Qed.

Lemma nth_accumulate (l : list X) (out : list A) (k : nat) (d : A) :
  (k < length out)%nat ->
  nth k (fold_left acc l out) d
  = fold_left add (map val (filter (fun x => (key x =? k)%nat) l)) (nth k out d).
Proof.
  revert out; induction l as [|x l IH]; intros out Hk; simpl; [reflexivity|].
  rewrite IH by (unfold acc; rewrite length_add_at; exact Hk).
  unfold acc at 1. rewrite nth_add_at by exact Hk.
  destruct (key x =? k)%nat; reflexivity.
Qed.
End Accumulate.

Lemma fold_add_ones {X : Type} (l : list X) (a : nat) :
  fold_left Nat.add (map (fun _ => 1%nat) l) a = (a + length l)%nat.
Proof. revert a; induction l as [|x l IH]; intros a; simpl; [lia|]. rewrite IH. lia. Qed.

Lemma combine_map {X A B : Type} (f : X -> A) (g : X -> B) (l : list X) :
  combine (map f l) (map g l) = map (fun x => (f x, g x)) l.
Proof. induction l as [|x l IH]; simpl; [reflexivity|]. rewrite IH. reflexivity. Qed.

Lemma filter_map {X Y : Type} (f : X -> Y) (p : Y -> bool) (l : list X) :
  filter p (map f l) = map f (filter (fun x => p (f x)) l).
Proof.
  induction l as [|x l IH]; simpl; [reflexivity|].
  destruct (p (f x)); simpl; rewrite IH; reflexivity.
Qed.

Lemma nth_repeat_any {A : Type} (a : A) (n k : nat) : nth k (repeat a n) a = a.
Proof. revert k; induction n as [|n IH]; intros [|k]; simpl; auto. Qed.

Lemma bincount_weights_bin {X : Type} (f : X -> nat) (g : X -> Q) (l : list X) (k : nat) :
  (k <= list_max (map f l))%nat -> l <> [] ->
  nth k (bincount_weights (map f l) (map g l)) 0
  = Qsum (map g (filter (fun x => (f x =? k)%nat) l)).
Proof.
  intros Hk Hl. unfold bincount_weights.
  destruct (map f l) as [|x0 xs] eqn:E.
  { destruct l; [contradiction|discriminate]. }
  rewrite <- E in Hk |- *. rewrite combine_map.
  rewrite (nth_accumulate Qplus fst snd) by (rewrite repeat_length; lia).
  rewrite nth_repeat_any, (filter_map (fun x => (f x, g x))), map_map. reflexivity.
Qed.

Lemma bincount_bin (x : list nat) (k : nat) :
  (k <= list_max x)%nat -> x <> [] ->
  nth k (bincount x) 0%nat = length (filter (fun v => (v =? k)%nat) x).
Proof.
  intros Hk Hx. unfold bincount. destruct x as [|x0 xs] eqn:E; [contradiction|].
  rewrite <- E in Hk |- *.
  rewrite (nth_accumulate Nat.add (fun v => v) (fun _ => 1%nat)) by (rewrite repeat_length; lia).
  rewrite nth_repeat_any, fold_add_ones. reflexivity.
Qed.

Lemma length_bincount_weights (x : list nat) (w : list Q) :
  length (bincount_weights x w) = match x with [] => 0%nat | _ => S (list_max x) end.
Proof.
  unfold bincount_weights. destruct x as [|x0 xs] eqn:E; [reflexivity|]. rewrite <- E.
  rewrite (length_accumulate Qplus fst snd). apply repeat_length.
Qed.

Lemma length_bincount (x : list nat) :
  length (bincount x) = match x with [] => 0%nat | _ => S (list_max x) end.
Proof.
  unfold bincount. destruct x as [|x0 xs] eqn:E; [reflexivity|]. rewrite <- E.
  rewrite (length_accumulate Nat.add (fun v => v) (fun _ => 1%nat)). apply repeat_length.
Qed.

Lemma np_divide_count (t : Q) (n : nat) :
  (0 < n)%nat -> np_divide t (NtoQ n) = Num (t / NtoQ n).
Proof.
  intros Hn. unfold np_divide.
  destruct (Qeq_bool (NtoQ n) 0) eqn:E; [|reflexivity].
  apply Qeq_bool_iff in E. unfold NtoQ, Qeq in E. simpl in E. lia.
Qed.

(** [sqrt_int v] is the square root of [v] truncated to an integer: the
    one [r] with r^2 <= v < (r + 1)^2. *)
Lemma sqrt_int_spec (v : Q) :
  0 <= v ->
  NtoQ (sqrt_int v) ^ 2 <= v /\ v < (NtoQ (sqrt_int v) + 1) ^ 2.
Proof.
  intros Hv. unfold sqrt_int, NtoQ.
  assert (Hf : (0 <= Qfloor v)%Z).
  { change 0%Z with (Qfloor 0). apply Qfloor_resp_le. exact Hv. }
  pose proof (Z.sqrt_spec (Qfloor v) Hf) as [Hlo Hhi].
  pose proof (Z.sqrt_nonneg (Qfloor v)) as Hs.
  rewrite Z2Nat.id by exact Hs.
  set (s := Z.sqrt (Qfloor v)) in *.
  pose proof (Qfloor_le v) as Hle. pose proof (Qlt_floor v) as Hlt.
  split.
  - apply Qle_trans with (inject_Z (Qfloor v)); [|exact Hle].
    assert (E : inject_Z s ^ 2 == inject_Z (s * s)).
    { rewrite inject_Z_mult. simpl. ring. }
    rewrite E. rewrite <- Zle_Qle. exact Hlo.
  - apply Qlt_le_trans with (inject_Z (Qfloor v + 1)); [exact Hlt|].
    assert (E : (inject_Z s + 1) ^ 2 == inject_Z (Z.succ s * Z.succ s)).
    { rewrite inject_Z_mult. unfold Z.succ. rewrite inject_Z_plus. simpl. ring. }
    rewrite E. rewrite <- Zle_Qle. lia.
Qed.

Lemma sqrt_int_unique (v : Q) (r : nat) :
  0 <= v -> NtoQ r ^ 2 <= v -> v < (NtoQ r + 1) ^ 2 -> sqrt_int v = r.
Proof.
  intros Hv Hlo Hhi. destruct (sqrt_int_spec v Hv) as [Slo Shi].
  set (s := sqrt_int v) in *.
  assert (Hmono : forall a b : nat, NtoQ a ^ 2 < (NtoQ b + 1) ^ 2 -> (a <= b)%nat).
  { intros a b H. destruct (Nat.le_gt_cases a b) as [L|G]; [exact L|exfalso].
    assert (Hab : NtoQ b + 1 <= NtoQ a).
    { unfold NtoQ. change 1 with (inject_Z 1). rewrite <- inject_Z_plus, <- Zle_Qle. lia. }
    assert (H0 : 0 <= NtoQ b + 1).
    { unfold NtoQ. change 1 with (inject_Z 1). rewrite <- inject_Z_plus.
      change 0 with (inject_Z 0). rewrite <- Zle_Qle. lia. }
    assert ((NtoQ b + 1) ^ 2 <= NtoQ a ^ 2) by (simpl; nra).
    lra. }
  apply Nat.le_antisymm; apply Hmono; lra.
Qed.

Lemma distance_bin_spec (center : Q * Q) (p : nat * nat) (r : nat) :
  distance_bin center p = r <->
  NtoQ r ^ 2 <= (NtoQ (snd p) - snd center) ^ 2 + (NtoQ (fst p) - fst center) ^ 2
  /\ (NtoQ (snd p) - snd center) ^ 2 + (NtoQ (fst p) - fst center) ^ 2 < (NtoQ r + 1) ^ 2.
Proof.
  unfold distance_bin.
  set (d2 := (NtoQ (snd p) - snd center) ^ 2 + (NtoQ (fst p) - fst center) ^ 2).
  assert (H0 : 0 <= d2).
  { unfold d2. generalize (NtoQ (snd p) - snd center) (NtoQ (fst p) - fst center).
    intros a b. assert (E : a ^ 2 + b ^ 2 == a * a + b * b) by ring.
    rewrite E. nra. }
  split.
  - intros <-. apply sqrt_int_spec. exact H0.
  - intros [Hlo Hhi]. apply sqrt_int_unique; assumption.
Qed.

(** The bins of a frame with pixels, by the bin [sqrt_int] computes. *)
Lemma radial_average_bins (h w : nat) (z : frame) (center : Q * Q) :
  rectangular h w z -> pixels z <> [] ->
  length (radial_average z center)
  = S (list_max (map (distance_bin center) (pixels z)))
  /\ forall r, (r < length (radial_average z center))%nat ->
       nth r (radial_average z center) Nan
       = match bin_members z center r with
         | [] => Nan
         | members => Num (Qsum (map (intensity z) members) / NtoQ (length members))
         end.
Proof.
  intros R Hne. unfold radial_average.
  destruct (shape z) as [h' w'] eqn:Es.
  assert (Er : ravel (tabulate h' w' (fun y x =>
                 sqrt_int ((NtoQ x - snd center) ^ 2 + (NtoQ y - fst center) ^ 2)))
               = map (distance_bin center) (pixels z)).
  { rewrite ravel_tabulate. unfold pixels. rewrite Es. reflexivity. }
  rewrite Er, (rectangular_ravel h w z R).
  set (px := pixels z) in *. set (bins := map (distance_bin center) px).
  assert (Hb : bins <> []).
  { unfold bins. destruct px; [contradiction|discriminate]. }
  assert (Hlen : length (combine (bincount_weights bins (map (intensity z) px))
                                 (bincount bins)) = S (list_max bins)).
  { rewrite length_combine, length_bincount_weights, length_bincount.
    destruct bins; [contradiction|]. apply Nat.min_id. }
  rewrite length_map, Hlen. split; [reflexivity|]. intros r Hr.
  rewrite (nth_map_lt (0, 0%nat)) by (rewrite Hlen; exact Hr).
  rewrite combine_nth by (rewrite length_bincount_weights, length_bincount; reflexivity).
  cbn [fst snd]. unfold bins.
  assert (Hpx : px <> []) by exact Hne.
  assert (Hr' : (r <= list_max (map (distance_bin center) px))%nat) by (fold bins; lia).
  rewrite (bincount_weights_bin (distance_bin center) (intensity z) px r Hr' Hpx).
  rewrite (bincount_bin (map (distance_bin center) px) r Hr' Hb).
  rewrite filter_map, length_map. unfold bin_members. fold px.
  destruct (filter (fun p => (distance_bin center p =? r)%nat) px) as [|m ms]; [reflexivity|].
  rewrite np_divide_count by (simpl; lia). reflexivity.
Qed.

Lemma radial_average_no_pixels (z : frame) (center : Q * Q) :
  pixels z = [] -> radial_average z center = [].
Proof.
  intros E. unfold radial_average.
  destruct (shape z) as [h w] eqn:Es. rewrite ravel_tabulate.
  unfold pixels in E. rewrite Es in E. cbn [fst snd] in E. rewrite E. reflexivity.
Qed.

Lemma list_max_in (l : list nat) : l <> [] -> In (list_max l) l.
Proof.
  induction l as [|x l IH]; [contradiction|]. intros _.
  destruct l as [|y l'].
  - left. simpl. lia.
  - change (list_max (x :: y :: l')) with (Nat.max x (list_max (y :: l'))).
    destruct (Nat.max_spec x (list_max (y :: l'))) as [[_ E]|[_ E]]; rewrite E.
    + right. apply IH. discriminate.
    + left. reflexivity.
Qed.




(** ** VacuumMaskBuilder *)

Lemma invert_rectangular (h w : nat) (m : bmask) :
  rectangular h w m -> rectangular h w (invert m).
Proof.
  intros [Hh Hw]. split; unfold invert.
  - rewrite length_map. exact Hh.
  - apply Forall_forall. intros row Hrow. apply in_map_iff in Hrow.
    destruct Hrow as (r0 & <- & Hin). rewrite length_map.
    rewrite Forall_forall in Hw. auto.
Qed.


Lemma broadcast_dim_same (n : nat) : broadcast_dim n n = Some n.
Proof. unfold broadcast_dim. rewrite Nat.eqb_refl. reflexivity. Qed.

Lemma broadcast_idx_same (n i : nat) : (i < n)%nat -> broadcast_idx n i = i.
Proof.
  intros Hi. unfold broadcast_idx. destruct (n =? 1)%nat eqn:E; [|reflexivity].
  apply Nat.eqb_eq in E. lia.
Qed.

Lemma qmax_le (a b t : Q) : qmax a b <= t <-> a <= t /\ b <= t.
Proof.
  unfold qmax. destruct (Qle_bool a b) eqn:E.
  - apply Qle_bool_iff in E. split; [intros H; split; [eapply Qle_trans; eauto|exact H]|tauto].
  - assert (L : b <= a).
    { apply Qlt_le_weak. apply Qnot_le_lt. intros L. apply Qle_bool_iff in L. congruence. }
    split; [intros H; split; [exact H|eapply Qle_trans; eauto]|tauto].
Qed.

Lemma fold_qmax_le (l : list Q) (a t : Q) :
  fold_left qmax l a <= t <-> a <= t /\ forall v, In v l -> v <= t.
Proof.
  revert a; induction l as [|x l IH]; intros a; simpl.
  - split; [intros H; split; [exact H|intros v []]|tauto].
  - rewrite IH, qmax_le. split.
    + intros [[Ha Hx] Hl]. split; [exact Ha|]. intros v [<-|Hv]; auto.
    + intros [Ha Hl]. repeat split; auto.
Qed.

Lemma max_of_le (l : list Q) (m t : Q) :
  max_of l = Ret m -> (m <= t <-> forall v, In v l -> v <= t).
Proof.
  destruct l as [|a l]; simpl; [discriminate|]. intros H. injection H as <-.
  rewrite fold_qmax_le. split.
  - intros [Ha Hl] v [<-|Hv]; auto.
  - intros H. split; [apply H; left; reflexivity|]. intros v Hv. apply H. right. exact Hv.
Qed.

Lemma mul_mask_same_shape (h w : nat) (z : frame) (keep : bmask) :
  shape z = (h, w) -> shape keep = (h, w) ->
  mul_mask z keep = Ret (masked h w z keep).
Proof.
  intros Hz Hk. unfold mul_mask. rewrite Hz, Hk, !broadcast_dim_same.
  f_equal. unfold masked. apply tabulate_ext. intros i j Hi Hj.
  rewrite !broadcast_idx_same by assumption. reflexivity.
Qed.

Lemma amax_tabulate (h w : nat) (f : nat -> nat -> Q) :
  (0 < h)%nat -> (0 < w)%nat ->
  exists m, amax (tabulate h w f) = Ret m
            /\ forall t, m <= t <-> forall y x, (y < h)%nat -> (x < w)%nat -> f y x <= t.
Proof.
  intros Hh Hw. unfold amax. rewrite ravel_tabulate.
  destruct (max_of (map (fun p => f (fst p) (snd p)) (list_prod (seq 0 h) (seq 0 w))))
    as [m| | |] eqn:E.
  - exists m. split; [reflexivity|]. intros t. rewrite (max_of_le _ m t E). split.
    + intros H y x Hy Hx. apply H. apply in_map_iff. exists (y, x). split; [reflexivity|].
      apply in_prod; apply in_seq; lia.
    + intros H v Hv. apply in_map_iff in Hv. destruct Hv as ([y x] & <- & Hin).
      apply in_prod_iff in Hin. destruct Hin as [Hy Hx]. apply in_seq in Hy, Hx.
      apply H; simpl; lia.
  - exfalso. destruct h, w; try lia. simpl in E. discriminate.
  - exfalso. unfold max_of in E. destruct (map _ _); discriminate.
  - exfalso. unfold max_of in E. destruct (map _ _); discriminate.
Qed.

Lemma for_each_map {A B : Type} (f : A -> outcome B) (g : A -> B) (l : list A) :
  (forall x, In x l -> f x = Ret (g x)) -> for_each f l = Ret (map g l).
Proof.
  induction l as [|x l IH]; intros H; simpl; [reflexivity|].
  rewrite (H x) by (left; reflexivity). simpl.
  rewrite IH by (intros y Hy; apply H; right; exact Hy). reflexivity.
Qed.




(** ** BackgroundSubtractor *)

Lemma qmax_cases (a b : Q) : (qmax a b = a /\ b <= a) \/ (qmax a b = b /\ a <= b).
Proof.
  unfold qmax. destruct (Qle_bool a b) eqn:E.
  - right. split; [reflexivity|]. apply Qle_bool_iff. exact E.
  - left. split; [reflexivity|]. apply Qlt_le_weak, Qnot_le_lt.
    intros L. apply Qle_bool_iff in L. congruence.
Qed.

Lemma qmin_cases (a b : Q) : (qmin a b = a /\ a <= b) \/ (qmin a b = b /\ b <= a).
Proof.
  unfold qmin. destruct (Qle_bool a b) eqn:E.
  - left. split; [reflexivity|]. apply Qle_bool_iff. exact E.
  - right. split; [reflexivity|]. apply Qlt_le_weak, Qnot_le_lt.
    intros L. apply Qle_bool_iff in L. congruence.
Qed.

Lemma fold_qmax_cases (l : list Q) (a : Q) :
  a <= fold_left qmax l a
  /\ (fold_left qmax l a = a \/ In (fold_left qmax l a) l).
Proof.
  revert a; induction l as [|x l IH]; intros a; simpl.
  - split; [apply Qle_refl|left; reflexivity].
  - destruct (IH (qmax a x)) as [Hle Hin].
    destruct (qmax_cases a x) as [[E L]|[E L]]; rewrite E in *.
    + split; [exact Hle|]. destruct Hin as [->|Hin]; auto.
    + split; [eapply Qle_trans; eauto|]. destruct Hin as [->|Hin]; auto.
Qed.

Lemma in_window (z : frame) (selem : array2 bool) (i j : nat) (v : Q) :
  In v (window z selem i j) -> exists p, In p (pixels z) /\ v = intensity z p.
Proof.
  unfold window. destruct (shape z) as [h w] eqn:Es.
  destruct (shape selem) as [sh sw].
  intros H. apply in_flat_map in H. destruct H as (a & _ & H).
  apply in_flat_map in H. destruct H as (b & _ & H).
  match type of H with In _ (if ?c then _ else _) => destruct c eqn:Ec end; [|destruct H].
  destruct H as [<-|[]].
  apply andb_prop in Ec. destruct Ec as [Ec Hj]. apply andb_prop in Ec. destruct Ec as [_ Hi].
  apply andb_prop in Hi, Hj. destruct Hi as [Hi0 Hi1], Hj as [Hj0 Hj1].
  apply Z.leb_le in Hi0, Hj0. apply Z.ltb_lt in Hi1, Hj1.
  eexists (_, _). split; cycle 1.
  { unfold intensity. cbn [fst snd]. reflexivity. }
  apply in_pixels. rewrite Es. cbn [fst snd]. lia.
Qed.

Lemma rank_le (vs : list Q) (a b : Q) : a <= b -> (rank vs a <= rank vs b)%nat.
Proof.
  intros L. unfold rank. induction vs as [|u l IH]; simpl; [lia|].
  destruct (Qlt_bool u a) eqn:Ea.
  - apply Qlt_bool_iff in Ea.
    replace (Qlt_bool u b) with true
      by (symmetry; apply Qlt_bool_iff; eapply Qlt_le_trans; eauto).
    simpl. lia.
  - destruct (Qlt_bool u b); simpl; lia.
Qed.

Lemma rank_lt (vs : list Q) (a b : Q) : In a vs -> a < b -> (rank vs a < rank vs b)%nat.
Proof.
  intros Hin L. induction vs as [|u l IH]; [destruct Hin|].
  pose proof (rank_le l a b (Qlt_le_weak _ _ L)) as Hmono.
  unfold rank in *. simpl.
  destruct Hin as [->|Hin].
  - replace (Qlt_bool a a) with false
      by (symmetry; apply not_true_is_false; rewrite Qlt_bool_iff; apply Qlt_irrefl).
    replace (Qlt_bool a b) with true by (symmetry; apply Qlt_bool_iff; exact L).
    simpl. lia.
  - specialize (IH Hin). destruct (Qlt_bool u a) eqn:Ea.
    + apply Qlt_bool_iff in Ea.
      replace (Qlt_bool u b) with true
        by (symmetry; apply Qlt_bool_iff; eapply Qlt_trans; eauto).
      simpl. lia.
    + destruct (Qlt_bool u b); simpl; lia.
Qed.

Lemma potential_bound (vs : list Q) (ps : list (nat * nat)) (x : frame) :
  (potential vs ps x <= length ps * length vs)%nat.
Proof.
  unfold potential. induction ps as [|p l IH]; simpl; [lia|].
  assert (rank vs (intensity x p) <= length vs)%nat by apply filter_length_le. lia.
Qed.

Lemma potential_le (vs : list Q) (ps : list (nat * nat)) (x y : frame) :
  (forall p, In p ps -> intensity x p <= intensity y p) ->
  (potential vs ps x <= potential vs ps y)%nat.
Proof.
  unfold potential. induction ps as [|p l IH]; intros H; simpl; [lia|].
  pose proof (rank_le vs _ _ (H p (or_introl eq_refl))).
  specialize (IH (fun q Hq => H q (or_intror Hq))). lia.
Qed.

Lemma potential_lt (vs : list Q) (ps : list (nat * nat)) (x y : frame) (p0 : nat * nat) :
  (forall p, In p ps -> intensity x p <= intensity y p) ->
  In p0 ps -> In (intensity x p0) vs -> intensity x p0 < intensity y p0 ->
  (potential vs ps x < potential vs ps y)%nat.
Proof.
  intros H Hp0 HV Hlt. induction ps as [|p l IH]; [destruct Hp0|].
  pose proof (potential_le vs l x y (fun q Hq => H q (or_intror Hq))) as Hrest.
  unfold potential in *. simpl.
  destruct Hp0 as [->|Hp0].
  - pose proof (rank_lt vs _ _ HV Hlt). lia.
  - pose proof (rank_le vs _ _ (H p (or_introl eq_refl))).
    specialize (IH (fun q Hq => H q (or_intror Hq)) Hp0). lia.
Qed.

Section Reconstruction.
Variables seed mask : frame.

Let P : list (nat * nat) := pixels seed.
Let V : list Q := map (intensity seed) P ++ map (intensity mask) P.
Let step : frame -> frame := reconstruction_step mask.

Let inv : frame -> Prop := reconstruction_inv seed mask.

Lemma shape_step (x : frame) : shape (step x) = shape x.
Proof.
  unfold step, reconstruction_step, clip.
  assert (E : shape (dilation x (square 3)) = shape x).
  { unfold dilation. destruct (shape x) as [h w] eqn:Es.
    rewrite <- Es. replace h with (fst (shape x)) by (rewrite Es; reflexivity).
    replace w with (snd (shape x)) by (rewrite Es; reflexivity). apply shape_tabulate. }
  destruct (shape (dilation x (square 3))) as [h w] eqn:Es.
  rewrite <- E, <- Es.
  replace h with (fst (shape (dilation x (square 3)))) by (rewrite Es; reflexivity).
  replace w with (snd (shape (dilation x (square 3)))) by (rewrite Es; reflexivity).
  apply shape_tabulate.
Qed.

Lemma item_step (x : frame) (p : nat * nat) :
  In p (pixels x) ->
  intensity (step x) p
  = qmin (fold_left qmax (window x (square 3) (fst p) (snd p)) (intensity x p))
         (intensity mask p).
Proof.
  intros Hp. apply in_pixels in Hp. destruct Hp as [Hi Hj].
  unfold intensity, step, reconstruction_step, clip, dilation.
  destruct (shape x) as [h w] eqn:Es. simpl in Hi, Hj.
  assert (E : shape (tabulate h w (fun i j =>
                fold_left qmax (window x (square 3) i j) (item 0 x i j))) = (h, w)).
  { rewrite <- Es. replace h with (fst (shape x)) by (rewrite Es; reflexivity).
    replace w with (snd (shape x)) by (rewrite Es; reflexivity). apply shape_tabulate. }
  rewrite E. rewrite item_tabulate by assumption. rewrite item_tabulate by assumption.
  reflexivity.
Qed.

Lemma inv_step (x : frame) :
  inv x -> inv (step x) /\ forall p, In p P -> intensity x p <= intensity (step x) p.
Proof.
  intros [Hs Hv].
  assert (Hpx : pixels x = P) by (unfold P, pixels; rewrite Hs; reflexivity).
  assert (Hstep : forall p, In p P ->
            In (intensity (step x) p) V
            /\ intensity (step x) p <= intensity mask p
            /\ intensity x p <= intensity (step x) p).
  { intros p Hp. rewrite item_step by (rewrite Hpx; exact Hp).
    destruct (Hv p Hp) as [HinV Hle].
    destruct (fold_qmax_cases (window x (square 3) (fst p) (snd p)) (intensity x p))
      as [Hge Hcase].
    set (wmax := fold_left qmax (window x (square 3) (fst p) (snd p)) (intensity x p)) in *.
    assert (HwV : In wmax V).
    { destruct Hcase as [->|Hin]; [exact HinV|].
      apply in_window in Hin. destruct Hin as (q & Hq & ->).
      rewrite Hpx in Hq. apply (Hv q Hq). }
    destruct (qmin_cases wmax (intensity mask p)) as [[-> L]|[-> L]].
    - repeat split; auto.
    - repeat split; auto.
      + unfold V. apply in_or_app. right. apply in_map. exact Hp.
      + apply Qle_refl. }
  split.
  - split; [rewrite shape_step; exact Hs|]. intros p Hp. split; apply Hstep; exact Hp.
  - intros p Hp. apply Hstep. exact Hp.
Qed.

Lemma potential_step (x : frame) :
  inv x -> frame_eqb (step x) x = false ->
  (potential V P x < potential V P (step x))%nat.
Proof.
  intros Hinv Hne. destruct (inv_step x Hinv) as [_ Hmono]. destruct Hinv as [Hs Hv].
  unfold frame_eqb in Hne. rewrite shape_step in Hne.
  unfold shape_eqb in Hne. rewrite !Nat.eqb_refl in Hne. simpl in Hne.
  assert (Hex : exists p, In p P /\ intensity x p < intensity (step x) p).
  { unfold all_pixels in Hne. rewrite shape_step in Hne.
    destruct (shape x) as [h w] eqn:Es.
    apply not_true_iff_false in Hne. rewrite forallb_forall in Hne.
    destruct (existsb (fun p => negb (Qeq_bool (intensity (step x) p) (intensity x p))) P)
      eqn:Eex.
    - apply existsb_exists in Eex. destruct Eex as (p & Hp & Hq).
      exists p. split; [exact Hp|].
      specialize (Hmono p Hp). apply Qle_lt_or_eq in Hmono. destruct Hmono as [L|Q0]; [exact L|].
      apply negb_true_iff in Hq. apply not_true_iff_false in Hq.
      exfalso. apply Hq. apply Qeq_bool_iff. symmetry. exact Q0.
    - exfalso. apply Hne. intros i Hi. apply forallb_forall. intros j Hj.
      apply in_seq in Hi, Hj.
      assert (Hp : In (i, j) P).
      { unfold P. apply in_pixels. rewrite <- Hs. simpl. lia. }
      destruct (Qeq_bool (item 0 (step x) i j) (item 0 x i j)) eqn:Eq; [reflexivity|].
      exfalso. apply not_true_iff_false in Eex. apply Eex.
      apply existsb_exists. exists (i, j). split; [exact Hp|].
      unfold intensity. simpl. rewrite Eq. reflexivity. }
  destruct Hex as (p0 & Hp0 & Hlt).
  apply (potential_lt V P x (step x) p0); auto. apply Hv. exact Hp0.
Qed.

Lemma iterate_fix_fixed (n : nat) :
  forall x, inv x -> (length P * length V < potential V P x + n)%nat ->
    frame_eqb (step (iterate_fix n step x)) (iterate_fix n step x) = true
    /\ inv (iterate_fix n step x)
    /\ exists k, iterate_fix n step x = Nat.iter k step x.
Proof.
  induction n as [|n IH]; intros x Hinv Hn.
  - pose proof (potential_bound V P x). lia.
  - simpl. destruct (frame_eqb (step x) x) eqn:E.
    + split; [exact E|]. split; [exact Hinv|]. exists 0%nat. reflexivity.
    + pose proof (potential_step x Hinv E) as Hp.
      destruct (IH (step x) (proj1 (inv_step x Hinv)) ltac:(lia)) as (Hf & Hi & k & Hk).
      split; [exact Hf|]. split; [exact Hi|]. exists (S k).
      rewrite Hk. symmetry. apply Nat.iter_succ_r.
Qed.

(** A seed of the mask's shape that nowhere exceeds the mask is
    reconstructed: the call returns, its result is reached by finitely
    many rounds, and a further round leaves it unchanged. *)
Lemma reconstruction_fixed_point :
  shape seed = shape mask ->
  (forall p, In p (pixels seed) -> intensity seed p <= intensity mask p) ->
  exists r,
    reconstruction seed mask = Ret r
    /\ shape r = shape seed
    /\ (exists k, r = Nat.iter k (reconstruction_step mask) seed)
    /\ frame_eqb (reconstruction_step mask r) r = true.
Proof.
  intros Hs Hle. unfold reconstruction.
  replace (shape_eqb (shape seed) (shape mask)) with true.
  2:{ rewrite Hs. unfold shape_eqb. rewrite !Nat.eqb_refl. reflexivity. }
  replace (all_pixels seed (fun i j => Qle_bool (item 0 seed i j) (item 0 mask i j))) with true.
  2:{ symmetry. unfold all_pixels. destruct (shape seed) as [h w] eqn:Es.
      apply forallb_forall. intros i Hi. apply forallb_forall. intros j Hj.
      apply in_seq in Hi, Hj. apply Qle_bool_iff. apply (Hle (i, j)).
      apply in_pixels. rewrite Es. simpl. lia. }
  simpl negb. cbv iota.
  assert (Hinv : inv seed).
  { split; [reflexivity|]. intros p Hp. split; [|apply Hle; exact Hp].
    unfold V. apply in_or_app. left. apply in_map. exact Hp. }
  set (n := (fst (shape seed) * snd (shape seed))%nat).
  destruct (iterate_fix_fixed (S (n * (n + n))) seed Hinv) as (Hf & [Hsh _] & Hk).
  { unfold V. rewrite length_app, !length_map. unfold P. rewrite length_pixels. fold n. lia. }
  eexists. split; [reflexivity|]. split; [exact Hsh|]. split; [exact Hk|exact Hf].
Qed.
End Reconstruction.


Lemma map_frames_total (f : frame -> outcome frame) (g : frame -> frame) (l : list frame) :
  (forall z, In z l -> f z = Ret (g z)) -> map_frames f l = (Ret tt, map g l).
Proof.
  induction l as [|z l IH]; intros H; simpl; [reflexivity|].
  rewrite (H z) by (left; reflexivity).
  rewrite IH by (intros y Hy; apply H; right; exact Hy). reflexivity.
Qed.

Lemma max_of_returns (l : list Q) : l <> [] -> exists m, max_of l = Ret m.
Proof. destruct l; [contradiction|]. intros _. eexists. reflexivity. Qed.

Lemma max_of_nonempty (l : list Q) (m : Q) : max_of l = Ret m -> l <> [].
Proof. destruct l; [discriminate|]. intros _. discriminate. Qed.

Lemma flat_map_ravel_nonempty (H W : nat) (d : list frame) :
  Forall (rectangular H W) d -> flat_map ravel d <> [] ->
  d <> [] /\ (0 < H)%nat /\ (0 < W)%nat.
Proof.
  intros Hwf Hne. induction Hwf as [|z d Hz Hd IH]; [contradiction|].
  split; [discriminate|]. simpl in Hne.
  destruct (ravel z) as [|v vs] eqn:E.
  - simpl in Hne. apply IH in Hne. tauto.
  - pose proof (length_ravel H W z Hz) as L. rewrite E in L. simpl in L.
    destruct H, W; lia.
Qed.

Lemma in_around (i n k : nat) :
  In k (around i n) <-> (k < n)%nat /\ (k <= S i)%nat /\ (i <= S k)%nat.
Proof.
  unfold around. rewrite filter_In, Nat.ltb_lt.
  destruct i as [|i']; cbn [In]; lia.
Qed.

Lemma in_neighbourhood (h w i j a b : nat) :
  In (a, b) (neighbourhood h w i j)
  <-> (a < h)%nat /\ (b < w)%nat
      /\ (a <= S i)%nat /\ (i <= S a)%nat /\ (b <= S j)%nat /\ (j <= S b)%nat.
Proof.
  unfold neighbourhood. rewrite in_prod_iff, !in_around. tauto.
Qed.

Lemma offsets_around (i n : nat) : offsets i n = around i n.
Proof.
  unfold offsets, around. cbn [seq flat_map]. cbv zeta.
  change (Z.of_nat (3 / 2)) with 1%Z.
  assert (B : forall a, ((0 <=? Z.of_nat a) && (Z.of_nat a <? Z.of_nat n))%Z = (a <? n)%nat).
  { intros a. replace (0 <=? Z.of_nat a)%Z with true by (symmetry; apply Z.leb_le; lia).
    cbn [andb]. destruct (a <? n)%nat eqn:E;
      [apply Z.ltb_lt; apply Nat.ltb_lt in E; lia
      |apply Z.ltb_ge; apply Nat.ltb_ge in E; lia]. }
  destruct i as [|k].
  - replace (0 <=? Z.of_nat 0 + Z.of_nat 0 - 1)%Z with false by reflexivity.
    replace (Z.of_nat 0 + Z.of_nat 1 - 1)%Z with (Z.of_nat 0) by lia.
    replace (Z.of_nat 0 + Z.of_nat 2 - 1)%Z with (Z.of_nat 1) by lia.
    rewrite !Nat2Z.id, !B. cbn [andb filter app].
    destruct (0 <? n)%nat, (1 <? n)%nat; reflexivity.
  - replace (Z.of_nat (S k) + Z.of_nat 0 - 1)%Z with (Z.of_nat k) by lia.
    replace (Z.of_nat (S k) + Z.of_nat 1 - 1)%Z with (Z.of_nat (S k)) by lia.
    replace (Z.of_nat (S k) + Z.of_nat 2 - 1)%Z with (Z.of_nat (S (S k))) by lia.
    rewrite !Nat2Z.id, !B. cbn [filter app].
    destruct (k <? n)%nat, (S k <? n)%nat, (S (S k) <? n)%nat; reflexivity.
Qed.

Lemma flat_map_guard {A B : Type} (pb : A -> bool) (g : A -> B) (l : list A) :
  flat_map (fun b => if pb b then [g b] else []) l = map g (filter pb l).
Proof.
  induction l as [|b l IH]; [reflexivity|]. cbn [flat_map filter].
  destruct (pb b); cbn [app map]; rewrite IH; reflexivity.
Qed.

Lemma flat_map_product {A B C : Type} (pa : A -> bool) (pb : B -> bool)
      (f : A -> B -> C) (la : list A) (lb : list B) :
  flat_map (fun a => flat_map (fun b => if pa a && pb b then [f a b] else []) lb) la
  = map (fun p => f (fst p) (snd p)) (list_prod (filter pa la) (filter pb lb)).
Proof.
  induction la as [|a la IH]; [reflexivity|]. cbn [flat_map filter].
  destruct (pa a).
  - cbn [andb list_prod]. rewrite map_app, map_map, IH. cbn [fst snd].
    rewrite (flat_map_guard pb (f a) lb). reflexivity.
  - cbn [andb]. rewrite IH.
    replace (flat_map (fun _ : B => @nil C) lb) with (@nil C); [reflexivity|].
    clear. induction lb; [reflexivity|]. cbn [flat_map app]. exact IHlb.
Qed.

Lemma window_neighbourhood (h w : nat) (z : frame) (i j : nat) :
  shape z = (h, w) ->
  window z (square 3) i j = map (intensity z) (neighbourhood h w i j).
Proof.
  intros Es. unfold window. rewrite Es.
  change (shape (square 3)) with (3%nat, 3%nat).
  cbv iota beta.
  set (ri := fun a => (Z.of_nat i + Z.of_nat a - Z.of_nat (3 / 2))%Z).
  set (cj := fun b => (Z.of_nat j + Z.of_nat b - Z.of_nat (3 / 2))%Z).
  set (pa := fun a => ((0 <=? ri a) && (ri a <? Z.of_nat h))%Z).
  set (pb := fun b => ((0 <=? cj b) && (cj b <? Z.of_nat w))%Z).
  transitivity (flat_map (fun a => flat_map (fun b =>
                  if pa a && pb b then [item 0 z (Z.to_nat (ri a)) (Z.to_nat (cj b))] else [])
                  (seq 0 3)) (seq 0 3)).
  { cbn [seq flat_map].
    change (item false (square 3) 0 0) with true. change (item false (square 3) 0 1) with true.
    change (item false (square 3) 0 2) with true. change (item false (square 3) 1 0) with true.
    change (item false (square 3) 1 1) with true. change (item false (square 3) 1 2) with true.
    change (item false (square 3) 2 0) with true. change (item false (square 3) 2 1) with true.
    change (item false (square 3) 2 2) with true.
    reflexivity. }
  rewrite (flat_map_product pa pb (fun a b => item 0 z (Z.to_nat (ri a)) (Z.to_nat (cj b)))).
  unfold neighbourhood. rewrite <- !offsets_around. unfold offsets.
  fold ri cj. 
  rewrite (flat_map_guard pa (fun a => Z.to_nat (ri a))).
  rewrite (flat_map_guard pb (fun b => Z.to_nat (cj b))).
  generalize (filter pa (seq 0 3)) (filter pb (seq 0 3)). intros la lb.
  induction la as [|a la IH]; [reflexivity|].
  cbn [list_prod map]. rewrite !map_app, IH, !map_map. reflexivity.
Qed.

Lemma max_of_in (l : list Q) (m : Q) : max_of l = Ret m -> In m l.
Proof.
  destruct l as [|a l]; [discriminate|]. simpl. intros H. injection H as <-.
  destruct (fold_qmax_cases l a) as [_ [->|Hin]]; [left; reflexivity|right; exact Hin].
Qed.



Lemma shape_tabulate_pos {A : Type} (h w : nat) (f : nat -> nat -> A) :
  (0 < h)%nat -> shape (tabulate h w f) = (h, w).
Proof. intros Hh. apply rectangular_shape; [apply rectangular_tabulate|exact Hh]. Qed.

Lemma pixelwise_tabulate {A : Type} (d : A) (h w : nat) (f : nat -> nat -> A) :
  pixelwise d h w (tabulate h w f) f.
Proof.
  split; [apply rectangular_tabulate|]. intros i j Hi Hj. apply item_tabulate; assumption.
Qed.

Lemma pixelwise_map {A B : Type} (g : A -> B) (d : A) (d' : B) (h w : nat) (z : array2 A) :
  rectangular h w z ->
  pixelwise d' h w (map (map g) z) (fun i j => g (item d z i j)).
Proof.
  intros R. split; [apply (rectangular_map g h w z R)|].
  intros i j Hi Hj. apply (item_map g d d' h w z i j R Hi Hj).
Qed.

(** A round of the modelled reconstruction, pixel by pixel. *)
Lemma reconstruction_step_tabulate (h w : nat) (mask x : frame) :
  shape x = (h, w) -> (0 < h)%nat ->
  reconstruction_step mask x
  = tabulate h w (fun i j =>
      qmin (fold_left qmax (window x (square 3) i j) (item 0 x i j)) (item 0 mask i j)).
Proof.
  intros Es Hh. unfold reconstruction_step, clip, dilation. rewrite Es.
  rewrite shape_tabulate_pos by exact Hh.
  apply tabulate_ext. intros i j Hi Hj. rewrite item_tabulate by assumption. reflexivity.
Qed.

Lemma reconstruction_step_round (h w : nat) (mask x : frame) :
  shape x = (h, w) -> (0 < h)%nat ->
  dilated_and_clipped h w mask x (reconstruction_step mask x).
Proof.
  intros Es Hh. rewrite (reconstruction_step_tabulate h w mask x Es Hh).
  split; [apply rectangular_tabulate|]. intros i j Hi Hj.
  rewrite item_tabulate by assumption.
  rewrite (window_neighbourhood h w x i j Es).
  set (vals := map (intensity x) (neighbourhood h w i j)).
  assert (Hc : In (item 0 x i j) vals).
  { unfold vals. change (item 0 x i j) with (intensity x (i, j)). apply in_map.
    apply in_neighbourhood. lia. }
  exists (fold_left qmax vals (item 0 x i j)). split.
  - split.
    + destruct (fold_qmax_cases vals (item 0 x i j)) as [_ [->|Hin]]; assumption.
    + apply (fold_qmax_le vals (item 0 x i j)). apply Qle_refl.
  - set (top := fold_left qmax vals (item 0 x i j)).
    destruct (qmin_cases top (item 0 mask i j)) as [[-> L]|[-> L]].
    + split; [left; reflexivity|]. intros u [<-|[<-|[]]]; [apply Qle_refl|exact L].
    + split; [right; left; reflexivity|]. intros u [<-|[<-|[]]]; [exact L|apply Qle_refl].
Qed.

Lemma iter_step_shape (mask x : frame) (k : nat) :
  shape (Nat.iter k (reconstruction_step mask) x) = shape x.
Proof.
  induction k as [|k IH]; [reflexivity|]. rewrite Nat.iter_succ.
  rewrite shape_step. exact IH.
Qed.

Lemma iter_step_rounds (h w : nat) (mask x : frame) (k : nat) :
  shape x = (h, w) -> (0 < h)%nat ->
  rounds h w mask x (Nat.iter k (reconstruction_step mask) x).
Proof.
  intros Es Hh. induction k as [|k IH]; [apply rounds_none|].
  rewrite Nat.iter_succ. eapply rounds_more; [exact IH|].
  apply reconstruction_step_round; [|exact Hh].
  rewrite iter_step_shape. exact Es.
Qed.

Lemma frame_eqb_items (h w : nat) (a b : frame) (i j : nat) :
  frame_eqb a b = true -> shape a = (h, w) -> (i < h)%nat -> (j < w)%nat ->
  item 0 a i j == item 0 b i j.
Proof.
  unfold frame_eqb, all_pixels. intros H Es Hi Hj. rewrite Es in H.
  apply andb_true_iff in H. destruct H as [_ H].
  rewrite forallb_forall in H. specialize (H i ltac:(apply in_seq; lia)).
  rewrite forallb_forall in H. specialize (H j ltac:(apply in_seq; lia)).
  apply Qeq_bool_iff. exact H.
Qed.

(** Rounds of dilation and clipping never lower a pixel and keep the
    invariant of the reconstruction. *)
Lemma iter_step_between (seed mask : frame) (k : nat) (x : frame) :
  reconstruction_inv seed mask x ->
  reconstruction_inv seed mask (Nat.iter k (reconstruction_step mask) x)
  /\ forall p, In p (pixels seed) ->
       intensity x p <= intensity (Nat.iter k (reconstruction_step mask) x) p.
Proof.
  intros Hinv. induction k as [|k [IH1 IH2]].
  - split; [exact Hinv|]. intros p _. apply Qle_refl.
  - rewrite Nat.iter_succ. destruct (inv_step seed mask _ IH1) as [I1 I2].
    split; [exact I1|]. intros p Hp. eapply Qle_trans; [apply IH2|apply I2]; exact Hp.
Qed.

(** The modelled reconstruction of a seed of [h] rows and [w] columns
    that nowhere exceeds the mask returns the reconstruction, which lies
    between the seed and the mask. *)
Lemma reconstruction_reconstructed (h w : nat) (seed mask : frame) :
  shape seed = (h, w) -> shape mask = (h, w) -> (0 < h)%nat ->
  (forall p, In p (pixels seed) -> intensity seed p <= intensity mask p) ->
  exists r,
    reconstruction seed mask = Ret r
    /\ shape r = (h, w)
    /\ reconstructed h w seed mask r
    /\ forall p, In p (pixels seed) ->
         intensity seed p <= intensity r p /\ intensity r p <= intensity mask p.
Proof.
  intros Hs Hm Hh Hle.
  destruct (reconstruction_fixed_point seed mask) as (r & Hr & Hsh & (k & Hk) & Hfix).
  { congruence. }
  { exact Hle. }
  exists r. split; [exact Hr|]. split; [congruence|]. split; [split|].
  - rewrite Hk. apply iter_step_rounds; assumption.
  - exists (reconstruction_step mask r). split.
    + apply reconstruction_step_round; [congruence|exact Hh].
    + intros i j Hi Hj. apply (frame_eqb_items h w _ _ i j Hfix); try assumption.
      rewrite shape_step. congruence.
  - assert (Hinv : reconstruction_inv seed mask seed).
    { split; [reflexivity|]. intros p Hp. split; [|apply Hle; exact Hp].
      apply in_or_app. left. apply in_map. exact Hp. }
    destruct (iter_step_between seed mask k seed Hinv) as [[_ I1] I2].
    rewrite <- Hk in I1, I2. intros p Hp. split; [apply I2; exact Hp|apply I1; exact Hp].
Qed.

(** What [_regional_filter] returns, pixel by pixel: the frame minus the
    reconstruction of the frame lowered by [h] under the frame itself; it
    lies between 0 and [h]. *)
Lemma regional_steps (h : Q) (H W : nat) (z : frame) :
  0 <= h -> rectangular H W z -> (0 < H)%nat ->
  _regional_filter h z = Ret (regional h z)
  /\ (exists seed rec,
        pixelwise 0 H W seed (fun i j => item 0 z i j - h)
        /\ reconstructed H W seed z rec
        /\ pixelwise 0 H W (regional h z) (fun i j => item 0 z i j - item 0 rec i j))
  /\ forall i j, (i < H)%nat -> (j < W)%nat ->
       0 <= item 0 (regional h z) i j /\ item 0 (regional h z) i j <= h.
Proof.
  intros Hh R HH. unfold regional, _regional_filter.
  pose proof (rectangular_shape H W z R HH) as Ez.
  set (seed := map (map (fun v => v - h)) z).
  assert (Ps : pixelwise 0 H W seed (fun i j => item 0 z i j - h)).
  { apply (pixelwise_map (fun v => v - h) 0 0 H W z R). }
  assert (Es : shape seed = (H, W)).
  { apply rectangular_shape; [apply Ps|exact HH]. }
  destruct (reconstruction_reconstructed H W seed z Es Ez HH) as (rec & Hrec & Er & Hr & Hb).
  { intros p Hp. apply in_pixels in Hp. rewrite Es in Hp. cbn [fst snd] in Hp.
    unfold intensity. rewrite (proj2 Ps) by lia. lra. }
  rewrite Hrec. cbn [bind]. split; [reflexivity|].
  assert (Pf : pixelwise 0 H W (subtract z rec) (fun i j => item 0 z i j - item 0 rec i j)).
  { unfold subtract. rewrite Ez. apply pixelwise_tabulate. }
  split.
  - exists seed, rec. split; [exact Ps|]. split; [exact Hr|exact Pf].
  - intros i j Hi Hj. rewrite (proj2 Pf) by assumption.
    destruct (Hb (i, j)) as [B1 B2].
    { apply in_pixels. rewrite Es. cbn [fst snd]. lia. }
    unfold intensity in B1, B2. cbn [fst snd] in B1, B2.
    rewrite (proj2 Ps) in B1 by assumption. split; lra.
Qed.

Lemma all_pixels_true {A : Type} (h w : nat) (z : array2 A) (p : nat -> nat -> bool) :
  shape z = (h, w) ->
  (forall i j, (i < h)%nat -> (j < w)%nat -> p i j = true) ->
  all_pixels z p = true.
Proof.
  intros Es H. unfold all_pixels. rewrite Es.
  apply forallb_forall. intros i Hi. apply forallb_forall. intros j Hj.
  apply in_seq in Hi, Hj. apply H; lia.
Qed.

(** The local mean of a frame, pixel by pixel. *)
Lemma local_mean_pixelwise (H W : nat) (z : frame) :
  rectangular H W z -> (0 < H)%nat ->
  pixelwise 0 H W (local_mean z)
            (fun i j => Qsum (map (intensity z) (neighbourhood H W i j))
                        / NtoQ (length (neighbourhood H W i j))).
Proof.
  intros R HH. pose proof (rectangular_shape H W z R HH) as Ez.
  unfold local_mean. rewrite Ez. cbn [fst snd].
  split; [apply rectangular_tabulate|]. intros i j Hi Hj.
  rewrite item_tabulate by assumption.
  rewrite (window_neighbourhood H W z i j Ez), length_map. reflexivity.
Qed.

(** On a frame with pixels, all between -1 and 1, the modelled filter
    returns the local mean. *)
Lemma rank_mean_returns (H W : nat) (z : frame) :
  rectangular H W z -> (0 < H)%nat -> (0 < W)%nat ->
  (forall i j, (i < H)%nat -> (j < W)%nat -> - (1) <= item 0 z i j /\ item 0 z i j <= 1) ->
  rank_mean (square 3) z = Ret (local_mean z).
Proof.
  intros R HH HW Hz. pose proof (rectangular_shape H W z R HH) as Ez.
  unfold rank_mean, local_mean. rewrite Ez. cbn [fst snd].
  destruct (ravel z) as [|v vs] eqn:Er.
  { pose proof (length_ravel H W z R) as L. rewrite Er in L. cbn [length] in L.
    destruct H, W; lia. }
  rewrite (all_pixels_true H W z _ Ez); [reflexivity|].
  intros i j Hi Hj. destruct (Hz i j Hi Hj) as [L1 L2].
  apply andb_true_iff. split; apply Qle_bool_iff; assumption.
Qed.

(** The run of [remove_background] for [0 <= h <= 1] on a stack whose
    maximum is not zero. *)
Lemma remove_background_returns (h : Q) (s : ElectronDiffraction) (m : Q) :
  0 <= h -> h <= 1 -> well_shaped s -> stack_max (data s) = Ret m -> ~ m == 0 ->
  (0 < snd (signal_shape s))%nat /\ (0 < fst (signal_shape s))%nat
  /\ exists m',
       stack_max (map local_mean
                      (map (regional h) (map (map (map (fun v => v / m))) (data s))))
       = Ret m'
       /\ remove_background h s
          = (Ret tt,
             mkSignal (divide (map local_mean
                                   (map (regional h)
                                        (map (map (map (fun v => v / m))) (data s)))) m')
                      (signal_shape s)).
Proof.
  intros Hh Hh1 Hwf Hm Hm0. destruct s as [frames [W H]].
  unfold well_shaped in *. cbn [data signal_shape fst snd] in *.
  destruct (flat_map_ravel_nonempty H W frames Hwf (max_of_nonempty _ _ Hm))
    as (Hne & HH & HW).
  split; [exact HH|]. split; [exact HW|].
  set (normalized := map (map (map (fun v => v / m))) frames).
  assert (Hn : forall z, In z normalized -> rectangular H W z).
  { unfold normalized. intros z Hz. apply in_map_iff in Hz.
    destruct Hz as (z0 & <- & Hz0). apply rectangular_map.
    rewrite Forall_forall in Hwf. auto. }
  set (filtered := map (regional h) normalized).
  assert (Hf : forall f, In f filtered ->
             rectangular H W f
             /\ forall i j, (i < H)%nat -> (j < W)%nat ->
                  0 <= item 0 f i j /\ item 0 f i j <= h).
  { intros f Hin. unfold filtered in Hin. apply in_map_iff in Hin.
    destruct Hin as (z & <- & Hz).
    destruct (regional_steps h H W z Hh (Hn z Hz) HH) as (_ & (seed & rec & _ & _ & P) & B).
    split; [apply P|exact B]. }
  set (means := map local_mean filtered).
  assert (Hmax : exists m', stack_max means = Ret m').
  { apply max_of_returns. unfold means, filtered, normalized.
    destruct frames as [|z0 rest]; [contradiction|]. cbn [map flat_map].
    set (z1 := regional h (map (map (fun v => v / m)) z0)).
    assert (R1 : rectangular H W z1).
    { apply Hf. left. reflexivity. }
    intros E. apply app_eq_nil in E. destruct E as [E _].
    apply (f_equal (@length Q)) in E.
    rewrite (length_ravel H W _ (proj1 (local_mean_pixelwise H W z1 R1 HH))) in E.
    cbn [length] in E. destruct H, W; lia. }
  destruct Hmax as (m' & Hm'). exists m'. split; [exact Hm'|].
  unfold remove_background. cbn [data signal_shape]. rewrite Hm.
  replace (Qeq_bool m 0) with false
    by (symmetry; apply not_true_iff_false; rewrite Qeq_bool_iff; exact Hm0).
  fold normalized.
  rewrite (map_frames_total (_regional_filter h) (regional h) normalized).
  2:{ intros z Hz. apply (regional_steps h H W z Hh (Hn z Hz) HH). }
  fold filtered.
  rewrite (map_frames_total (rank_mean (square 3)) local_mean filtered).
  2:{ intros f Hin. destruct (Hf f Hin) as [R B].
      apply (rank_mean_returns H W f R HH HW). intros i j Hi Hj.
      destruct (B i j Hi Hj). split; lra. }
  fold means. rewrite Hm'. reflexivity.
Qed.

Lemma amax_tabulate_in (h w : nat) (f : nat -> nat -> Q) (m : Q) :
  amax (tabulate h w f) = Ret m ->
  exists y x, (y < h)%nat /\ (x < w)%nat /\ m = f y x.
Proof.
  unfold amax. rewrite ravel_tabulate. intros H. apply max_of_in in H.
  apply in_map_iff in H. destruct H as ([y x] & <- & Hin).
  apply in_prod_iff in Hin. destruct Hin as [Hy Hx]. apply in_seq in Hy, Hx.
  exists y, x. cbn [fst snd]. repeat split; lia.
Qed.








(** ** GeometricTransformer *)

Lemma lookup_affine_transformation :
  lookup_global "affine_transformation" = Ret (Py_function "affine_transformation").
Proof. reflexivity. Qed.

Lemma lookup_underscore_affine_transformation :
  lookup_global "_affine_transformation" = Raise (NameError "_affine_transformation").
Proof. reflexivity. Qed.

Lemma det3_composite (z : frame) (D : mat3) : det3 (composite z D) == det3 D.
Proof.
  unfold composite, tf_add.
  set (sx := NtoQ (snd (shape z)) / 2). set (sy := NtoQ (fst (shape z)) / 2).
  unfold det3, entry, matmul.
  rewrite !item_tabulate by lia.
  unfold translation, item; cbn [nth].
  ring.
Qed.

Lemma affine_transformation_composite (tf_warp : frame -> mat3 -> nat -> frame)
      (z : frame) (order : nat) (matrix : mat3) :
  affine_transformation tf_warp z order matrix
  = bind (tf_inverse (composite z matrix))
         (fun inverse_map => Ret (tf_warp z inverse_map order)).
Proof. reflexivity. Qed.

(** [tf_inverse] returns a right inverse of the matrix. *)
Lemma tf_inverse_correct (m m' : mat3) (i j : nat) :
  tf_inverse m = Ret m' -> (i < 3)%nat -> (j < 3)%nat ->
  entry (matmul m m') i j == (if (i =? j)%nat then 1 else 0).
Proof.
  unfold tf_inverse. destruct (Qeq_bool (det3 m) 0) eqn:E; [discriminate|].
  intros H Hi Hj. injection H as <-.
  assert (Hd : ~ det3 m == 0).
  { intros Q0. apply Qeq_bool_iff in Q0. congruence. }
  unfold entry, matmul. rewrite item_tabulate by assumption.
  unfold det3, entry in *.
  destruct i as [|[|[|i]]]; [| | |lia];
    destruct j as [|[|[|j]]]; try lia;
    set (a := item 0 m 0 0) in *; set (b := item 0 m 0 1) in *;
    set (c := item 0 m 0 2) in *; set (d := item 0 m 1 0) in *;
    set (e := item 0 m 1 1) in *; set (f := item 0 m 1 2) in *;
    set (g := item 0 m 2 0) in *; set (h := item 0 m 2 1) in *;
    set (k := item 0 m 2 2) in *;
    unfold item; cbn [nth Nat.eqb]; field; exact Hd.
Qed.

Lemma tf_inverse_returns (m : mat3) :
  ~ det3 m == 0 -> exists inverse_map, tf_inverse m = Ret inverse_map.
Proof.
  intros Hd. unfold tf_inverse.
  destruct (Qeq_bool (det3 m) 0) eqn:E.
  - apply Qeq_bool_iff in E. contradiction.
  - eexists. reflexivity.
Qed.

Lemma affine_transformation_returns (tf_warp : frame -> mat3 -> nat -> frame)
      (z : frame) (order : nat) (D : mat3) :
  ~ det3 D == 0 ->
  exists inverse_map,
    tf_inverse (composite z D) = Ret inverse_map
    /\ affine_transformation tf_warp z order D = Ret (tf_warp z inverse_map order).
Proof.
  intros Hd. rewrite affine_transformation_composite.
  destruct (tf_inverse_returns (composite z D)) as (inv & Hinv).
  - intros E. apply Hd. rewrite <- E. symmetry. apply det3_composite.
  - exists inv. rewrite Hinv. split; reflexivity.
Qed.

Lemma call_affine_transformation (tf_warp : frame -> mat3 -> nat -> frame)
      (m : mat3) (z : frame) :
  call_with_matrix tf_warp (Py_function "affine_transformation") m z
  = affine_transformation tf_warp z 3 m.
Proof. reflexivity. Qed.

(** With an invertible matrix every frame is replaced by its warp. *)
Lemma correct_geometric_distortion_in_place (tf_warp : frame -> mat3 -> nat -> frame)
      (D : mat3) (s : ElectronDiffraction) :
  ~ det3 D == 0 ->
  correct_geometric_distortion tf_warp D s
  = (Ret tt, mkSignal (map (warped_frame tf_warp D) (data s)) (signal_shape s))
  /\ forall z, exists inverse_map,
       tf_inverse (composite z D) = Ret inverse_map
       /\ warped_frame tf_warp D z = tf_warp z inverse_map 3%nat.
Proof.
  intros Hd.
  assert (Hw : forall z, exists inverse_map,
             tf_inverse (composite z D) = Ret inverse_map
             /\ warped_frame tf_warp D z = tf_warp z inverse_map 3%nat).
  { intros z. destruct (tf_inverse_returns (composite z D)) as (inv & Hinv).
    - intros E. apply Hd. rewrite <- E. symmetry. apply det3_composite.
    - exists inv. unfold warped_frame. rewrite Hinv. split; reflexivity. }
  split; [|exact Hw].
  unfold correct_geometric_distortion. rewrite lookup_affine_transformation.
  unfold signal_map.
  rewrite (map_frames_total _ (warped_frame tf_warp D)); [reflexivity|].
  intros z _. rewrite call_affine_transformation, affine_transformation_composite.
  destruct (Hw z) as (inv & Hinv & ->). rewrite Hinv. reflexivity.
Qed.

(** C7 (defect): for every stack and angle [rotate_patterns] raises
    NameError: the function it hands to [map] is read from the global
    name [_affine_transformation], which the module never binds (the
    function is called [affine_transformation]); no frame is warped. *)
Theorem rotate_patterns_raises (tf_warp : frame -> mat3 -> nat -> frame)
        (math_cos math_sin : Q -> Q) (np_pi angle : Q) (s : ElectronDiffraction) :
  fst (rotate_patterns tf_warp math_cos math_sin np_pi angle s)
  = Raise (NameError "_affine_transformation").
Proof.
  unfold rotate_patterns. rewrite lookup_underscore_affine_transformation. reflexivity.
Qed.

(** C10 (defect): after [rotate_patterns] the stack is what it was before
    the call: the frames are not overwritten. *)
Theorem rotate_patterns_leaves_stack (tf_warp : frame -> mat3 -> nat -> frame)
        (math_cos math_sin : Q -> Q) (np_pi angle : Q) (s : ElectronDiffraction) :
  snd (rotate_patterns tf_warp math_cos math_sin np_pi angle s) = s.
Proof.
  unfold rotate_patterns. rewrite lookup_underscore_affine_transformation. reflexivity.
Qed.


(** ** Sample runs *)

(** A single bright pixel is found from a start two pixels away. *)
Example refine_beam_position_single_peak :
  exists a b : Q,
    refine_beam_position 2 [[0; 0; 0]; [0; 9; 0]; [0; 0; 0]] (0, 0)%Z 2 = Ret (Num a, Num b)
    /\ a == 1 /\ b == 1.
Proof. eexists. eexists. split; [vm_compute; reflexivity|]. split; reflexivity. Qed.

(** A start off the diagonal lies outside its own mask: when it is brighter
    than everything inside, neither block runs and [ztmp] is unbound. *)
Example refine_beam_position_unbound :
  refine_beam_position 1 [[0; 9; 0]; [0; 0; 0]; [0; 0; 0]] (0, 1)%Z 1
  = Raise (UnboundLocalError "ztmp").
Proof. reflexivity. Qed.

(** Bins without pixels hold nan. *)
Example radial_average_far_corner :
  radial_average ramp far_corner = [Nan; Nan; Nan; Nan; Nan; Num 3; Num 2; Num 1].
Proof. reflexivity. Qed.

(** With [h = 0] every frame equals its reconstruction, the filtered stack
    is zero and the last division yields nan everywhere. *)
Example remove_background_zero_depth :
  remove_background 0 spot_stack
  = (Ret tt,
     mkSignal [[[Nan; Nan; Nan]; [Nan; Nan; Nan]; [Nan; Nan; Nan]];
               [[Nan; Nan; Nan]; [Nan; Nan; Nan]; [Nan; Nan; Nan]]] (3, 3)%nat).
Proof. vm_compute. reflexivity. Qed.

(** The second frame is dark outside the beam; closing extends the flag to
    its neighbour. *)
Example get_vacuum_mask_closing :
  get_vacuum_mask spot_stack [2]%nat 1 (Some middle) 3 false false = Ret [false; true]
  /\ get_vacuum_mask spot_stack [2]%nat 1 (Some middle) 3 true false = Ret [true; true].
Proof. split; vm_compute; reflexivity. Qed.

(** On a grid of two rows and two columns the neighbours of a position are
    those along its row and along its column; on a line of four positions
    they are the ones before and after it. The same flags are cleaned up
    differently. *)
Example get_vacuum_mask_grid :
  get_vacuum_mask grid_stack [2; 2]%nat 1 (Some middle) 3 false false
  = Ret [true; true; false; false]
  /\ get_vacuum_mask grid_stack [2; 2]%nat 1 (Some middle) 3 true false
     = Ret [true; true; true; true]
  /\ get_vacuum_mask grid_stack [4]%nat 1 (Some middle) 3 true false
     = Ret [true; true; false; false]
  /\ get_vacuum_mask grid_stack [2; 2]%nat 1 (Some middle) 3 false true
     = Ret [false; false; false; false]
  /\ get_vacuum_mask grid_stack [4]%nat 1 (Some middle) 3 false true
     = Ret [true; true; false; false].
Proof. repeat split; vm_compute; reflexivity. Qed.

(** * Further properties *)

(** ** [circular_mask] *)

Lemma circular_mask_item_outside (shp : nat * nat) (radius : Q) (center : Q * Q) (y x : nat) :
  (snd shp <= y)%nat \/ (fst shp <= x)%nat ->
  item false (circular_mask shp radius center) y x = false.
Proof.
  destruct shp as [nx ny]. cbn [fst snd].
  pose proof (circular_mask_rectangular nx ny radius center) as R.
  intros H. unfold item.
  destruct (Nat.lt_ge_cases y ny) as [Hy|Hy].
  - apply nth_overflow. rewrite (rectangular_row ny nx _ y R Hy). lia.
  - rewrite (nth_overflow (circular_mask (nx, ny) radius center)) by (destruct R; lia).
    destruct x; reflexivity.
Qed.

(** X1: the sign of the radius does not matter: only its square is compared, so
    [radius] and [- radius] give the same mask. *)
Theorem circular_mask_radius_sign (shp : nat * nat) (radius : Q) (center : Q * Q) :
  circular_mask shp (- radius) center = circular_mask shp radius center.
Proof.
  destruct center as [a b]. unfold circular_mask. cbv zeta.
  apply map_ext. intros yv. apply map_ext. intros xv.
  apply Qle_bool_ext; [reflexivity|ring].
Qed.

(** X2: for radii [0 <= r1 <= r2] the mask of [r1] is contained in the mask of
    [r2]: a position set with the smaller radius is set with the larger. *)
Theorem circular_mask_grows (shp : nat * nat) (r1 r2 : Q) (center : Q * Q) (y x : nat) :
  0 <= r1 -> r1 <= r2 ->
  item false (circular_mask shp r1 center) y x = true ->
  item false (circular_mask shp r2 center) y x = true.
Proof.
  intros H0 H12 H.
  destruct (Nat.lt_ge_cases y (snd shp)) as [Hy|Hy].
  2:{ rewrite circular_mask_item_outside in H by (left; exact Hy). discriminate. }
  destruct (Nat.lt_ge_cases x (fst shp)) as [Hx|Hx].
  2:{ rewrite circular_mask_item_outside in H by (right; exact Hx). discriminate. }
  rewrite circular_mask_item in * by assumption.
  apply Qle_bool_iff. apply Qle_bool_iff in H.
  eapply Qle_trans; [exact H|]. nra.
Qed.

Lemma circular_mask_grows_witness :
  (0 <= 1 /\ 1 <= 2 /\ item false (circular_mask (3, 3)%nat 1 (1, 1)) 0 1 = true)
  /\ item false (circular_mask (3, 3)%nat 2 (1, 1)) 0 1 = true.
Proof.
  assert (H1 : 0 <= 1) by (apply Qle_bool_iff; reflexivity).
  assert (H2 : 1 <= 2) by (apply Qle_bool_iff; reflexivity).
  assert (H3 : item false (circular_mask (3, 3)%nat 1 (1, 1)) 0 1 = true) by reflexivity.
  split; [tauto|].
  exact (circular_mask_grows (3, 3)%nat 1 2 (1, 1) 0 1 H1 H2 H3).
Defined.

(** X3: a centre on pixel (column [a], row [b]) of the mask is always inside
    the mask, also for radius 0. *)
Theorem circular_mask_centre (shp : nat * nat) (radius : Q) (a b : nat) :
  (a < fst shp)%nat -> (b < snd shp)%nat ->
  item false (circular_mask shp radius (NtoQ a, NtoQ b)) b a = true.
Proof.
  intros Ha Hb. rewrite circular_mask_item by assumption. cbn [fst snd].
  apply Qle_bool_iff.
  assert (E : (NtoQ a * 1 + - NtoQ a) * (NtoQ a * 1 + - NtoQ a)
              + (NtoQ b * 1 + - NtoQ b) * (NtoQ b * 1 + - NtoQ b) == 0) by ring.
  rewrite E. nra.
Qed.

Lemma circular_mask_centre_witness :
  ((2 < fst (3, 2)%nat)%nat /\ (1 < snd (3, 2)%nat)%nat)
  /\ item false (circular_mask (3, 2)%nat 0 (NtoQ 2, NtoQ 1)) 1 2 = true.
Proof.
  assert (H1 : (2 < fst (3, 2)%nat)%nat) by (simpl; lia).
  assert (H2 : (1 < snd (3, 2)%nat)%nat) by (simpl; lia).
  split; [tauto|].
  exact (circular_mask_centre (3, 2)%nat 0 2 1 H1 H2).
Defined.

(** X4: exchanging the two entries of the shape and of the centre transposes
    the mask. *)
Theorem circular_mask_transpose (nx ny : nat) (radius a b : Q) (y x : nat) :
  item false (circular_mask (nx, ny) radius (a, b)) y x
  = item false (circular_mask (ny, nx) radius (b, a)) x y.
Proof.
  destruct (Nat.lt_ge_cases y ny) as [Hy|Hy].
  2:{ rewrite !circular_mask_item_outside; cbn [fst snd]; auto. }
  destruct (Nat.lt_ge_cases x nx) as [Hx|Hx].
  2:{ rewrite !circular_mask_item_outside; cbn [fst snd]; auto. }
  rewrite !circular_mask_item by (cbn [fst snd]; assumption). cbn [fst snd].
  apply Qle_bool_ext; [ring|reflexivity].
Qed.

(** ** [refine_beam_position] *)

Lemma while_loop_S (fuel : nat) (z z_tmp : frame) (radius : Q) (st : locals) :
  while_loop (S fuel) z z_tmp radius st
  = bind (amax z_tmp) (fun m =>
      if Qlt_bool (fst st) m then
        bind (relocate z z_tmp radius)
             (fun r => while_loop fuel z z_tmp radius (fst r, Some (snd r)))
      else Ret st).
Proof. reflexivity. Qed.

(** After one round the loop state no longer changes, so a second round
    that is entered is entered for ever. *)
Lemma while_loop_settled (z z_tmp : frame) (radius m ci : Q) (zt : frame) (n : nat) :
  amax z_tmp = Ret m ->
  relocate z z_tmp radius = Ret (ci, zt) ->
  while_loop (S n) z z_tmp radius (ci, Some zt)
  = while_loop 1 z z_tmp radius (ci, Some zt).
Proof.
  intros Hm Hr. destruct (Qlt_bool ci m) eqn:Hci.
  - rewrite (while_loop_stuck z z_tmp radius m ci zt Hm Hr Hci (S n)) by exact Hci.
    rewrite while_loop_S, Hm. cbn [bind fst]. rewrite Hci, Hr. reflexivity.
  - rewrite !while_loop_S, Hm. cbn [bind fst]. rewrite Hci. reflexivity.
Qed.

Lemma while_loop_two_rounds (z z_tmp : frame) (radius : Q) (n : nat) (st : locals) :
  while_loop (2 + n) z z_tmp radius st = while_loop 2 z z_tmp radius st.
Proof.
  change (2 + n)%nat with (S (S n)). rewrite !while_loop_S.
  destruct (amax z_tmp) as [m| | |] eqn:Hm; cbn [bind]; try reflexivity.
  destruct (Qlt_bool (fst st) m) eqn:Hst; [|reflexivity].
  destruct (relocate z z_tmp radius) as [[ci zt]| | |] eqn:Hr; cbn [bind]; try reflexivity.
  cbn [fst snd]. apply (while_loop_settled z z_tmp radius m ci zt n Hm Hr).
Qed.

(** X5: the loop runs at most one round or for ever: whatever two
    rounds of fuel give (a result, an exception or no result yet) is what every
    larger amount gives. The loop condition reads [z_tmp], which no round
    assigns. *)
Theorem refine_beam_position_one_round_or_none (z : frame) (start : Z * Z) (radius : Q)
        (n : nat) :
  refine_beam_position (2 + n) z start radius = refine_beam_position 2 z start radius.
Proof.
  unfold refine_beam_position.
  destruct (getitem z (fst start) (snd start)) as [c_int| | |]; cbn [bind]; try reflexivity.
  destruct (mul_mask z _) as [z_tmp| | |]; cbn [bind]; try reflexivity.
  destruct (amax z_tmp) as [m| | |]; cbn [bind]; try reflexivity.
  destruct (if Qeq_bool c_int m then _ else _) as [st| | |]; cbn [bind]; try reflexivity.
  rewrite while_loop_two_rounds. reflexivity.
Qed.

Lemma py_index_out (n : nat) (i : Z) :
  (Z.of_nat n <= i \/ i < - Z.of_nat n)%Z -> py_index n i = None.
Proof.
  intros H. unfold py_index.
  destruct ((0 <=? i)%Z && (i <? Z.of_nat n)%Z) eqn:E1.
  { apply andb_prop in E1. destruct E1 as [A B]. apply Z.leb_le in A. apply Z.ltb_lt in B. lia. }
  destruct ((- Z.of_nat n <=? i)%Z && (i <? 0)%Z) eqn:E2; [|reflexivity].
  apply andb_prop in E2. destruct E2 as [A B]. apply Z.leb_le in A. apply Z.ltb_lt in B. lia.
Qed.

Lemma py_index_in (n : nat) (i : Z) :
  (0 <= i < Z.of_nat n)%Z -> py_index n i = Some (Z.to_nat i).
Proof.
  intros H. unfold py_index.
  replace ((0 <=? i)%Z && (i <? Z.of_nat n)%Z) with true; [reflexivity|].
  symmetry. apply andb_true_intro. split; [apply Z.leb_le|apply Z.ltb_lt]; lia.
Qed.

(** X6: a start position outside the frame (beyond the last index, or
    further back than Python's negative indices reach) raises IndexError. *)
Theorem refine_beam_position_start_outside (fuel : nat) (z : frame) (start : Z * Z)
        (radius : Q) :
  (Z.of_nat (fst (shape z)) <= fst start \/ fst start < - Z.of_nat (fst (shape z))
   \/ Z.of_nat (snd (shape z)) <= snd start \/ snd start < - Z.of_nat (snd (shape z)))%Z ->
  refine_beam_position fuel z start radius = Raise IndexError.
Proof.
  intros H. unfold refine_beam_position, getitem.
  destruct (shape z) as [h w]. cbn [fst snd] in H.
  destruct H as [H|[H|[H|H]]].
  - rewrite (py_index_out h) by lia. reflexivity.
  - rewrite (py_index_out h) by lia. reflexivity.
  - rewrite (py_index_out w) by lia. destruct (py_index h (fst start)); reflexivity.
  - rewrite (py_index_out w) by lia. destruct (py_index h (fst start)); reflexivity.
Qed.

Lemma refine_beam_position_start_outside_witness :
  (Z.of_nat (fst (shape flat_top)) <= fst (2, 0)%Z
   \/ fst (2, 0)%Z < - Z.of_nat (fst (shape flat_top))
   \/ Z.of_nat (snd (shape flat_top)) <= snd (2, 0)%Z
   \/ snd (2, 0)%Z < - Z.of_nat (snd (shape flat_top)))%Z
  /\ refine_beam_position 5 flat_top (2, 0)%Z 1 = Raise IndexError.
Proof.
  assert (H1 : (Z.of_nat (fst (shape flat_top)) <= fst (2, 0)%Z
                \/ fst (2, 0)%Z < - Z.of_nat (fst (shape flat_top))
                \/ Z.of_nat (snd (shape flat_top)) <= snd (2, 0)%Z
                \/ snd (2, 0)%Z < - Z.of_nat (snd (shape flat_top)))%Z).
  { left. simpl. lia. }
  split; [exact H1|].
  exact (refine_beam_position_start_outside 5 flat_top (2, 0)%Z 1 H1).
Defined.

Lemma getitem_in (h w : nat) (z : frame) (i j : Z) :
  shape z = (h, w) -> (0 <= i < Z.of_nat h)%Z -> (0 <= j < Z.of_nat w)%Z ->
  getitem z i j = Ret (item 0 z (Z.to_nat i) (Z.to_nat j)).
Proof.
  intros Hs Hi Hj. unfold getitem. rewrite Hs, (py_index_in h), (py_index_in w) by assumption.
  reflexivity.
Qed.

Lemma broadcast_dim_differ (m n : nat) :
  m <> n -> (1 < m)%nat -> (1 < n)%nat -> broadcast_dim m n = None.
Proof.
  intros Hne Hm Hn. unfold broadcast_dim.
  destruct (m =? n)%nat eqn:E1; [apply Nat.eqb_eq in E1; contradiction|].
  destruct (m =? 1)%nat eqn:E2; [apply Nat.eqb_eq in E2; lia|].
  destruct (n =? 1)%nat eqn:E3; [apply Nat.eqb_eq in E3; lia|]. reflexivity.
Qed.

(** X7: on a frame that is not square, with both sides longer than one
    pixel, every start position inside the frame raises ValueError: the mask
    is built for the transposed shape and cannot be multiplied with the
    frame. *)
Theorem refine_beam_position_needs_square (fuel : nat) (h w : nat) (z : frame)
        (start : Z * Z) (radius : Q) :
  rectangular h w z -> h <> w -> (1 < h)%nat -> (1 < w)%nat ->
  (0 <= fst start < Z.of_nat h)%Z -> (0 <= snd start < Z.of_nat w)%Z ->
  refine_beam_position fuel z start radius
  = Raise (ValueError "operands could not be broadcast together").
Proof.
  intros R Hne Hh Hw Hi Hj.
  assert (Hs : shape z = (h, w)) by (apply rectangular_shape; [exact R|lia]).
  unfold refine_beam_position.
  rewrite (getitem_in h w z _ _ Hs Hi Hj). cbn [bind].
  unfold mul_mask. rewrite Hs.
  rewrite (circular_mask_shape h w radius _) by lia.
  rewrite (broadcast_dim_differ h w Hne Hh Hw). reflexivity.
Qed.

Lemma refine_beam_position_needs_square_witness :
  (rectangular 2 3 wide /\ 2%nat <> 3%nat /\ (1 < 2)%nat /\ (1 < 3)%nat
   /\ (0 <= fst (0, 0)%Z < Z.of_nat 2)%Z /\ (0 <= snd (0, 0)%Z < Z.of_nat 3)%Z)
  /\ refine_beam_position 1 wide (0, 0)%Z 1
     = Raise (ValueError "operands could not be broadcast together").
Proof.
  assert (H1 : rectangular 2 3 wide) by (split; [reflexivity|repeat constructor]).
  assert (H2 : 2%nat <> 3%nat) by lia.
  assert (H3 : (1 < 2)%nat) by lia.
  assert (H4 : (1 < 3)%nat) by lia.
  assert (H5 : (0 <= fst (0, 0)%Z < Z.of_nat 2)%Z) by (simpl; lia).
  assert (H6 : (0 <= snd (0, 0)%Z < Z.of_nat 3)%Z) by (simpl; lia).
  split; [tauto|].
  exact (refine_beam_position_needs_square 1 2 3 wide (0, 0)%Z 1 H1 H2 H3 H4 H5 H6).
Defined.

Lemma refine_mask_product (n : nat) (z : frame) (radius : Q) (c : Q * Q) :
  rectangular n n z -> (0 < n)%nat ->
  mul_mask z (circular_mask (shape z) radius c)
  = Ret (masked n n z (circular_mask (n, n) radius c)).
Proof.
  intros R Hn. rewrite (rectangular_shape n n z R Hn).
  apply mul_mask_same_shape; [apply rectangular_shape; assumption|].
  apply circular_mask_shape. exact Hn.
Qed.

(** X8: the start (i, j) is read as frame item [z[i, j]] but the mask is
    centred on column [i], row [j]. When the start is the unique brightest
    pixel, is positive, and lies further from its mirror position than the
    radius, neither the [if] block nor the loop runs and the final
    [center_of_mass(ztmp)] raises UnboundLocalError. *)
Theorem refine_beam_position_start_unmasked (fuel n : nat) (z : frame) (i j : nat)
        (radius : Q) :
  rectangular n n z -> (i < n)%nat -> (j < n)%nat ->
  radius * radius < 2 * (NtoQ i - NtoQ j) ^ 2 ->
  0 < item 0 z i j ->
  (forall y x, (y < n)%nat -> (x < n)%nat -> (y, x) <> (i, j) ->
               item 0 z y x < item 0 z i j) ->
  refine_beam_position (S fuel) z (Z.of_nat i, Z.of_nat j) radius
  = Raise (UnboundLocalError "ztmp").
Proof.
  intros R Hi Hj Hfar Hpos Hmax.
  assert (Hn : (0 < n)%nat) by lia.
  unfold refine_beam_position. cbn [fst snd].
  rewrite (getitem_in n n z _ _ (rectangular_shape n n z R Hn)) by lia.
  rewrite !Nat2Z.id. cbn [bind].
  change (center_of (Z.of_nat i, Z.of_nat j)) with (NtoQ i, NtoQ j).
  rewrite (refine_mask_product n z radius _ R Hn). cbn [bind].
  set (mask := circular_mask (n, n) radius (NtoQ i, NtoQ j)).
  destruct (amax (masked n n z mask)) as [m| | |] eqn:Hm; cbn [bind].
  2-4: (unfold amax, masked in Hm; rewrite ravel_tabulate in Hm;
        destruct n; [lia|]; simpl in Hm; discriminate).
  assert (Hlt : m < item 0 z i j).
  { unfold masked in Hm. apply amax_tabulate_in in Hm.
    destruct Hm as (y & x & Hy & Hx & ->).
    destruct (item false mask y x) eqn:Hb; cbn [b2q].
    - assert (Hne : (y, x) <> (i, j)).
      { intros E. injection E as -> ->. unfold mask in Hb.
        rewrite circular_mask_item in Hb by (cbn [fst snd]; assumption).
        cbn [fst snd] in Hb. apply Qle_bool_iff in Hb.
        assert (E : (NtoQ j * 1 + - NtoQ i) * (NtoQ j * 1 + - NtoQ i)
                    + (NtoQ i * 1 + - NtoQ j) * (NtoQ i * 1 + - NtoQ j)
                    == 2 * (NtoQ i - NtoQ j) ^ 2) by ring.
        rewrite E in Hb. lra. }
      specialize (Hmax y x Hy Hx Hne). lra.
    - lra. }
  replace (Qeq_bool (item 0 z i j) m) with false.
  2:{ symmetry. apply not_true_iff_false. rewrite Qeq_bool_iff. intros E. rewrite E in Hlt.
      exact (Qlt_irrefl _ Hlt). }
  cbn [bind]. rewrite while_loop_S, Hm. cbn [bind fst].
  replace (Qlt_bool (item 0 z i j) m) with false.
  2:{ symmetry. apply not_true_iff_false. rewrite Qlt_bool_iff. intros L. lra. }
  reflexivity.
Qed.

Lemma refine_beam_position_start_unmasked_witness :
  (rectangular 3 3 corner_peak /\ (0 < 3)%nat /\ (2 < 3)%nat
   /\ 1 * 1 < 2 * (NtoQ 0 - NtoQ 2) ^ 2
   /\ 0 < item 0 corner_peak 0 2
   /\ (forall y x, (y < 3)%nat -> (x < 3)%nat -> (y, x) <> (0, 2)%nat ->
                   item 0 corner_peak y x < item 0 corner_peak 0 2))
  /\ refine_beam_position 1 corner_peak (Z.of_nat 0, Z.of_nat 2) 1
     = Raise (UnboundLocalError "ztmp").
Proof.
  assert (H1 : rectangular 3 3 corner_peak) by (split; [reflexivity|repeat constructor]).
  assert (H2 : (0 < 3)%nat) by lia.
  assert (H3 : (2 < 3)%nat) by lia.
  assert (H4 : 1 * 1 < 2 * (NtoQ 0 - NtoQ 2) ^ 2) by reflexivity.
  assert (H5 : 0 < item 0 corner_peak 0 2) by reflexivity.
  assert (H6 : forall y x, (y < 3)%nat -> (x < 3)%nat -> (y, x) <> (0, 2)%nat ->
                           item 0 corner_peak y x < item 0 corner_peak 0 2).
  { intros y x Hy Hx Hne.
    destruct y as [|[|[|y]]]; [| | |lia];
      (destruct x as [|[|[|x]]]; [| | |lia]);
      try reflexivity; exfalso; apply Hne; reflexivity. }
  split; [tauto|].
  exact (refine_beam_position_start_unmasked 0 3 corner_peak 0 2 1 H1 H2 H3 H4 H5 H6).
Defined.

(** The frame whose centre of mass is returned is a product of [z] with a
    mask around some integer centre. *)
Lemma relocate_product (z z_tmp : frame) (radius ci : Q) (zt : frame) :
  relocate z z_tmp radius = Ret (ci, zt) ->
  exists c, mul_mask z (circular_mask (shape z) radius (center_of c)) = Ret zt.
Proof.
  unfold relocate. destruct (amax z_tmp) as [m| | |]; cbn [bind]; try discriminate.
  destruct (getitem z _ _) as [c_int| | |]; cbn [bind]; try discriminate.
  destruct (mul_mask z _) as [ztmp| | |] eqn:E; cbn [bind]; try discriminate.
  intros H. injection H as _ <-. eexists. exact E.
Qed.

Lemma while_loop_returns (z z_tmp : frame) (radius : Q) (fuel : nat) :
  forall st st', while_loop fuel z z_tmp radius st = Ret st' ->
    st' = st \/ exists r, relocate z z_tmp radius = Ret r /\ st' = (fst r, Some (snd r)).
Proof.
  induction fuel as [|fuel IH]; intros st st' H; [discriminate|].
  rewrite while_loop_S in H.
  destruct (amax z_tmp) as [m| | |]; cbn [bind] in H; try discriminate.
  destruct (Qlt_bool (fst st) m).
  - destruct (relocate z z_tmp radius) as [r| | |] eqn:Hr; cbn [bind] in H; try discriminate.
    apply IH in H. destruct H as [->|(r' & Hr' & ->)].
    + right. exists r. split; reflexivity.
    + right. exists r'. split; [exact Hr'|reflexivity].
  - injection H as <-. left. reflexivity.
Qed.

Lemma refine_beam_position_returns (fuel : nat) (z : frame) (start : Z * Z) (radius : Q)
      (v : npfloat * npfloat) :
  refine_beam_position fuel z start radius = Ret v ->
  exists c zt, mul_mask z (circular_mask (shape z) radius (center_of c)) = Ret zt
               /\ v = center_of_mass zt.
Proof.
  unfold refine_beam_position.
  destruct (getitem z _ _) as [c_int| | |]; cbn [bind]; try discriminate.
  destruct (mul_mask z _) as [z_tmp| | |]; cbn [bind]; try discriminate.
  destruct (amax z_tmp) as [m| | |]; cbn [bind]; try discriminate.
  destruct (Qeq_bool c_int m).
  - destruct (relocate z z_tmp radius) as [[ci zt0]| | |] eqn:Hr; cbn [bind]; try discriminate.
    destruct (while_loop fuel z z_tmp radius _) as [st'| | |] eqn:Hw; cbn [bind];
      try discriminate.
    apply while_loop_returns in Hw. destruct Hw as [->|(r & Hr' & ->)]; cbn [snd fst].
    + intros H. injection H as <-. destruct (relocate_product _ _ _ _ _ Hr) as (c & Hc).
      exists c, zt0. split; [exact Hc|reflexivity].
    + intros H. injection H as <-. destruct r as [ci' zt']. cbn [snd].
      destruct (relocate_product _ _ _ _ _ Hr') as (c & Hc).
      exists c, zt'. split; [exact Hc|reflexivity].
  - cbn [bind].
    destruct (while_loop fuel z z_tmp radius _) as [st'| | |] eqn:Hw; cbn [bind];
      try discriminate.
    apply while_loop_returns in Hw. destruct Hw as [->|(r & Hr' & ->)]; cbn [snd fst].
    + discriminate.
    + intros H. injection H as <-. destruct r as [ci' zt']. cbn [snd].
      destruct (relocate_product _ _ _ _ _ Hr') as (c & Hc).
      exists c, zt'. split; [exact Hc|reflexivity].
Qed.

(** Weighted sums: with weights [w >= 0] and positions [0 <= k <= K], the
    sum of [w * k] lies between 0 and [K] times the sum of [w]. *)
Lemma weighted_sum_bounds {X : Type} (w k : X -> Q) (K : Q) (l : list X) :
  (forall p, In p l -> 0 <= w p /\ 0 <= k p /\ k p <= K) ->
  forall a b, 0 <= a -> 0 <= b -> b <= K * a ->
    0 <= fold_left Qplus (map w l) a
    /\ 0 <= fold_left Qplus (map (fun p => w p * k p) l) b
    /\ fold_left Qplus (map (fun p => w p * k p) l) b
       <= K * fold_left Qplus (map w l) a.
Proof.
  induction l as [|p l IH]; intros H a b Ha Hb Hab; simpl.
  - repeat split; assumption.
  - destruct (H p (or_introl eq_refl)) as (Hw & Hk0 & HkK).
    apply IH.
    + intros q Hq. apply H. right. exact Hq.
    + lra.
    + nra.
    + nra.
Qed.

Lemma center_of_mass_inside (n : nat) (f : nat -> nat -> Q) :
  (0 < n)%nat ->
  (forall i j, 0 <= f i j) ->
  center_of_mass (tabulate n n f) = (Nan, Nan)
  \/ exists a b, center_of_mass (tabulate n n f) = (Num a, Num b)
                 /\ 0 <= a /\ a <= NtoQ n - 1 /\ 0 <= b /\ b <= NtoQ n - 1.
Proof.
  intros Hn Hf. unfold center_of_mass.
  assert (Hs : shape (tabulate n n f) = (n, n)).
  { apply rectangular_shape; [apply rectangular_tabulate|exact Hn]. }
  rewrite Hs. unfold asum. rewrite !ravel_tabulate.
  set (L := list_prod (seq 0 n) (seq 0 n)).
  assert (HL : forall p, In p L -> (fst p < n)%nat /\ (snd p < n)%nat).
  { intros [i j] Hp. apply in_prod_iff in Hp. destruct Hp as [A B].
    apply in_seq in A, B. cbn [fst snd]. lia. }
  assert (Hk : forall m : nat, (m < n)%nat -> 0 <= NtoQ m /\ NtoQ m <= NtoQ n - 1).
  { intros m Hm. unfold NtoQ. split.
    - change 0 with (inject_Z 0). rewrite <- Zle_Qle. lia.
    - change 1 with (inject_Z 1). unfold Qminus. rewrite <- inject_Z_opp, <- inject_Z_plus.
      rewrite <- Zle_Qle. lia. }
  set (w := fun p : nat * nat => f (fst p) (snd p)).
  assert (E1 : map (fun p => item 0 (tabulate n n f) (fst p) (snd p) * NtoQ (fst p)) L
               = map (fun p => w p * NtoQ (fst p)) L).
  { apply map_ext_in. intros p Hp. destruct (HL p Hp). rewrite item_tabulate by assumption.
    reflexivity. }
  assert (E2 : map (fun p => item 0 (tabulate n n f) (fst p) (snd p) * NtoQ (snd p)) L
               = map (fun p => w p * NtoQ (snd p)) L).
  { apply map_ext_in. intros p Hp. destruct (HL p Hp). rewrite item_tabulate by assumption.
    reflexivity. }
  rewrite E1, E2. fold w.
  destruct (weighted_sum_bounds w (fun p => NtoQ (fst p)) (NtoQ n - 1) L) with (a := 0) (b := 0)
    as (HA & HB1 & HB2); try lra.
  { intros p Hp. destruct (HL p Hp) as [A B]. destruct (Hk _ A). split; [apply Hf|]. split; assumption. }
  destruct (weighted_sum_bounds w (fun p => NtoQ (snd p)) (NtoQ n - 1) L) with (a := 0) (b := 0)
    as (_ & HC1 & HC2); try lra.
  { intros p Hp. destruct (HL p Hp) as [A B]. destruct (Hk _ B). split; [apply Hf|]. split; assumption. }
  set (A := fold_left Qplus (map w L) 0) in *.
  set (B := fold_left Qplus (map (fun p => w p * NtoQ (fst p)) L) 0) in *.
  set (C := fold_left Qplus (map (fun p => w p * NtoQ (snd p)) L) 0) in *.
  unfold np_divide. destruct (Qeq_bool A 0) eqn:EA.
  - apply Qeq_bool_iff in EA. left.
    replace (Qeq_bool B 0) with true by (symmetry; apply Qeq_bool_iff; nra).
    replace (Qeq_bool C 0) with true by (symmetry; apply Qeq_bool_iff; nra).
    reflexivity.
  - right. exists (B / A), (C / A). split; [reflexivity|].
    assert (HApos : 0 < A).
    { apply Qle_lt_or_eq in HA. destruct HA as [L0|E0]; [exact L0|].
      exfalso. apply not_true_iff_false in EA. apply EA. apply Qeq_bool_iff. symmetry. exact E0. }
    repeat split.
    + apply Qle_shift_div_l; [exact HApos|lra].
    + apply Qle_shift_div_r; [exact HApos|lra].
    + apply Qle_shift_div_l; [exact HApos|lra].
    + apply Qle_shift_div_r; [exact HApos|lra].
Qed.

(** X9: on a square frame without negative intensities a returned centre is
    either (nan, nan) (nothing under the mask) or lies inside the frame, both
    coordinates between 0 and n - 1. *)
Theorem refine_beam_position_inside (fuel n : nat) (z : frame) (start : Z * Z) (radius : Q)
        (v : npfloat * npfloat) :
  rectangular n n z ->
  (forall y x, 0 <= item 0 z y x) ->
  refine_beam_position fuel z start radius = Ret v ->
  v = (Nan, Nan)
  \/ exists a b, v = (Num a, Num b)
                 /\ 0 <= a /\ a <= NtoQ n - 1 /\ 0 <= b /\ b <= NtoQ n - 1.
Proof.
  intros R Hz Hret.
  destruct n as [|n'].
  { exfalso. destruct R as [Hl _]. destruct z; [|discriminate].
    unfold refine_beam_position, getitem in Hret. cbn [shape length hd] in Hret.
    unfold py_index in Hret. cbn [Z.of_nat] in Hret.
    destruct (fst start) as [|p|p]; cbn in Hret; discriminate. }
  destruct (refine_beam_position_returns _ _ _ _ _ Hret) as (c & zt & Hzt & ->).
  rewrite (refine_mask_product (S n') z radius _ R) in Hzt by lia.
  injection Hzt as <-. unfold masked.
  apply center_of_mass_inside; [lia|].
  intros i j. specialize (Hz i j). destruct (item false _ i j); cbn [b2q]; lra.
Qed.

Lemma refine_beam_position_inside_witness :
  (rectangular 3 3 single_peak
   /\ (forall y x, 0 <= item 0 single_peak y x)
   /\ refine_beam_position 2 single_peak (0, 0)%Z 2 = Ret (Num (9 # 9), Num (9 # 9)))
  /\ ((Num (9 # 9), Num (9 # 9)) = (Nan, Nan)
      \/ exists a b, (Num (9 # 9), Num (9 # 9)) = (Num a, Num b)
                     /\ 0 <= a /\ a <= NtoQ 3 - 1 /\ 0 <= b /\ b <= NtoQ 3 - 1).
Proof.
  assert (H1 : rectangular 3 3 single_peak) by (split; [reflexivity|repeat constructor]).
  assert (H2 : forall y x, 0 <= item 0 single_peak y x).
  { intros y x.
    destruct y as [|[|[|[|y]]]]; destruct x as [|[|[|[|x]]]];
      apply Qle_bool_iff; reflexivity. }
  assert (H3 : refine_beam_position 2 single_peak (0, 0)%Z 2 = Ret (Num (9 # 9), Num (9 # 9)))
    by (vm_compute; reflexivity).
  split; [tauto|].
  exact (refine_beam_position_inside 2 3 single_peak (0, 0)%Z 2 _ H1 H2 H3).
Defined.

(** ** [get_direct_beam_position] *)

Lemma rint_integer (k : Z) (q : Q) : q == inject_Z k -> rint q = k.
Proof.
  intros E. unfold rint. rewrite (Qfloor_comp _ _ E), Qfloor_Z.
  assert (E' : q - inject_Z k == 0) by (rewrite E; ring).
  rewrite E'. reflexivity.
Qed.

Lemma average_single (i : nat) : rint (average [i]) = Z.of_nat i.
Proof.
  apply rint_integer. unfold average, NtoQ. cbn [fold_left length Nat.add].
  change (inject_Z (Z.of_nat 1)) with 1. field.
Qed.

Lemma flat_map_all_nil {A B : Type} (f : A -> list B) (l : list A) :
  (forall x, In x l -> f x = []) -> flat_map f l = [].
Proof.
  induction l as [|x l IH]; intros H; simpl; [reflexivity|].
  rewrite (H x (or_introl eq_refl)), IH; [reflexivity|].
  intros y Hy. apply H. right. exact Hy.
Qed.

Lemma flat_map_only {A B : Type} (f : A -> list B) (a : A) (l : list A) :
  NoDup l -> In a l -> (forall x, In x l -> x <> a -> f x = []) ->
  flat_map f l = f a.
Proof.
  induction l as [|x l IH]; intros Hnd Hin Hf; [destruct Hin|].
  inversion Hnd as [|? ? Hx Hnd']; subst. simpl.
  destruct Hin as [->|Hin].
  - rewrite (flat_map_all_nil f l); [apply app_nil_r|].
    intros y Hy. apply Hf; [right; exact Hy|]. intros ->. contradiction.
  - rewrite (Hf x (or_introl eq_refl)) by (intros ->; contradiction).
    simpl. apply IH; auto. intros y Hy. apply Hf. right. exact Hy.
Qed.

Lemma where_eq_unique (h w : nat) (f : nat -> nat -> Q) (i j : nat) :
  (i < h)%nat -> (j < w)%nat ->
  (forall y x, (y < h)%nat -> (x < w)%nat -> (y, x) <> (i, j) -> f y x < f i j) ->
  where_eq (tabulate h w f) (f i j) = [(i, j)].
Proof.
  intros Hi Hj Hmax. unfold where_eq.
  rewrite (rectangular_shape h w _ (rectangular_tabulate h w f)) by lia.
  assert (Hne : forall y x, (y < h)%nat -> (x < w)%nat -> (y, x) <> (i, j) ->
                  Qeq_bool (f y x) (f i j) = false).
  { intros y x Hy Hx Hd. apply not_true_iff_false. rewrite Qeq_bool_iff. intros E.
    specialize (Hmax y x Hy Hx Hd). rewrite E in Hmax. exact (Qlt_irrefl _ Hmax). }
  rewrite (flat_map_only _ i).
  - rewrite (flat_map_only _ j).
    + rewrite item_tabulate by assumption.
      replace (Qeq_bool (f i j) (f i j)) with true; [reflexivity|].
      symmetry. apply Qeq_bool_iff. reflexivity.
    + apply seq_NoDup.
    + apply in_seq. lia.
    + intros x Hx Hd. apply in_seq in Hx. rewrite item_tabulate by lia.
      rewrite Hne; [reflexivity|lia|lia|]. intros Q0. injection Q0. auto.
  - apply seq_NoDup.
  - apply in_seq. lia.
  - intros y Hy Hd. apply in_seq in Hy. apply flat_map_all_nil. intros x Hx.
    apply in_seq in Hx. rewrite item_tabulate by lia.
    rewrite Hne; [reflexivity|lia|lia|]. intros Q0. injection Q0. auto.
Qed.

Lemma amax_unique (h w : nat) (f : nat -> nat -> Q) (i j : nat) :
  (i < h)%nat -> (j < w)%nat ->
  (forall y x, (y < h)%nat -> (x < w)%nat -> (y, x) <> (i, j) -> f y x < f i j) ->
  amax (tabulate h w f) = Ret (f i j).
Proof.
  intros Hi Hj Hmax.
  destruct (amax_tabulate h w f) as (m & Hm & Hle); try lia.
  rewrite Hm. f_equal.
  destruct (amax_tabulate_in h w f m Hm) as (y & x & Hy & Hx & ->).
  assert (G : f i j <= f y x).
  { apply (proj1 (Hle (f y x)) (Qle_refl _)); assumption. }
  destruct (Nat.eq_dec y i) as [->|Ny].
  - destruct (Nat.eq_dec x j) as [->|Nx]; [reflexivity|].
    exfalso. assert (L : f i x < f i j).
    { apply Hmax; try lia. intros Q0. injection Q0. auto. }
    lra.
  - exfalso. assert (L : f y x < f i j).
    { apply Hmax; try lia. intros Q0. injection Q0. auto. }
    lra.
Qed.

(** X10: when the sum of the frames has a unique brightest pixel, the seed
    handed to every refinement is that pixel, as (row, column). *)
Theorem estimate_global_center_unique_maximum (s : ElectronDiffraction) (i j : nat) :
  (i < snd (signal_shape s))%nat -> (j < fst (signal_shape s))%nat ->
  (forall y x, (y < snd (signal_shape s))%nat -> (x < fst (signal_shape s))%nat ->
               (y, x) <> (i, j) ->
               item 0 (signal_sum s) y x < item 0 (signal_sum s) i j) ->
  estimate_global_center s = Ret (Z.of_nat i, Z.of_nat j).
Proof.
  intros Hi Hj Hmax. unfold estimate_global_center. unfold signal_sum in *.
  set (H := snd (signal_shape s)) in *. set (W := fst (signal_shape s)) in *.
  set (f := fun i j => fold_left Qplus (map (fun z => item 0 z i j) (data s)) 0) in *.
  assert (Hmax' : forall y x, (y < H)%nat -> (x < W)%nat -> (y, x) <> (i, j) -> f y x < f i j).
  { intros y x Hy Hx Hne. specialize (Hmax y x Hy Hx Hne).
    rewrite !item_tabulate in Hmax by assumption. exact Hmax. }
  rewrite (amax_unique H W f i j Hi Hj Hmax'). cbn [bind].
  rewrite (where_eq_unique H W f i j Hi Hj Hmax').
  cbn [map fst snd]. rewrite !average_single. reflexivity.
Qed.

Lemma estimate_global_center_unique_maximum_witness :
  ((1 < snd (signal_shape spot_stack))%nat /\ (1 < fst (signal_shape spot_stack))%nat
   /\ (forall y x, (y < snd (signal_shape spot_stack))%nat ->
                   (x < fst (signal_shape spot_stack))%nat ->
                   (y, x) <> (1, 1)%nat ->
                   item 0 (signal_sum spot_stack) y x < item 0 (signal_sum spot_stack) 1 1))
  /\ estimate_global_center spot_stack = Ret (Z.of_nat 1, Z.of_nat 1).
Proof.
  assert (H1 : (1 < snd (signal_shape spot_stack))%nat) by (simpl; lia).
  assert (H2 : (1 < fst (signal_shape spot_stack))%nat) by (simpl; lia).
  assert (H3 : forall y x, (y < snd (signal_shape spot_stack))%nat ->
                           (x < fst (signal_shape spot_stack))%nat ->
                           (y, x) <> (1, 1)%nat ->
                           item 0 (signal_sum spot_stack) y x
                           < item 0 (signal_sum spot_stack) 1 1).
  { intros y x Hy Hx Hne. simpl in Hy, Hx.
    destruct y as [|[|[|y]]]; [| | |lia];
      (destruct x as [|[|[|x]]]; [| | |lia]);
      try reflexivity; exfalso; apply Hne; reflexivity. }
  split; [tauto|].
  exact (estimate_global_center_unique_maximum spot_stack 1 1 H1 H2 H3).
Defined.

(** ** [radial_average] *)

Lemma fold_Qplus_bounds (lo hi : Q) (l : list Q) :
  (forall x, In x l -> lo <= x /\ x <= hi) ->
  forall a, a + lo * NtoQ (length l) <= fold_left Qplus l a
            /\ fold_left Qplus l a <= a + hi * NtoQ (length l).
Proof.
  induction l as [|x l IH]; intros H a.
  - cbn [length fold_left]. assert (E : NtoQ 0 == 0) by reflexivity. rewrite E. split; lra.
  - destruct (H x (or_introl eq_refl)) as [Hlo Hhi].
    destruct (IH (fun y Hy => H y (or_intror Hy)) (a + x)) as [I1 I2].
    assert (E : NtoQ (length (x :: l)) == NtoQ (length l) + 1).
    { unfold NtoQ. cbn [length]. rewrite Nat2Z.inj_succ. unfold Z.succ.
      rewrite inject_Z_plus. reflexivity. }
    cbn [fold_left]. rewrite E. split; lra.
Qed.

Lemma mean_bounds (lo hi : Q) (l : list Q) :
  l <> [] -> (forall x, In x l -> lo <= x /\ x <= hi) ->
  lo <= Qsum l / NtoQ (length l) /\ Qsum l / NtoQ (length l) <= hi.
Proof.
  intros Hne H. destruct (fold_Qplus_bounds lo hi l H 0) as [I1 I2].
  assert (Hpos : 0 < NtoQ (length l)).
  { unfold NtoQ. change 0 with (inject_Z 0). rewrite <- Zlt_Qlt.
    destruct l; [contradiction|]. simpl. lia. }
  unfold Qsum. split.
  - apply Qle_shift_div_l; [exact Hpos|lra].
  - apply Qle_shift_div_r; [exact Hpos|lra].
Qed.

Lemma bin_value_bounds (z : frame) (center : Q * Q) (r : nat) (lo hi : Q) :
  (forall p, In p (bin_members z center r) -> lo <= intensity z p /\ intensity z p <= hi) ->
  match bin_members z center r with
  | [] => Nan
  | members => Num (Qsum (map (intensity z) members) / NtoQ (length members))
  end = Nan
  \/ exists v,
       match bin_members z center r with
       | [] => Nan
       | members => Num (Qsum (map (intensity z) members) / NtoQ (length members))
       end = Num v /\ lo <= v /\ v <= hi.
Proof.
  intros H. destruct (bin_members z center r) as [|m ms] eqn:E; [left; reflexivity|].
  right. eexists. split; [reflexivity|].
  rewrite <- (length_map (intensity z)). apply mean_bounds; [discriminate|].
  intros x Hx. apply in_map_iff in Hx. destruct Hx as (p & <- & Hp). apply H. exact Hp.
Qed.

Lemma pixels_nonempty {A : Type} (z : array2 A) (r : nat) (l : list npfloat) :
  (r < length l)%nat -> (pixels z = [] -> l = []) -> pixels z <> [].
Proof. intros Hr H E. rewrite (H E) in Hr. simpl in Hr. lia. Qed.

(** X11: every bin of the profile that holds a number lies between the least
    and the greatest intensity of the frame. *)
Theorem radial_average_range (h w : nat) (z : frame) (center : Q * Q) (lo hi : Q) (r : nat) :
  rectangular h w z ->
  (forall p, In p (pixels z) -> lo <= intensity z p /\ intensity z p <= hi) ->
  (r < length (radial_average z center))%nat ->
  nth r (radial_average z center) Nan = Nan
  \/ exists v, nth r (radial_average z center) Nan = Num v /\ lo <= v /\ v <= hi.
Proof.
  intros R H Hr.
  assert (Hne : pixels z <> []).
  { apply (pixels_nonempty z r _ Hr). apply radial_average_no_pixels. }
  destruct (radial_average_bins h w z center R Hne) as [_ Hb]. rewrite (Hb r Hr).
  apply bin_value_bounds. intros p Hp. apply H.
  unfold bin_members in Hp. apply filter_In in Hp. tauto.
Qed.

Lemma radial_average_range_witness :
  (rectangular 1 3 ramp
   /\ (forall p, In p (pixels ramp) -> 1 <= intensity ramp p /\ intensity ramp p <= 3)
   /\ (5 < length (radial_average ramp far_corner))%nat)
  /\ (nth 5 (radial_average ramp far_corner) Nan = Nan
      \/ exists v, nth 5 (radial_average ramp far_corner) Nan = Num v /\ 1 <= v /\ v <= 3).
Proof.
  assert (H1 : rectangular 1 3 ramp) by (split; [reflexivity|repeat constructor]).
  assert (H2 : forall p, In p (pixels ramp) -> 1 <= intensity ramp p /\ intensity ramp p <= 3).
  { intros p Hp. vm_compute in Hp.
    repeat (destruct Hp as [<-|Hp]; [split; apply Qle_bool_iff; reflexivity|]).
    destruct Hp. }
  assert (H3 : (5 < length (radial_average ramp far_corner))%nat) by (vm_compute; lia).
  split; [tauto|].
  exact (radial_average_range 1 3 ramp far_corner 1 3 5 H1 H2 H3).
Defined.



Lemma last_nth_pred {A : Type} (l : list A) (d : A) :
  last l d = nth (Nat.pred (length l)) l d.
Proof.
  induction l as [|x l IH]; [reflexivity|].
  destruct l as [|y l']; [reflexivity|].
  change (last (x :: y :: l') d) with (last (y :: l') d). rewrite IH. reflexivity.
Qed.

(** X13: a frame without pixels gives an empty profile; otherwise the last
    bin of the profile holds a number (it is never nan). *)
Theorem radial_average_last_bin (h w : nat) (z : frame) (center : Q * Q) :
  rectangular h w z ->
  (pixels z = [] /\ radial_average z center = [])
  \/ exists v, last (radial_average z center) Nan = Num v.
Proof.
  intros R. destruct (pixels z) as [|p0 ps] eqn:Epx.
  - left. split; [reflexivity|]. apply radial_average_no_pixels. exact Epx.
  - right. assert (Hne : pixels z <> []) by (rewrite Epx; discriminate).
    destruct (radial_average_bins h w z center R Hne) as [Hl Hb].
    set (top := list_max (map (distance_bin center) (pixels z))) in *.
    assert (Hlast : last (radial_average z center) Nan = nth top (radial_average z center) Nan).
    { rewrite last_nth_pred, Hl. reflexivity. }
    rewrite Hlast, (Hb top) by lia.
    assert (Hin : In top (map (distance_bin center) (pixels z))).
    { apply list_max_in. rewrite Epx. discriminate. }
    apply in_map_iff in Hin. destruct Hin as (p & Hp & Hpin).
    destruct (bin_members z center top) as [|m ms] eqn:Em.
    + exfalso. assert (Hm : In p (bin_members z center top)).
      { unfold bin_members. apply filter_In. split; [exact Hpin|]. apply Nat.eqb_eq. exact Hp. }
      rewrite Em in Hm. destruct Hm.
    + eexists. reflexivity.
Qed.

Lemma radial_average_last_bin_witness :
  rectangular 1 3 ramp
  /\ ((pixels ramp = [] /\ radial_average ramp far_corner = [])
      \/ exists v, last (radial_average ramp far_corner) Nan = Num v).
Proof.
  assert (H1 : rectangular 1 3 ramp) by (split; [reflexivity|repeat constructor]).
  split; [exact H1|].
  exact (radial_average_last_bin 1 3 ramp far_corner H1).
Defined.

(** X14: about the centre (row [i], column [j]) of a pixel of the frame, bin 0
    holds that pixel alone. *)
Theorem radial_average_centre_bin (h w : nat) (z : frame) (i j : nat) :
  rectangular h w z -> (i < h)%nat -> (j < w)%nat ->
  exists v, nth 0 (radial_average z (NtoQ i, NtoQ j)) Nan = Num v
            /\ v == item 0 z i j.
Proof.
  intros R Hi Hj.
  assert (Hs : shape z = (h, w)) by (apply rectangular_shape; [exact R|lia]).
  assert (Hc : In (i, j) (pixels z)).
  { apply in_pixels. rewrite Hs. cbn [fst snd]. lia. }
  assert (Hne : pixels z <> []) by (intros E; rewrite E in Hc; destruct Hc).
  destruct (radial_average_bins h w z (NtoQ i, NtoQ j) R Hne) as [Hl Hb].
  rewrite (Hb 0%nat) by lia.
  assert (H0 : forall p, In p (bin_members z (NtoQ i, NtoQ j) 0) -> p = (i, j)).
  { intros [y x] Hp. unfold bin_members in Hp. apply filter_In in Hp. destruct Hp as [_ Hd].
    apply Nat.eqb_eq in Hd. apply distance_bin_spec in Hd. destruct Hd as [_ Hd].
    cbn [fst snd] in Hd.
    assert (E : (NtoQ x - NtoQ j) ^ 2 + (NtoQ y - NtoQ i) ^ 2
                == inject_Z ((Z.of_nat x - Z.of_nat j) * (Z.of_nat x - Z.of_nat j)
                             + (Z.of_nat y - Z.of_nat i) * (Z.of_nat y - Z.of_nat i))).
    { unfold NtoQ. rewrite inject_Z_plus, !inject_Z_mult. unfold Z.sub.
      rewrite !inject_Z_plus, !inject_Z_opp. ring. }
    rewrite E in Hd.
    assert (E1 : (NtoQ 0 + 1) ^ 2 == inject_Z 1) by reflexivity.
    rewrite E1 in Hd. rewrite <- Zlt_Qlt in Hd.
    set (dx := (Z.of_nat x - Z.of_nat j)%Z) in *. set (dy := (Z.of_nat y - Z.of_nat i)%Z) in *.
    assert (Hx0 : dx = 0%Z).
    { destruct (Z.eq_dec dx 0) as [E0|N0]; [exact E0|exfalso].
      assert (1 <= dx * dx)%Z by nia. assert (0 <= dy * dy)%Z by nia. lia. }
    assert (Hy0 : dy = 0%Z).
    { destruct (Z.eq_dec dy 0) as [E0|N0]; [exact E0|exfalso].
      assert (1 <= dy * dy)%Z by nia. assert (0 <= dx * dx)%Z by nia. lia. }
    unfold dx, dy in *. f_equal; lia. }
  assert (Hm : In (i, j) (bin_members z (NtoQ i, NtoQ j) 0)).
  { unfold bin_members. apply filter_In. split; [exact Hc|]. apply Nat.eqb_eq.
    apply distance_bin_spec. cbn [fst snd].
    assert (E : (NtoQ j - NtoQ j) ^ 2 + (NtoQ i - NtoQ i) ^ 2 == 0) by ring.
    rewrite E. split; [apply Qle_refl|reflexivity]. }
  destruct (bin_value_bounds z (NtoQ i, NtoQ j) 0 (item 0 z i j) (item 0 z i j))
    as [E|(v & E & L1 & L2)].
  - intros p Hp. rewrite (H0 p Hp). unfold intensity. cbn [fst snd]. split; apply Qle_refl.
  - exfalso. destruct (bin_members z (NtoQ i, NtoQ j) 0); [destruct Hm|discriminate].
  - exists v. split; [exact E|]. apply Qle_antisym; assumption.
Qed.

Lemma radial_average_centre_bin_witness :
  (rectangular 3 3 spot /\ (1 < 3)%nat /\ (1 < 3)%nat)
  /\ exists v, nth 0 (radial_average spot (NtoQ 1, NtoQ 1)) Nan = Num v
               /\ v == item 0 spot 1 1.
Proof.
  assert (H1 : rectangular 3 3 spot) by (split; [reflexivity|repeat constructor]).
  assert (H2 : (1 < 3)%nat) by lia.
  split; [tauto|].
  exact (radial_average_centre_bin 3 3 spot 1 1 H1 H2 H2).
Defined.

(** ** [get_radial_profile] *)

Lemma center_at_row (c : ndarray) (k index : nat) :
  nd_shape c = [k; 2%nat] -> (index < k)%nat -> center_at c index = Ret (get_row c index).
Proof.
  intros Hs Hi. unfold center_at, get_row. rewrite Hs.
  replace (index <? k)%nat with true by (symmetry; apply Nat.ltb_lt; exact Hi).
  cbn [Nat.leb]. rewrite (Nat.mul_comm index 2). reflexivity.
Qed.

Lemma in_combine_seq {A : Type} (l : list A) (x : A) (i : nat) :
  In (x, i) (combine l (seq 0 (length l))) -> (i < length l)%nat.
Proof. intros H. apply in_combine_r in H. apply in_seq in H. lia. Qed.

(** X15: centres supplied as an array of more than one item, which every
    array of shape (k, 2) with k >= 1 is, stop the call on line 333: the
    comparison [centers == None] is made item by item and has no truth
    value, so ValueError is raised for every stack and the centres are
    not used. *)
Theorem get_radial_profile_centers_ambiguous (fuel : nat) (s : ElectronDiffraction)
        (c : ndarray) :
  (1 < nd_size c)%nat ->
  get_radial_profile fuel s (Some c) = Raise ambiguous_truth.
Proof.
  intros Hc. unfold get_radial_profile, eq_None.
  rewrite array_truth_many by exact Hc. reflexivity.
Qed.

Lemma get_radial_profile_centers_ambiguous_witness :
  (1 < nd_size two_centers)%nat
  /\ get_radial_profile 0 spot_stack (Some two_centers) = Raise ambiguous_truth.
Proof.
  assert (H1 : (1 < nd_size two_centers)%nat) by (unfold nd_size; simpl; lia).
  split; [exact H1|].
  exact (get_radial_profile_centers_ambiguous 0 spot_stack two_centers H1).
Defined.

(** An array of one item holds no pair of coordinates. *)
Lemma center_at_one_item (c : ndarray) :
  nd_size c = 1%nat -> center_at c 0 = Raise IndexError.
Proof.
  unfold nd_size, center_at. destruct (nd_shape c) as [|k [|m rest]]; intros H.
  - reflexivity.
  - reflexivity.
  - cbn [fold_right] in H. apply Nat.eq_mul_1 in H. destruct H as [-> H].
    apply Nat.eq_mul_1 in H. destruct H as [-> _].
    destruct rest; reflexivity.
Qed.

(** X16: an array of a single item passes the comparison of line 333 and
    is used as the centres, but holds no pair of coordinates: on a stack
    that is not empty the call raises IndexError at the first frame. *)
Theorem get_radial_profile_one_item (fuel : nat) (s : ElectronDiffraction) (c : ndarray) :
  nd_size c = 1%nat -> data s <> [] ->
  get_radial_profile fuel s (Some c) = Raise IndexError.
Proof.
  intros Hc Hne. unfold get_radial_profile, eq_None, navigation_size.
  rewrite Hc. cbn [array_truth bind].
  destruct (data s) as [|z rest]; [contradiction|].
  cbn [length seq combine for_each fst snd].
  rewrite (center_at_one_item c Hc). reflexivity.
Qed.

Lemma get_radial_profile_one_item_witness :
  (nd_size lone_item = 1%nat /\ data spot_stack <> [])
  /\ get_radial_profile 0 spot_stack (Some lone_item) = Raise IndexError.
Proof.
  assert (H1 : nd_size lone_item = 1%nat) by reflexivity.
  assert (H2 : data spot_stack <> []) by discriminate.
  split; [tauto|].
  exact (get_radial_profile_one_item 0 spot_stack lone_item H1 H2).
Defined.

(** X17: without centres the call behaves as
    [get_direct_beam_position(radius=10)] followed by the averaging of every
    frame about its row of the result; the rows found always suffice, so no
    IndexError arises from the indexing. *)
Theorem get_radial_profile_default (fuel : nat) (s : ElectronDiffraction) :
  get_radial_profile fuel s None
  = bind (get_direct_beam_position fuel s 10) (fun c => Ret (profiles_about s c)).
Proof.
  unfold get_radial_profile, eq_None. cbn [bind].
  destruct (get_direct_beam_position fuel s 10) as [c| | |] eqn:Hc; cbn [bind]; try reflexivity.
  apply get_direct_beam_position_rows in Hc. destruct Hc as (Hs & _).
  unfold profiles_about. apply for_each_map. intros [z i] Hin. cbn [fst snd].
  apply in_combine_seq in Hin.
  rewrite (center_at_row c (navigation_size s) i Hs) by exact Hin. reflexivity.
Qed.

(** ** [get_direct_beam_mask] *)

(** X18: for every radius and centre the beam mask has the array shape of the
    frames of the stack (height rows, width columns), so a frame multiplies
    with it item by item. *)
Theorem get_direct_beam_mask_fits (s : ElectronDiffraction) (radius : Q)
        (center : option (Q * Q)) (z : frame) :
  rectangular (snd (signal_shape s)) (fst (signal_shape s)) z ->
  (0 < snd (signal_shape s))%nat ->
  shape (get_direct_beam_mask s radius center) = shape z
  /\ mul_mask z (get_direct_beam_mask s radius center)
     = Ret (masked (snd (signal_shape s)) (fst (signal_shape s)) z
                   (get_direct_beam_mask s radius center)).
Proof.
  intros R Hh. destruct s as [frames [W H]]. cbn [signal_shape fst snd] in *.
  assert (Hm : shape (get_direct_beam_mask (mkSignal frames (W, H)) radius center) = (H, W)).
  { unfold get_direct_beam_mask. cbn [signal_shape]. apply circular_mask_shape. exact Hh. }
  assert (Hz : shape z = (H, W)) by (apply rectangular_shape; assumption).
  split; [congruence|]. apply mul_mask_same_shape; assumption.
Qed.

Lemma get_direct_beam_mask_fits_witness :
  (rectangular (snd (signal_shape wide_stack)) (fst (signal_shape wide_stack)) wide
   /\ (0 < snd (signal_shape wide_stack))%nat)
  /\ shape (get_direct_beam_mask wide_stack 1 None) = shape wide
  /\ mul_mask wide (get_direct_beam_mask wide_stack 1 None)
     = Ret (masked (snd (signal_shape wide_stack)) (fst (signal_shape wide_stack)) wide
                   (get_direct_beam_mask wide_stack 1 None)).
Proof.
  assert (H1 : rectangular (snd (signal_shape wide_stack)) (fst (signal_shape wide_stack)) wide)
    by (split; [reflexivity|repeat constructor]).
  assert (H2 : (0 < snd (signal_shape wide_stack))%nat) by (simpl; lia).
  split; [tauto|].
  exact (get_direct_beam_mask_fits wide_stack 1 None wide H1 H2).
Defined.

Lemma NtoQ_mirror (n k : nat) : (k < n)%nat -> NtoQ (n - 1 - k) == NtoQ n - 1 - NtoQ k.
Proof.
  intros Hk. unfold NtoQ. change 1 with (inject_Z 1). unfold Qminus.
  rewrite <- !inject_Z_opp, <- !inject_Z_plus. apply inject_Z_injective. lia.
Qed.

(** X19: the default centre is column (H - 1) / 2, row (W - 1) / 2 for a
    signal of width [W] and height [H]: the default mask is unchanged by the
    reflection (y, x) -> (W - 1 - y, H - 1 - x) wherever both positions lie
    in the frame. On a square signal this is the symmetry about the frame
    centre; otherwise the two coordinates are exchanged. *)
Theorem get_direct_beam_mask_default_symmetry (s : ElectronDiffraction) (radius : Q)
        (W H y x : nat) :
  signal_shape s = (W, H) ->
  (y < H)%nat -> (y < W)%nat -> (W - 1 - y < H)%nat ->
  (x < W)%nat -> (x < H)%nat -> (H - 1 - x < W)%nat ->
  item false (get_direct_beam_mask s radius None) (W - 1 - y) (H - 1 - x)
  = item false (get_direct_beam_mask s radius None) y x.
Proof.
  intros Hs Hy1 Hy2 Hy3 Hx1 Hx2 Hx3. unfold get_direct_beam_mask. rewrite Hs. cbn [fst snd].
  rewrite !circular_mask_item by (cbn [fst snd]; lia). cbn [fst snd].
  apply Qle_bool_ext; [|reflexivity].
  rewrite !NtoQ_mirror by assumption. field.
Qed.

Lemma get_direct_beam_mask_default_symmetry_witness :
  (signal_shape wide_stack = (3, 2)%nat
   /\ (1 < 2)%nat /\ (1 < 3)%nat /\ (3 - 1 - 1 < 2)%nat
   /\ (0 < 3)%nat /\ (0 < 2)%nat /\ (2 - 1 - 0 < 3)%nat)
  /\ item false (get_direct_beam_mask wide_stack 1 None) (3 - 1 - 1) (2 - 1 - 0)
     = item false (get_direct_beam_mask wide_stack 1 None) 1 0.
Proof.
  assert (H0 : signal_shape wide_stack = (3, 2)%nat) by reflexivity.
  assert (H1 : (1 < 2)%nat) by lia.
  assert (H2 : (1 < 3)%nat) by lia.
  assert (H3 : (3 - 1 - 1 < 2)%nat) by (simpl; lia).
  assert (H4 : (0 < 3)%nat) by lia.
  assert (H5 : (0 < 2)%nat) by lia.
  assert (H6 : (2 - 1 - 0 < 3)%nat) by (simpl; lia).
  split; [tauto|].
  exact (get_direct_beam_mask_default_symmetry wide_stack 1 3 2 1 0 H0 H1 H2 H3 H4 H5 H6).
Defined.

(** ** [get_vacuum_mask] *)

Lemma get_vacuum_mask_returns (s : ElectronDiffraction) (nav : list nat) (radius : Q)
      (center : option (Q * Q)) (threshold : Q) (closing opening : bool) :
  well_shaped s ->
  (0 < fst (signal_shape s))%nat -> (0 < snd (signal_shape s))%nat ->
  get_vacuum_mask s nav radius center threshold closing opening
  = Ret (morphology_cleanup nav closing opening (raw_vacuum s radius center threshold)).
Proof.
  intros Hwf HW HH. unfold get_vacuum_mask, raw_vacuum.
  set (H := snd (signal_shape s)) in *. set (W := fst (signal_shape s)) in *.
  set (beam := get_direct_beam_mask s radius center).
  assert (Rb : rectangular H W beam).
  { unfold beam, get_direct_beam_mask, H, W. destruct (signal_shape s) as [W0 H0].
    apply circular_mask_rectangular. }
  pose proof (invert_rectangular H W beam Rb) as Ri.
  set (keep := invert beam) in *.
  rewrite (for_each_map _ (fun z => masked H W z keep)).
  2:{ intros z Hz. unfold well_shaped in Hwf. rewrite Forall_forall in Hwf.
      specialize (Hwf z Hz). fold H W in Hwf.
      apply mul_mask_same_shape; apply rectangular_shape; auto. }
  cbn [bind].
  rewrite (for_each_map _ peak).
  2:{ intros zt Hzt. apply in_map_iff in Hzt. destruct Hzt as (z & <- & _).
      unfold peak, masked.
      destruct (amax_tabulate H W (fun y x => item 0 z y x * b2q (item false keep y x)) HH HW)
        as (m & -> & _). reflexivity. }
  cbn [bind]. rewrite !map_map. reflexivity.
Qed.

Lemma length_binary_dilation (m : list bool) (nav : list nat) (bv : bool) :
  length (binary_dilation m nav bv) = length m.
Proof. unfold binary_dilation. rewrite length_map, length_seq. reflexivity. Qed.

Lemma length_binary_erosion (m : list bool) (nav : list nat) (bv : bool) :
  length (binary_erosion m nav bv) = length m.
Proof. unfold binary_erosion. rewrite length_map, length_seq. reflexivity. Qed.

Lemma nth_binary_dilation (m : list bool) (nav : list nat) (bv : bool) (i : nat) :
  (i < length m)%nat ->
  nth i (binary_dilation m nav bv) false = existsb (fun b => b) (neighbours m nav bv i).
Proof.
  intros Hi. unfold binary_dilation.
  rewrite (nth_map_lt 0%nat) by (rewrite length_seq; exact Hi).
  rewrite seq_nth by exact Hi. reflexivity.
Qed.

Lemma nth_binary_erosion (m : list bool) (nav : list nat) (bv : bool) (i : nat) :
  (i < length m)%nat ->
  nth i (binary_erosion m nav bv) false = forallb (fun b => b) (neighbours m nav bv i).
Proof.
  intros Hi. unfold binary_erosion.
  rewrite (nth_map_lt 0%nat) by (rewrite length_seq; exact Hi).
  rewrite seq_nth by exact Hi. reflexivity.
Qed.

Lemma nth_true_lt (m : list bool) (i : nat) : nth i m false = true -> (i < length m)%nat.
Proof.
  intros H. destruct (Nat.lt_ge_cases i (length m)) as [L|G]; [exact L|].
  rewrite nth_overflow in H by exact G. discriminate.
Qed.

(** A position read with a border value: inside the mask it is the item,
    outside it is the border. *)
Lemma nth_border (m : list bool) (bv : bool) (k : nat) :
  nth k m bv = if (k <? length m)%nat then nth k m false else bv.
Proof.
  destruct (k <? length m)%nat eqn:E.
  - apply Nat.ltb_lt in E. apply nth_indep. exact E.
  - apply Nat.ltb_ge in E. apply nth_overflow. exact E.
Qed.

Lemma nth_border_le (a b : list bool) (bv : bool) (k : nat) :
  mask_le a b -> nth k a bv = true -> nth k b bv = true.
Proof.
  intros [Hl H]. rewrite (nth_border a bv), (nth_border b bv), <- Hl.
  destruct (k <? length a)%nat; auto.
Qed.

(** The neighbours of a position: the position itself and, for every axis,
    the position before and the position after it, or the border. *)
Lemma in_neighbours (m : list bool) (nav : list nat) (bv : bool) (k : nat) (b : bool) :
  In b (neighbours m nav bv k)
  <-> b = nth k m bv
      \/ exists ax, In ax (axes nav)
           /\ (b = (if (coordinate ax k =? 0)%nat then bv else nth (k - snd ax) m bv)
               \/ b = (if (S (coordinate ax k) <? fst ax)%nat then nth (k + snd ax) m bv
                       else bv)).
Proof.
  unfold neighbours. cbn [In]. rewrite in_flat_map. split.
  - intros [E|(ax & Hax & Hin)]; [left; symmetry; exact E|right].
    exists ax. split; [exact Hax|]. cbn [In] in Hin.
    destruct Hin as [E|[E|[]]]; [left|right]; symmetry; exact E.
  - intros [E|(ax & Hax & Hin)]; [left; symmetry; exact E|right].
    exists ax. split; [exact Hax|]. cbn [In].
    destruct Hin as [E|E]; [left|right; left]; symmetry; exact E.
Qed.

Lemma neighbours_le (a b : list bool) (nav : list nat) (bv : bool) (k : nat) (x : bool) :
  mask_le a b -> In x (neighbours a nav bv k) -> x = true ->
  In true (neighbours b nav bv k).
Proof.
  intros Hle Hin ->. apply in_neighbours in Hin. apply in_neighbours.
  destruct Hin as [E|(ax & Hax & [E|E])].
  - left. symmetry. apply (nth_border_le a b bv k Hle). symmetry. exact E.
  - right. exists ax. split; [exact Hax|]. left.
    destruct (coordinate ax k =? 0)%nat; [exact E|].
    symmetry. apply (nth_border_le a b bv _ Hle). symmetry. exact E.
  - right. exists ax. split; [exact Hax|]. right.
    destruct (S (coordinate ax k) <? fst ax)%nat; [|exact E].
    symmetry. apply (nth_border_le a b bv _ Hle). symmetry. exact E.
Qed.

Lemma existsb_id (l : list bool) : existsb (fun b => b) l = true <-> In true l.
Proof.
  rewrite existsb_exists. split.
  - intros (x & Hx & ->). exact Hx.
  - intros H. exists true. split; [exact H|reflexivity].
Qed.

Lemma forallb_id (l : list bool) : forallb (fun b => b) l = true <-> ~ In false l.
Proof.
  rewrite forallb_forall. split.
  - intros H Hin. specialize (H false Hin). discriminate.
  - intros H x Hx. destruct x; [reflexivity|contradiction].
Qed.

Lemma binary_dilation_le (a b : list bool) (nav : list nat) (bv : bool) :
  mask_le a b -> mask_le (binary_dilation a nav bv) (binary_dilation b nav bv).
Proof.
  intros Hle. pose proof Hle as [Hl H]. split.
  - rewrite !length_binary_dilation. exact Hl.
  - intros i Hi. pose proof (nth_true_lt _ _ Hi) as Hlt.
    rewrite length_binary_dilation in Hlt.
    rewrite nth_binary_dilation in * by lia.
    apply existsb_id in Hi. apply existsb_id.
    apply (neighbours_le a b nav bv i true Hle Hi eq_refl).
Qed.

Lemma neighbours_false (a b : list bool) (nav : list nat) (bv : bool) (k : nat) :
  mask_le a b -> In false (neighbours b nav bv k) -> In false (neighbours a nav bv k).
Proof.
  intros Hle Hin. apply in_neighbours in Hin. apply in_neighbours.
  assert (N : forall q, false = nth q b bv -> false = nth q a bv).
  { intros q E. destruct (nth q a bv) eqn:Ea; [|reflexivity].
    rewrite (nth_border_le a b bv q Hle Ea) in E. discriminate. }
  destruct Hin as [E|(ax & Hax & [E|E])].
  - left. apply N. exact E.
  - right. exists ax. split; [exact Hax|]. left.
    destruct (coordinate ax k =? 0)%nat; [exact E|]. apply N. exact E.
  - right. exists ax. split; [exact Hax|]. right.
    destruct (S (coordinate ax k) <? fst ax)%nat; [|exact E]. apply N. exact E.
Qed.

Lemma binary_erosion_le (a b : list bool) (nav : list nat) (bv : bool) :
  mask_le a b -> mask_le (binary_erosion a nav bv) (binary_erosion b nav bv).
Proof.
  intros Hle. pose proof Hle as [Hl H]. split.
  - rewrite !length_binary_erosion. exact Hl.
  - intros i Hi. pose proof (nth_true_lt _ _ Hi) as Hlt.
    rewrite length_binary_erosion in Hlt.
    rewrite nth_binary_erosion in * by lia.
    apply forallb_id in Hi. apply forallb_id. intros Hin. apply Hi.
    apply (neighbours_false a b nav bv i Hle Hin).
Qed.

Lemma morphology_cleanup_le (nav : list nat) (closing opening : bool) (a b : list bool) :
  mask_le a b -> mask_le (morphology_cleanup nav closing opening a)
                         (morphology_cleanup nav closing opening b).
Proof.
  intros H. unfold morphology_cleanup.
  assert (Hc : mask_le (if closing then binary_erosion (binary_dilation a nav false) nav true
                        else a)
                       (if closing then binary_erosion (binary_dilation b nav false) nav true
                        else b)).
  { destruct closing; [|exact H]. apply binary_erosion_le, binary_dilation_le, H. }
  destruct opening; [|exact Hc]. apply binary_dilation_le, binary_erosion_le, Hc.
Qed.

Lemma length_morphology_cleanup (nav : list nat) (closing opening : bool) (a : list bool) :
  length (morphology_cleanup nav closing opening a) = length a.
Proof.
  unfold morphology_cleanup.
  destruct closing, opening;
    rewrite ?length_binary_dilation, ?length_binary_erosion, ?length_binary_dilation,
            ?length_binary_erosion; reflexivity.
Qed.

(** X20: raising the threshold never clears a flag: for [t1 <= t2] both calls
    return, with one flag per frame, and every frame flagged with [t1] is
    flagged with [t2], whatever the navigation shape and the closing and
    opening options. *)
Theorem get_vacuum_mask_threshold_monotone (s : ElectronDiffraction) (nav : list nat)
        (radius : Q) (center : option (Q * Q)) (t1 t2 : Q) (closing opening : bool) :
  well_shaped s ->
  (0 < fst (signal_shape s))%nat -> (0 < snd (signal_shape s))%nat ->
  t1 <= t2 ->
  exists m1 m2,
    get_vacuum_mask s nav radius center t1 closing opening = Ret m1
    /\ get_vacuum_mask s nav radius center t2 closing opening = Ret m2
    /\ length m1 = navigation_size s
    /\ mask_le m1 m2.
Proof.
  intros Hwf HW HH Ht.
  rewrite !get_vacuum_mask_returns by assumption.
  eexists. eexists. split; [reflexivity|]. split; [reflexivity|].
  assert (Hraw : mask_le (raw_vacuum s radius center t1) (raw_vacuum s radius center t2)).
  { unfold raw_vacuum. split; [rewrite !length_map; reflexivity|].
    intros i Hi. pose proof (nth_true_lt _ _ Hi) as Hlt. rewrite length_map in Hlt.
    rewrite (nth_map_lt ([] : frame)) in * by exact Hlt.
    apply Qle_bool_iff. apply Qle_bool_iff in Hi. eapply Qle_trans; eauto. }
  split; [|apply morphology_cleanup_le; exact Hraw].
  rewrite length_morphology_cleanup. unfold raw_vacuum, navigation_size.
  apply length_map.
Qed.

Lemma get_vacuum_mask_threshold_monotone_witness :
  (well_shaped grid_stack
   /\ (0 < fst (signal_shape grid_stack))%nat
   /\ (0 < snd (signal_shape grid_stack))%nat
   /\ 3 <= 4)
  /\ exists m1 m2,
       get_vacuum_mask grid_stack [2; 2]%nat 1 (Some middle) 3 true true = Ret m1
       /\ get_vacuum_mask grid_stack [2; 2]%nat 1 (Some middle) 4 true true = Ret m2
       /\ length m1 = navigation_size grid_stack
       /\ mask_le m1 m2.
Proof.
  assert (Hw : well_shaped grid_stack) by (repeat constructor).
  assert (H1 : (0 < fst (signal_shape grid_stack))%nat) by (simpl; lia).
  assert (H2 : (0 < snd (signal_shape grid_stack))%nat) by (simpl; lia).
  assert (H3 : 3 <= 4) by (apply Qle_bool_iff; reflexivity).
  split; [tauto|].
  exact (get_vacuum_mask_threshold_monotone grid_stack [2; 2]%nat 1 (Some middle) 3 4
           true true Hw H1 H2 H3).
Defined.

(** Along an axis of positive extent and stride, the position after [k]
    has the next coordinate and the position before it the previous one. *)
Lemma coordinate_after (e st k : nat) :
  (0 < st)%nat -> (S (coordinate (e, st) k) < e)%nat ->
  coordinate (e, st) (k + st) = S (coordinate (e, st) k).
Proof.
  unfold coordinate. cbn [fst snd]. intros Hst Hc.
  replace (k + st)%nat with (k + 1 * st)%nat by lia.
  rewrite Nat.div_add by lia.
  set (x := (k / st)%nat) in *.
  symmetry. apply (Nat.mod_unique (x + 1) e (x / e)); [exact Hc|].
  pose proof (Nat.div_mod_eq x e). lia.
Qed.

Lemma coordinate_before (e st k : nat) :
  (0 < e)%nat -> (0 < st)%nat -> coordinate (e, st) k <> 0%nat ->
  (st <= k)%nat /\ S (coordinate (e, st) (k - st)) = coordinate (e, st) k.
Proof.
  unfold coordinate. cbn [fst snd]. intros He Hst Hc.
  assert (Hk : (st <= k)%nat).
  { destruct (Nat.lt_ge_cases k st) as [L|G]; [|exact G].
    rewrite (Nat.div_small k st L) in Hc. rewrite Nat.Div0.mod_0_l in Hc. contradiction. }
  split; [exact Hk|].
  assert (E : (k / st = (k - st) / st + 1)%nat).
  { replace k with ((k - st) + 1 * st)%nat at 1 by lia. apply Nat.div_add. lia. }
  rewrite E in *. set (x := ((k - st) / st)%nat) in *.
  pose proof (Nat.mod_upper_bound (x + 1) e ltac:(lia)) as Hub.
  assert (Hx : ((x + 1) mod e - 1 = x mod e)%nat).
  { apply (Nat.mod_unique x e ((x + 1) / e) ((x + 1) mod e - 1)); [lia|].
    pose proof (Nat.div_mod_eq (x + 1) e). lia. }
  lia.
Qed.

Lemma axes_positive (nav : list nat) (ax : nat * nat) :
  (0 < grid_size nav)%nat -> In ax (axes nav) -> (0 < fst ax)%nat /\ (0 < snd ax)%nat.
Proof.
  induction nav as [|d rest IH]; intros H Hin; [destruct Hin|].
  unfold grid_size in *. cbn [fold_right] in H. cbn [axes In] in Hin.
  assert (Hd : (0 < d)%nat) by (destruct d; lia).
  assert (Hr : (0 < fold_right Nat.mul 1%nat rest)%nat)
    by (destruct (fold_right Nat.mul 1%nat rest); lia).
  destruct Hin as [<-|Hin]; [cbn [fst snd]; split; assumption|].
  apply IH; assumption.
Qed.

Lemma dilation_true_at (m : list bool) (nav : list nat) (q : nat) (bv : bool) :
  (q < length m)%nat -> In true (neighbours m nav false q) ->
  nth q (binary_dilation m nav false) bv = true.
Proof.
  intros Hq Hin.
  rewrite (nth_indep _ bv false) by (rewrite length_binary_dilation; exact Hq).
  rewrite nth_binary_dilation by exact Hq. apply existsb_id. exact Hin.
Qed.

Lemma erosion_true_at (m : list bool) (nav : list nat) (q : nat) :
  nth q (binary_erosion m nav true) false = true ->
  (q < length m)%nat /\ forall b, In b (neighbours m nav true q) -> b = true.
Proof.
  intros H. pose proof (nth_true_lt _ _ H) as Hq. rewrite length_binary_erosion in Hq.
  split; [exact Hq|]. rewrite nth_binary_erosion in H by exact Hq.
  apply forallb_id in H. intros b Hb. destruct b; [reflexivity|contradiction].
Qed.

(** Closing only adds flags. *)
Lemma closing_extensive (m : list bool) (nav : list nat) :
  length m = grid_size nav ->
  mask_le m (binary_erosion (binary_dilation m nav false) nav true).
Proof.
  intros Hn. split; [rewrite length_binary_erosion, length_binary_dilation; reflexivity|].
  intros i Hi. pose proof (nth_true_lt _ _ Hi) as Hlt.
  assert (Hpos : (0 < grid_size nav)%nat) by lia.
  rewrite nth_binary_erosion by (rewrite length_binary_dilation; exact Hlt).
  apply forallb_id. intros Hin. apply in_neighbours in Hin.
  assert (Hself : forall q, In (nth q m false) (neighbours m nav false q)).
  { intros q. apply in_neighbours. left. reflexivity. }
  destruct Hin as [E|([e st] & Hax & [E|E])].
  - rewrite (dilation_true_at m nav i true Hlt) in E; [discriminate|].
    rewrite <- Hi. apply Hself.
  - destruct (axes_positive nav (e, st) Hpos Hax) as [He Hst]. cbn [fst snd] in *.
    destruct (coordinate (e, st) i =? 0)%nat eqn:Ec; [discriminate|].
    apply Nat.eqb_neq in Ec.
    destruct (coordinate_before e st i He Hst Ec) as [Hk Hq].
    rewrite (dilation_true_at m nav (i - st) true) in E; [discriminate|lia|].
    apply in_neighbours. right. exists (e, st). split; [exact Hax|]. right. cbn [fst snd].
    replace (S (coordinate (e, st) (i - st)) <? e)%nat with true.
    + replace (i - st + st)%nat with i by lia. symmetry. exact Hi.
    + symmetry. apply Nat.ltb_lt. rewrite Hq. unfold coordinate. cbn [fst snd].
      apply Nat.mod_upper_bound. lia.
  - destruct (axes_positive nav (e, st) Hpos Hax) as [He Hst]. cbn [fst snd] in *.
    destruct (S (coordinate (e, st) i) <? e)%nat eqn:Ec; [|discriminate].
    apply Nat.ltb_lt in Ec.
    destruct (Nat.lt_ge_cases (i + st) (length m)) as [L|G].
    + rewrite (dilation_true_at m nav (i + st) true L) in E; [discriminate|].
      apply in_neighbours. right. exists (e, st). split; [exact Hax|]. left. cbn [fst snd].
      rewrite (coordinate_after e st i Hst Ec). cbn [Nat.eqb].
      replace (i + st - st)%nat with i by lia. symmetry. exact Hi.
    + rewrite nth_overflow in E by (rewrite length_binary_dilation; exact G). discriminate.
Qed.

(** Opening only removes flags. *)
Lemma opening_anti_extensive (m : list bool) (nav : list nat) :
  length m = grid_size nav ->
  mask_le (binary_dilation (binary_erosion m nav true) nav false) m.
Proof.
  intros Hn. split; [rewrite length_binary_dilation, length_binary_erosion; reflexivity|].
  intros i Hi. pose proof (nth_true_lt _ _ Hi) as Hlt.
  rewrite length_binary_dilation, length_binary_erosion in Hlt.
  assert (Hpos : (0 < grid_size nav)%nat) by lia.
  rewrite nth_binary_dilation in Hi by (rewrite length_binary_erosion; exact Hlt).
  apply existsb_id in Hi. apply in_neighbours in Hi.
  rewrite <- (nth_indep m true false Hlt).
  destruct Hi as [E|([e st] & Hax & [E|E])].
  - symmetry in E. apply erosion_true_at in E. destruct E as [_ Hall].
    apply Hall. apply in_neighbours. left. reflexivity.
  - destruct (axes_positive nav (e, st) Hpos Hax) as [He Hst]. cbn [fst snd] in *.
    destruct (coordinate (e, st) i =? 0)%nat eqn:Ec; [discriminate|].
    apply Nat.eqb_neq in Ec.
    destruct (coordinate_before e st i He Hst Ec) as [Hk Hq].
    symmetry in E. apply erosion_true_at in E. destruct E as [_ Hall].
    apply Hall. apply in_neighbours. right. exists (e, st). split; [exact Hax|]. right.
    cbn [fst snd].
    replace (S (coordinate (e, st) (i - st)) <? e)%nat with true.
    + replace (i - st + st)%nat with i by lia. reflexivity.
    + symmetry. apply Nat.ltb_lt. rewrite Hq. unfold coordinate. cbn [fst snd].
      apply Nat.mod_upper_bound. lia.
  - destruct (axes_positive nav (e, st) Hpos Hax) as [He Hst]. cbn [fst snd] in *.
    destruct (S (coordinate (e, st) i) <? e)%nat eqn:Ec; [|discriminate].
    apply Nat.ltb_lt in Ec.
    symmetry in E. apply erosion_true_at in E. destruct E as [_ Hall].
    apply Hall. apply in_neighbours. right. exists (e, st). split; [exact Hax|]. left.
    cbn [fst snd]. rewrite (coordinate_after e st i Hst Ec). cbn [Nat.eqb].
    replace (i + st - st)%nat with i by lia. reflexivity.
Qed.

(** X21: on a stack with one frame for every position of the navigation
    shape, closing alone only adds flags to the mask obtained without
    clean-up, and opening alone only removes flags from it. *)
Theorem get_vacuum_mask_closing_opening (s : ElectronDiffraction) (nav : list nat)
        (radius : Q) (center : option (Q * Q)) (threshold : Q) :
  well_shaped s ->
  (0 < fst (signal_shape s))%nat -> (0 < snd (signal_shape s))%nat ->
  grid_size nav = navigation_size s ->
  exists raw closed opened,
    get_vacuum_mask s nav radius center threshold false false = Ret raw
    /\ get_vacuum_mask s nav radius center threshold true false = Ret closed
    /\ get_vacuum_mask s nav radius center threshold false true = Ret opened
    /\ mask_le raw closed /\ mask_le opened raw.
Proof.
  intros Hwf HW HH Hnav. rewrite !get_vacuum_mask_returns by assumption.
  eexists. eexists. eexists. repeat (split; [reflexivity|]).
  assert (Hl : length (raw_vacuum s radius center threshold) = grid_size nav).
  { rewrite Hnav. unfold raw_vacuum, navigation_size. apply length_map. }
  unfold morphology_cleanup.
  split; [apply closing_extensive|apply opening_anti_extensive]; exact Hl.
Qed.

Lemma get_vacuum_mask_closing_opening_witness :
  (well_shaped grid_stack
   /\ (0 < fst (signal_shape grid_stack))%nat
   /\ (0 < snd (signal_shape grid_stack))%nat
   /\ grid_size [2; 2]%nat = navigation_size grid_stack)
  /\ exists raw closed opened,
       get_vacuum_mask grid_stack [2; 2]%nat 1 (Some middle) 3 false false = Ret raw
       /\ get_vacuum_mask grid_stack [2; 2]%nat 1 (Some middle) 3 true false = Ret closed
       /\ get_vacuum_mask grid_stack [2; 2]%nat 1 (Some middle) 3 false true = Ret opened
       /\ mask_le raw closed /\ mask_le opened raw.
Proof.
  assert (Hw : well_shaped grid_stack) by (repeat constructor).
  assert (H1 : (0 < fst (signal_shape grid_stack))%nat) by (simpl; lia).
  assert (H2 : (0 < snd (signal_shape grid_stack))%nat) by (simpl; lia).
  assert (H3 : grid_size [2; 2]%nat = navigation_size grid_stack) by reflexivity.
  split; [tauto|].
  exact (get_vacuum_mask_closing_opening grid_stack [2; 2]%nat 1 (Some middle) 3 Hw H1 H2 H3).
Defined.

(** ** [_regional_filter] and [remove_background] *)

(** X22: for [h >= 0] the filtered frame has the shape of the frame and every
    pixel of it lies between 0 and [h]. *)
Theorem regional_filter_range (h : Q) (H W : nat) (z : frame) :
  0 <= h -> rectangular H W z -> (0 < H)%nat ->
  exists r,
    _regional_filter h z = Ret r
    /\ rectangular H W r
    /\ forall i j, (i < H)%nat -> (j < W)%nat ->
         0 <= item 0 r i j /\ item 0 r i j <= h.
Proof.
  intros Hh R HH. exists (regional h z).
  destruct (regional_steps h H W z Hh R HH) as (E & (seed & rec & _ & _ & P) & B).
  split; [exact E|]. split; [apply P|exact B].
Qed.

Lemma regional_filter_range_witness :
  (0 <= 3 /\ rectangular 3 3 spot /\ (0 < 3)%nat)
  /\ exists r,
       _regional_filter 3 spot = Ret r
       /\ rectangular 3 3 r
       /\ forall i j, (i < 3)%nat -> (j < 3)%nat ->
            0 <= item 0 r i j /\ item 0 r i j <= 3.
Proof.
  assert (H1 : 0 <= 3) by (apply Qle_bool_iff; reflexivity).
  assert (H2 : rectangular 3 3 spot) by (split; [reflexivity|repeat constructor]).
  assert (H3 : (0 < 3)%nat) by lia.
  split; [tauto|].
  exact (regional_filter_range 3 3 3 spot H1 H2 H3).
Defined.

Lemma local_mean_between (h : Q) (H W : nat) (z : frame) (v : Q) :
  0 <= h -> rectangular H W z -> (0 < H)%nat ->
  (forall i j, (i < H)%nat -> (j < W)%nat -> 0 <= item 0 z i j /\ item 0 z i j <= h) ->
  In v (ravel (local_mean z)) -> 0 <= v /\ v <= h.
Proof.
  intros Hh R HH Hz Hv. unfold local_mean in Hv.
  rewrite ravel_tabulate in Hv. apply in_map_iff in Hv. destruct Hv as ([i j] & <- & _).
  cbn [fst snd].
  destruct (window z (square 3) i j) as [|u us] eqn:Ew.
  - assert (E : Qsum [] / NtoQ (length (@nil Q)) == 0) by reflexivity.
    rewrite E. split; [apply Qle_refl|exact Hh].
  - rewrite <- Ew. apply mean_bounds; [rewrite Ew; discriminate|].
    intros x Hx. apply in_window in Hx. destruct Hx as ([a b] & Hp & ->).
    apply in_pixels in Hp. rewrite (rectangular_shape H W z R HH) in Hp.
    cbn [fst snd] in Hp. unfold intensity. cbn [fst snd]. apply Hz; lia.
Qed.

Lemma remove_background_means (h : Q) (s : ElectronDiffraction) (m : Q) :
  0 <= h -> h <= 1 -> well_shaped s -> stack_max (data s) = Ret m -> ~ m == 0 ->
  exists (means : list frame) (m' : Q),
    stack_max means = Ret m'
    /\ remove_background h s = (Ret tt, mkSignal (divide means m') (signal_shape s))
    /\ length means = navigation_size s
    /\ forall v, In v (flat_map ravel means) -> 0 <= v /\ v <= h.
Proof.
  intros Hh Hh1 Hwf Hm Hm0.
  destruct (remove_background_returns h s m Hh Hh1 Hwf Hm Hm0) as (HH & HW & m' & Hm' & Hrun).
  set (H := snd (signal_shape s)) in *. set (W := fst (signal_shape s)) in *.
  set (normalized := map (map (map (fun v => v / m))) (data s)) in *.
  exists (map local_mean (map (regional h) normalized)), m'.
  split; [exact Hm'|]. split; [exact Hrun|]. split.
  - unfold normalized, navigation_size. rewrite !length_map. reflexivity.
  - intros v Hv. apply in_flat_map in Hv. destruct Hv as (f & Hf & Hv).
    rewrite map_map in Hf. apply in_map_iff in Hf. destruct Hf as (z & <- & Hz).
    assert (Rz : rectangular H W z).
    { unfold normalized in Hz. apply in_map_iff in Hz. destruct Hz as (z0 & <- & Hz0).
      apply rectangular_map. unfold well_shaped in Hwf. rewrite Forall_forall in Hwf. auto. }
    destruct (regional_steps h H W z Hh Rz HH) as (_ & (seed & rec & _ & _ & P) & B).
    apply (local_mean_between h H W (regional h z) v Hh (proj1 P) HH B Hv).
Qed.

Lemma ravel_map {A B : Type} (f : A -> B) (z : array2 A) :
  ravel (map (map f) z) = map f (ravel z).
Proof. unfold ravel. symmetry. apply concat_map. Qed.

Lemma in_divide (means : list frame) (m' : Q) (o : array2 npfloat) (x : npfloat) :
  In o (divide means m') -> In x (ravel o) ->
  exists v, In v (flat_map ravel means) /\ x = np_divide v m'.
Proof.
  unfold divide. intros Ho Hx. apply in_map_iff in Ho. destruct Ho as (f & <- & Hf).
  rewrite ravel_map in Hx. apply in_map_iff in Hx. destruct Hx as (v & <- & Hv).
  exists v. split; [|reflexivity]. apply in_flat_map. exists f. split; assumption.
Qed.

(** X23: for [0 <= h <= 1] and a stack with a non-zero maximum the stack left by
    [remove_background] has the same shape and number of frames and is
    normalised: either every value is nan (the filtered stack was zero
    everywhere), or every value is a number between 0 and 1 and the value 1
    occurs. *)
Theorem remove_background_normalised (h : Q) (s : ElectronDiffraction) (m : Q) :
  0 <= h -> h <= 1 -> well_shaped s -> stack_max (data s) = Ret m -> ~ m == 0 ->
  exists out : Signal npfloat,
    remove_background h s = (Ret tt, out)
    /\ signal_shape out = signal_shape s
    /\ navigation_size out = navigation_size s
    /\ ((forall o x, In o (data out) -> In x (ravel o) -> x = Nan)
        \/ ((forall o x, In o (data out) -> In x (ravel o) ->
               exists q, x = Num q /\ 0 <= q /\ q <= 1)
            /\ exists o q, In o (data out) /\ In (Num q) (ravel o) /\ q == 1)).
Proof.
  intros Hh Hh1 Hwf Hm Hm0.
  destruct (remove_background_means h s m Hh Hh1 Hwf Hm Hm0)
    as (means & m' & Hm' & Hrun & Hlen & Hr).
  eexists. split; [exact Hrun|]. cbn [signal_shape data]. split; [reflexivity|].
  split; [unfold navigation_size, divide; cbn [data]; rewrite length_map; exact Hlen|].
  pose proof (max_of_in _ _ Hm') as Hin.
  assert (Hle : forall v, In v (flat_map ravel means) -> v <= m').
  { apply (max_of_le _ m' m' Hm'). apply Qle_refl. }
  destruct (Qeq_bool m' 0) eqn:E0.
  - left. intros o x Ho Hx. destruct (in_divide means m' o x Ho Hx) as (v & Hv & ->).
    apply Qeq_bool_iff in E0. unfold np_divide.
    replace (Qeq_bool m' 0) with true by (symmetry; apply Qeq_bool_iff; exact E0).
    replace (Qeq_bool v 0) with true; [reflexivity|].
    symmetry. apply Qeq_bool_iff. destruct (Hr v Hv) as [L _]. specialize (Hle v Hv). lra.
  - right.
    assert (Hpos : 0 < m').
    { destruct (Hr m' Hin) as [L _]. apply Qle_lt_or_eq in L. destruct L as [L|L]; [exact L|].
      exfalso. apply not_true_iff_false in E0. apply E0. apply Qeq_bool_iff.
      symmetry. exact L. }
    split.
    + intros o x Ho Hx. destruct (in_divide means m' o x Ho Hx) as (v & Hv & ->).
      unfold np_divide. rewrite E0. eexists. split; [reflexivity|].
      destruct (Hr v Hv) as [L _]. specialize (Hle v Hv). split.
      * apply Qle_shift_div_l; [exact Hpos|lra].
      * apply Qle_shift_div_r; [exact Hpos|lra].
    + apply in_flat_map in Hin. destruct Hin as (f & Hf & Hv).
      exists (map (map (fun v => np_divide v m')) f), (m' / m'). split; [|split].
      * unfold divide. exact (in_map (map (map (fun v => np_divide v m'))) _ f Hf).
      * rewrite ravel_map.
        replace (Num (m' / m')) with (np_divide m' m') by (unfold np_divide; rewrite E0; reflexivity).
        exact (in_map (fun v => np_divide v m') _ m' Hv).
      * field. lra.
Qed.

Lemma remove_background_normalised_witness :
  (0 <= 1 # 10 /\ 1 # 10 <= 1 /\ well_shaped spot_stack
   /\ stack_max (data spot_stack) = Ret 9 /\ ~ 9 == 0)
  /\ exists out : Signal npfloat,
       remove_background (1 # 10) spot_stack = (Ret tt, out)
       /\ signal_shape out = signal_shape spot_stack
       /\ navigation_size out = navigation_size spot_stack
       /\ ((forall o x, In o (data out) -> In x (ravel o) -> x = Nan)
           \/ ((forall o x, In o (data out) -> In x (ravel o) ->
                  exists q, x = Num q /\ 0 <= q /\ q <= 1)
               /\ exists o q, In o (data out) /\ In (Num q) (ravel o) /\ q == 1)).
Proof.
  assert (H1 : 0 <= 1 # 10) by (apply Qle_bool_iff; reflexivity).
  assert (H1' : 1 # 10 <= 1) by (apply Qle_bool_iff; reflexivity).
  assert (H2 : well_shaped spot_stack) by (repeat constructor).
  assert (H3 : stack_max (data spot_stack) = Ret 9) by reflexivity.
  assert (H4 : ~ 9 == 0) by (intros E; discriminate E).
  split; [tauto|].
  exact (remove_background_normalised (1 # 10) spot_stack 9 H1 H1' H2 H3 H4).
Defined.

(** X24: with [h = 0] nothing survives: the call returns and the stack holds
    nan in every pixel of every frame. *)
Theorem remove_background_zero_depth_nan (s : ElectronDiffraction) (m : Q) :
  well_shaped s -> stack_max (data s) = Ret m -> ~ m == 0 ->
  exists out : Signal npfloat,
    remove_background 0 s = (Ret tt, out)
    /\ navigation_size out = navigation_size s
    /\ forall o x, In o (data out) -> In x (ravel o) -> x = Nan.
Proof.
  intros Hwf Hm Hm0.
  assert (H01 : 0 <= 1) by (apply Qle_bool_iff; reflexivity).
  destruct (remove_background_means 0 s m (Qle_refl 0) H01 Hwf Hm Hm0)
    as (means & m' & Hm' & Hrun & Hlen & Hr).
  eexists. split; [exact Hrun|]. cbn [data].
  split; [unfold navigation_size, divide; cbn [data]; rewrite length_map; exact Hlen|].
  pose proof (max_of_in _ _ Hm') as Hin.
  intros o x Ho Hx. destruct (in_divide means m' o x Ho Hx) as (v & Hv & ->).
  unfold np_divide.
  replace (Qeq_bool m' 0) with true
    by (symmetry; apply Qeq_bool_iff; destruct (Hr m' Hin); lra).
  replace (Qeq_bool v 0) with true; [reflexivity|].
  symmetry. apply Qeq_bool_iff. destruct (Hr v Hv). lra.
Qed.

Lemma remove_background_zero_depth_nan_witness :
  (well_shaped spot_stack /\ stack_max (data spot_stack) = Ret 9 /\ ~ 9 == 0)
  /\ exists out : Signal npfloat,
       remove_background 0 spot_stack = (Ret tt, out)
       /\ navigation_size out = navigation_size spot_stack
       /\ forall o x, In o (data out) -> In x (ravel o) -> x = Nan.
Proof.
  assert (H2 : well_shaped spot_stack) by (repeat constructor).
  assert (H3 : stack_max (data spot_stack) = Ret 9) by reflexivity.
  assert (H4 : ~ 9 == 0) by (intros E; discriminate E).
  split; [tauto|].
  exact (remove_background_zero_depth_nan spot_stack 9 H2 H3 H4).
Defined.

(** X25: a negative [h] makes the seed exceed the mask: the reconstruction of
    the first frame raises ValueError, and the stack is left divided by its
    maximum (step 1 has been done, the later steps have not). *)
Theorem remove_background_negative_depth (h : Q) (s : ElectronDiffraction) (m : Q) :
  h < 0 -> well_shaped s -> stack_max (data s) = Ret m -> ~ m == 0 ->
  remove_background h s
  = (Raise (ValueError "Intensity of seed image must be less than that of the mask image for reconstruction by dilation."),
     mkSignal (lift (map (map (map (fun v => v / m))) (data s))) (signal_shape s)).
Proof.
  intros Hh Hwf Hm Hm0. destruct s as [frames [W H]].
  unfold well_shaped in *. cbn [data signal_shape fst snd] in *.
  destruct (flat_map_ravel_nonempty H W frames Hwf (max_of_nonempty _ _ Hm))
    as (Hne & HH & HW).
  unfold remove_background. cbn [data signal_shape]. rewrite Hm.
  replace (Qeq_bool m 0) with false
    by (symmetry; apply not_true_iff_false; rewrite Qeq_bool_iff; exact Hm0).
  destruct frames as [|z0 rest]; [contradiction|]. cbn [map].
  set (z := map (map (fun v => v / m)) z0).
  assert (R : rectangular H W z).
  { apply rectangular_map. inversion Hwf; assumption. }
  pose proof (rectangular_shape H W z R HH) as Ez.
  assert (Hf : _regional_filter h z
               = Raise (ValueError "Intensity of seed image must be less than that of the mask image for reconstruction by dilation.")).
  { unfold _regional_filter, reconstruction.
    rewrite shape_map. unfold shape_eqb. rewrite !Nat.eqb_refl. cbn [andb negb].
    replace (all_pixels (map (map (fun v => v - h)) z)
               (fun i j => Qle_bool (item 0 (map (map (fun v => v - h)) z) i j) (item 0 z i j)))
      with false; [reflexivity|].
    symmetry. apply not_true_iff_false. intros Hall.
    unfold all_pixels in Hall. rewrite shape_map, Ez in Hall.
    rewrite forallb_forall in Hall.
    specialize (Hall 0%nat ltac:(apply in_seq; lia)).
    rewrite forallb_forall in Hall.
    specialize (Hall 0%nat ltac:(apply in_seq; lia)).
    rewrite (item_map (fun v => v - h) 0 0 H W z) in Hall by assumption.
    apply Qle_bool_iff in Hall. lra. }
  cbn [map_frames]. rewrite Hf. reflexivity.
Qed.

Lemma remove_background_negative_depth_witness :
  (- (1) < 0 /\ well_shaped spot_stack
   /\ stack_max (data spot_stack) = Ret 9 /\ ~ 9 == 0)
  /\ remove_background (- (1)) spot_stack
     = (Raise (ValueError "Intensity of seed image must be less than that of the mask image for reconstruction by dilation."),
        mkSignal (lift (map (map (map (fun v => v / 9))) (data spot_stack)))
                 (signal_shape spot_stack)).
Proof.
  assert (H1 : - (1) < 0) by reflexivity.
  assert (H2 : well_shaped spot_stack) by (repeat constructor).
  assert (H3 : stack_max (data spot_stack) = Ret 9) by reflexivity.
  assert (H4 : ~ 9 == 0) by (intros E; discriminate E).
  split; [tauto|].
  exact (remove_background_negative_depth (- (1)) spot_stack 9 H1 H2 H3 H4).
Defined.

(** ** [affine_transformation] and [correct_geometric_distortion] *)



(** X27: the transform acts about the point (columns / 2, rows / 2): for an
    invertible affine matrix with linear part [a b; c d] and translation
    (tx, ty), the inverse map handed to the warp sends that point moved by
    (tx, ty) back to the point, and keeps the homogeneous coordinate 1. *)
Theorem affine_transformation_about_centre (tf_warp : frame -> mat3 -> nat -> frame)
        (z : frame) (order : nat) (a b c d tx ty : Q) :
  ~ a * d - b * c == 0 ->
  exists inverse_map,
    affine_transformation tf_warp z order (affine_matrix a b c d tx ty)
    = Ret (tf_warp z inverse_map order)
    /\ (let cx := NtoQ (snd (shape z)) / 2 in
        let cy := NtoQ (fst (shape z)) / 2 in
        entry inverse_map 0 0 * (cx + tx) + entry inverse_map 0 1 * (cy + ty)
        + entry inverse_map 0 2 == cx
        /\ entry inverse_map 1 0 * (cx + tx) + entry inverse_map 1 1 * (cy + ty)
           + entry inverse_map 1 2 == cy
        /\ entry inverse_map 2 0 * (cx + tx) + entry inverse_map 2 1 * (cy + ty)
           + entry inverse_map 2 2 == 1).
Proof.
  intros Hd. rewrite affine_transformation_composite.
  assert (Hdet : det3 (affine_matrix a b c d tx ty) == a * d - b * c).
  { unfold det3, entry, affine_matrix, item; cbn [nth]. ring. }
  assert (Hc : ~ det3 (composite z (affine_matrix a b c d tx ty)) == 0).
  { rewrite det3_composite, Hdet. exact Hd. }
  unfold tf_inverse.
  replace (Qeq_bool (det3 (composite z (affine_matrix a b c d tx ty))) 0) with false
    by (symmetry; apply not_true_iff_false; rewrite Qeq_bool_iff; exact Hc).
  cbn [bind]. eexists. split; [reflexivity|].
  cbv zeta.
  revert Hc. unfold det3, entry, composite, tf_add, matmul.
  rewrite !item_tabulate by lia.
  set (sx := NtoQ (snd (shape z)) / 2). set (sy := NtoQ (fst (shape z)) / 2).
  unfold translation, affine_matrix, item; cbn [nth].
  intros Hc. repeat split; field; intros E; apply Hd; rewrite <- E; ring.
Qed.

Lemma affine_transformation_about_centre_witness :
  (~ 2 * 2 - 0 * 0 == 0)
  /\ exists inverse_map,
       affine_transformation no_warp spot 3 (affine_matrix 2 0 0 2 1 0)
       = Ret (no_warp spot inverse_map 3%nat)
       /\ (let cx := NtoQ (snd (shape spot)) / 2 in
           let cy := NtoQ (fst (shape spot)) / 2 in
           entry inverse_map 0 0 * (cx + 1) + entry inverse_map 0 1 * (cy + 0)
           + entry inverse_map 0 2 == cx
           /\ entry inverse_map 1 0 * (cx + 1) + entry inverse_map 1 1 * (cy + 0)
              + entry inverse_map 1 2 == cy
           /\ entry inverse_map 2 0 * (cx + 1) + entry inverse_map 2 1 * (cy + 0)
              + entry inverse_map 2 2 == 1).
Proof.
  assert (H1 : ~ 2 * 2 - 0 * 0 == 0) by (intros E; discriminate E).
  split; [exact H1|].
  exact (affine_transformation_about_centre no_warp spot 3 2 0 0 2 1 0 H1).
Defined.
